(** * ihex: a shallow embedding of the Intel HEX parser (parser.go)

    The Go [Parser] is a mutable struct driven by [Parse]; it is embedded
    here as a record threaded through a small state monad whose outcomes
    also record Go run-time panics (index or slice bounds out of range).

    Two Go features matter for what the parser does and are modelled
    explicitly:

    - a slice is a window on a backing array and may be re-sliced up to
      its capacity, beyond its length.  The line handed out by
      [bufio.Scanner] is such a window on the scanner's buffer, so
      [p.b[:n*2]] can reach bytes that follow the line; [bslice] keeps the
      visible bytes and the bytes up to the capacity apart;
    - the byte slices of a [Record] are windows on the parser's scratch
      array [field]; [fslice] is such a window and [view] reads it.

    Fixed-width integers are [Z] with the wrap-around written out. *)

From Stdlib Require Import String Ascii ZArith List Bool Lia.
Import ListNotations.
Local Open Scope Z_scope.

(** ** Errors *)

(** Go's [error] values that can end up in [Parser.err]: the package's own
    [ParseError], the two errors of [encoding/hex], and whatever the
    scanner reports. *)
Inductive error : Type :=
| ParseError (Line : Z) (Msg : string)
| InvalidByteError (c : ascii)
| ErrLength
| ScannerError (msg : string).

(** ** Slices *)

(** A window on the scanner's buffer: [vis] is the slice itself
    ([len] bytes), [slack] the bytes of the backing array between [len]
    and [cap]. *)
Record bslice : Type := mkBslice { vis : list ascii; slack : list ascii }.

Definition blen (s : bslice) : nat := length (vis s).
Definition bcap (s : bslice) : nat := (length (vis s) + length (slack s))%nat.

(** A window on the 256-byte scratch array [Parser.field]. *)
Record fslice : Type := mkFslice { base : nat; size : nat }.

Definition nilSlice : fslice := mkFslice 0 0.
Definition fcap (s : fslice) : nat := (256 - base s)%nat.

Definition view (fld : list Z) (s : fslice) : list Z :=
  firstn (size s) (skipn (base s) fld).

(** [dst[i] = x] for the consecutive bytes [bs], starting at [at_]. *)
Fixpoint write_at (at_ : nat) (bs : list Z) (fld : list Z) : list Z :=
  match at_, fld with
  | O, _ =>
      match bs, fld with
      | [], _ => fld
      | x :: bs', _ :: fld' => x :: write_at O bs' fld'
      | _ :: _, [] => []
      end
  | S k, y :: fld' => y :: write_at k bs fld'
  | S _, [] => []
  end.

(** ** Data model *)

(** [type Record struct { Address uint32; Bytes []byte }] *)
Record Rec : Type := mkRec { Address : Z; Bytes : fslice }.

(** The part of [bufio.Scanner] the parser relies on: the lines still to
    be delivered, the line delivered last ([Bytes()]), and the message of
    the reader's error that [Err()] reports once [Scan] has returned
    false.  [delivered] counts the lines [Scan] has handed out; it is
    bookkeeping of the model. *)
Record Scanner : Type := mkScanner {
  pending : list bslice;
  token : bslice;
  delivered : Z;
  ioerr : option string
}.

(** [type Parser struct].  [line] is a Go [int]; it counts lines of the
    input and stays far from the bounds of that type, so it is an
    unbounded [Z] here.  The other numbers are a [byte] ([sum], the
    entries of [field]), [uint16] ([cs], [ip]) or [uint32]. *)
Record Parser : Type := mkParser {
  scanner : Scanner;
  field : list Z;
  err : option error;
  lba : Z;
  useLBA : bool;
  sba : Z;
  useSBA : bool;
  cs : Z;
  ip : Z;
  hasCSIP : bool;
  eip : Z;
  hasEIP : bool;
  data : Rec;
  wrap : option Rec;
  b : bslice;
  line : Z;
  sum : Z;
  ended : bool
}.

Definition set_scanner (v : Scanner) (p : Parser) : Parser :=
  mkParser v (field p) (err p) (lba p) (useLBA p) (sba p) (useSBA p) (cs p)
    (ip p) (hasCSIP p) (eip p) (hasEIP p) (data p) (wrap p) (b p) (line p)
    (sum p) (ended p).
Definition set_field (v : list Z) (p : Parser) : Parser :=
  mkParser (scanner p) v (err p) (lba p) (useLBA p) (sba p) (useSBA p) (cs p)
    (ip p) (hasCSIP p) (eip p) (hasEIP p) (data p) (wrap p) (b p) (line p)
    (sum p) (ended p).
Definition set_err (v : option error) (p : Parser) : Parser :=
  mkParser (scanner p) (field p) v (lba p) (useLBA p) (sba p) (useSBA p) (cs p)
    (ip p) (hasCSIP p) (eip p) (hasEIP p) (data p) (wrap p) (b p) (line p)
    (sum p) (ended p).
Definition set_lba (v : Z) (p : Parser) : Parser :=
  mkParser (scanner p) (field p) (err p) v (useLBA p) (sba p) (useSBA p) (cs p)
    (ip p) (hasCSIP p) (eip p) (hasEIP p) (data p) (wrap p) (b p) (line p)
    (sum p) (ended p).
Definition set_useLBA (v : bool) (p : Parser) : Parser :=
  mkParser (scanner p) (field p) (err p) (lba p) v (sba p) (useSBA p) (cs p)
    (ip p) (hasCSIP p) (eip p) (hasEIP p) (data p) (wrap p) (b p) (line p)
    (sum p) (ended p).
Definition set_sba (v : Z) (p : Parser) : Parser :=
  mkParser (scanner p) (field p) (err p) (lba p) (useLBA p) v (useSBA p) (cs p)
    (ip p) (hasCSIP p) (eip p) (hasEIP p) (data p) (wrap p) (b p) (line p)
    (sum p) (ended p).
Definition set_useSBA (v : bool) (p : Parser) : Parser :=
  mkParser (scanner p) (field p) (err p) (lba p) (useLBA p) (sba p) v (cs p)
    (ip p) (hasCSIP p) (eip p) (hasEIP p) (data p) (wrap p) (b p) (line p)
    (sum p) (ended p).
Definition set_cs (v : Z) (p : Parser) : Parser :=
  mkParser (scanner p) (field p) (err p) (lba p) (useLBA p) (sba p) (useSBA p) v
    (ip p) (hasCSIP p) (eip p) (hasEIP p) (data p) (wrap p) (b p) (line p)
    (sum p) (ended p).
Definition set_ip (v : Z) (p : Parser) : Parser :=
  mkParser (scanner p) (field p) (err p) (lba p) (useLBA p) (sba p) (useSBA p)
    (cs p) v (hasCSIP p) (eip p) (hasEIP p) (data p) (wrap p) (b p) (line p)
    (sum p) (ended p).
Definition set_hasCSIP (v : bool) (p : Parser) : Parser :=
  mkParser (scanner p) (field p) (err p) (lba p) (useLBA p) (sba p) (useSBA p)
    (cs p) (ip p) v (eip p) (hasEIP p) (data p) (wrap p) (b p) (line p)
    (sum p) (ended p).
Definition set_eip (v : Z) (p : Parser) : Parser :=
  mkParser (scanner p) (field p) (err p) (lba p) (useLBA p) (sba p) (useSBA p)
    (cs p) (ip p) (hasCSIP p) v (hasEIP p) (data p) (wrap p) (b p) (line p)
    (sum p) (ended p).
Definition set_hasEIP (v : bool) (p : Parser) : Parser :=
  mkParser (scanner p) (field p) (err p) (lba p) (useLBA p) (sba p) (useSBA p)
    (cs p) (ip p) (hasCSIP p) (eip p) v (data p) (wrap p) (b p) (line p)
    (sum p) (ended p).
Definition set_data (v : Rec) (p : Parser) : Parser :=
  mkParser (scanner p) (field p) (err p) (lba p) (useLBA p) (sba p) (useSBA p)
    (cs p) (ip p) (hasCSIP p) (eip p) (hasEIP p) v (wrap p) (b p) (line p)
    (sum p) (ended p).
Definition set_wrap (v : option Rec) (p : Parser) : Parser :=
  mkParser (scanner p) (field p) (err p) (lba p) (useLBA p) (sba p) (useSBA p)
    (cs p) (ip p) (hasCSIP p) (eip p) (hasEIP p) (data p) v (b p) (line p)
    (sum p) (ended p).
Definition set_b (v : bslice) (p : Parser) : Parser :=
  mkParser (scanner p) (field p) (err p) (lba p) (useLBA p) (sba p) (useSBA p)
    (cs p) (ip p) (hasCSIP p) (eip p) (hasEIP p) (data p) (wrap p) v (line p)
    (sum p) (ended p).
Definition set_line (v : Z) (p : Parser) : Parser :=
  mkParser (scanner p) (field p) (err p) (lba p) (useLBA p) (sba p) (useSBA p)
    (cs p) (ip p) (hasCSIP p) (eip p) (hasEIP p) (data p) (wrap p) (b p) v
    (sum p) (ended p).
Definition set_sum (v : Z) (p : Parser) : Parser :=
  mkParser (scanner p) (field p) (err p) (lba p) (useLBA p) (sba p) (useSBA p)
    (cs p) (ip p) (hasCSIP p) (eip p) (hasEIP p) (data p) (wrap p) (b p)
    (line p) v (ended p).
Definition set_ended (v : bool) (p : Parser) : Parser :=
  mkParser (scanner p) (field p) (err p) (lba p) (useLBA p) (sba p) (useSBA p)
    (cs p) (ip p) (hasCSIP p) (eip p) (hasEIP p) (data p) (wrap p) (b p)
    (line p) (sum p) v.

(** ** Outcomes and the parser monad *)

(** A method either returns (with the parser it leaves behind), panics,
    or, for the loop of [Parse] only, exhausts the iteration budget of
    the model ([Parse_terminates] shows the latter never happens). *)
Inductive outcome (A : Type) : Type :=
| Ok (a : A) (p : Parser)
| Panic (msg : string)
| OutOfFuel.
Arguments Ok {A} a p.
Arguments Panic {A} msg.
Arguments OutOfFuel {A}.

Definition M (A : Type) : Type := Parser -> outcome A.

Definition ret {A : Type} (a : A) : M A := fun p => Ok a p.

Definition bind {A B : Type} (m : M A) (k : A -> M B) : M B :=
  fun p =>
    match m p with
    | Ok a p' => k a p'
    | Panic msg => Panic msg
    | OutOfFuel => OutOfFuel
    end.

Definition gets {A : Type} (f : Parser -> A) : M A := fun p => Ok (f p) p.
Definition modify (f : Parser -> Parser) : M unit := fun p => Ok tt (f p).
Definition panic {A : Type} (msg : string) : M A := fun _ => Panic msg.

Declare Scope parser_scope.
Delimit Scope parser_scope with parser.
Notation "x <- m ;; k" := (bind m (fun x => k))
  (at level 100, m at next level, right associativity) : parser_scope.
Notation "m ;;; k" := (bind m (fun _ => k))
  (at level 100, right associativity) : parser_scope.
Local Open Scope parser_scope.

Definition index_out_of_range : string := "index out of range"%string.
Definition slice_out_of_range : string :=
  "slice bounds out of range"%string.

(** ** encoding/hex *)

(** [hex.Decode]'s digit table: the value of a hexadecimal digit, upper
    or lower case. *)
Definition fromHexChar (c : ascii) : option Z :=
  let n := Z.of_N (N_of_ascii c) in
  if (48 <=? n) && (n <=? 57) then Some (n - 48)
  else if (97 <=? n) && (n <=? 102) then Some (n - 97 + 10)
  else if (65 <=? n) && (n <=? 70) then Some (n - 65 + 10)
  else None.

(** [hex.Decode(dst, src)]: the bytes written to [dst] (their number is
    the [int] it returns) and the error, if any.  Decoding stops at the
    first pair that is not two hexadecimal digits; the bytes decoded
    before it stay written and counted, as the current standard library
    documents it.  (Early versions returned 0 with every error;
    [readFieldInto] reports "record too short" either way.) *)
Fixpoint hexDecode (src : list ascii) : list Z * option error :=
  match src with
  | [] => ([], None)
  | [c] =>
      match fromHexChar c with
      | None => ([], Some (InvalidByteError c))
      | Some _ => ([], Some ErrLength)
      end
  | c1 :: c2 :: rest =>
      match fromHexChar c1, fromHexChar c2 with
      | None, _ => ([], Some (InvalidByteError c1))
      | Some _, None => ([], Some (InvalidByteError c2))
      | Some hi, Some lo =>
          let '(bs, e) := hexDecode rest in
          (Z.lor (Z.shiftl hi 4) lo :: bs, e)
      end
  end.

(** ** bufio.Scanner *)

Definition emptyToken : bslice := mkBslice [] [].

(** [Scan()]: deliver the next line, or report that there is none. *)
Definition Scan (s : Scanner) : bool * Scanner :=
  match pending s with
  | [] => (false, mkScanner [] emptyToken (delivered s) (ioerr s))
  | t :: rest => (true, mkScanner rest t (delivered s + 1) (ioerr s))
  end.

(** ** The parser's methods *)

(** [func (p *Parser) makeError(msg string) error] *)
Definition makeError (msg : string) (p : Parser) : error :=
  ParseError (line p) msg.

Definition fail (msg : string) : M unit :=
  modify (fun p => set_err (Some (makeError msg p)) p).

(** [s[i]] on a window of [field]. *)
Definition index (s : fslice) (i : nat) : M Z :=
  fun p =>
    if (i <? size s)%nat then Ok (nth (base s + i) (field p) 0) p
    else Panic index_out_of_range.

(** [s[k:]] and [s[:k]] on a window of [field]. *)
Definition slice_from (s : fslice) (k : Z) : M fslice :=
  if (0 <=? k) && (k <=? Z.of_nat (size s))
  then ret (mkFslice (base s + Z.to_nat k) (size s - Z.to_nat k))
  else panic slice_out_of_range.

Definition slice_to (s : fslice) (k : Z) : M fslice :=
  if (0 <=? k) && (k <=? Z.of_nat (fcap s))
  then ret (mkFslice (base s) (Z.to_nat k))
  else panic slice_out_of_range.

(** The loop [for i := 0; i < nd; i++ { p.sum += field[i] }] on a
    [byte]. *)
Definition addBytes (bs : list Z) (s : Z) : Z :=
  fold_left (fun acc x => (acc + x) mod 256) bs s.

(** [func (p *Parser) readFieldInto(n byte, field []byte) []byte].
    [n*2] is computed on a [byte]; [p.b[:n*2]] may reach up to the
    capacity of [p.b]; [p.b[nd*2:]] may not pass its length. *)
Definition readFieldInto (n : Z) (dst : fslice) : M fslice :=
  fun p =>
    match err p with
    | Some _ => Ok nilSlice p
    | None =>
        let hi := Z.to_nat ((n * 2) mod 256) in
        if (bcap (b p) <? hi)%nat then Panic slice_out_of_range else
        let src := firstn hi (vis (b p) ++ slack (b p)) in
        let '(bs, e) := hexDecode src in
        let nd := List.length bs in
        if (size dst <? nd)%nat then Panic index_out_of_range else
        let p1 := set_err e (set_field (write_at (base dst) bs (field p)) p) in
        if (blen (b p1) <? nd * 2)%nat then Panic slice_out_of_range else
        let p2 :=
          set_b (mkBslice (skipn (nd * 2) (vis (b p1))) (slack (b p1))) p1 in
        if Z.of_nat nd mod 256 <? n then
          Ok nilSlice (set_err (Some (makeError "record too short" p2)) p2)
        else
          match err p2 with
          | Some _ => Ok nilSlice p2
          | None =>
              let got := mkFslice (base dst) nd in
              Ok got (set_sum (addBytes (view (field p2) got) (sum p2)) p2)
          end
    end.

(** [func (p *Parser) readField(n byte) []byte] *)
Definition readField (n : Z) : M fslice := readFieldInto n (mkFslice 0 256).

(** [func (p *Parser) readByteField() byte] *)
Definition readByteField : M Z :=
  bytes <- readField 1 ;;
  e <- gets err ;;
  match e with
  | Some _ => ret 0
  | None => index bytes 0
  end.

(** [func (p *Parser) readWordField() uint16] *)
Definition readWordField : M Z :=
  bytes <- readField 2 ;;
  e <- gets err ;;
  match e with
  | Some _ => ret 0
  | None =>
      b0 <- index bytes 0 ;;
      b1 <- index bytes 1 ;;
      ret (Z.lor (Z.shiftl b0 8 mod 2 ^ 16) b1)
  end.

(** [var reclens = [...]byte{0, 0, 2, 4, 2, 4}] *)
Definition reclens : list Z := [0; 0; 2; 4; 2; 4].

(** [func (p *Parser) checkRecLen(rectyp, reclen byte)].  [reclens] is an
    array of six entries; indexing it elsewhere panics. *)
Definition checkRecLen (rectyp reclen : Z) : M unit :=
  e <- gets err ;;
  match e with
  | Some _ => ret tt
  | None =>
      if 0 <? rectyp then
        match nth_error reclens (Z.to_nat rectyp) with
        | None => panic index_out_of_range
        | Some expected =>
            if negb (reclen =? expected) then fail "invalid record length"
            else ret tt
        end
      else ret tt
  end.

(** [func (p *Parser) endRecord()] *)
Definition endRecord : M unit :=
  readFieldInto 1 (mkFslice 255 1) ;;;
  e <- gets err ;;
  match e with
  | Some _ => ret tt
  | None =>
      s <- gets sum ;;
      if negb (s =? 0) then fail "invalid checksum"
      else
        rest <- gets b ;;
        if (0 <? blen rest)%nat then fail "trailing data" else ret tt
  end.

Definition setBytes (v : fslice) (p : Parser) : Parser :=
  set_data (mkRec (Address (data p)) v) p.
Definition setAddress (v : Z) (p : Parser) : Parser :=
  set_data (mkRec v (Bytes (data p))) p.

(** The [case 0] arm of [parseInfo]. *)
Definition parseData (reclen offset : Z) : M unit :=
  bytes <- readField reclen ;;
  modify (setBytes bytes) ;;;
  modify (fun p =>
            if useSBA p then setAddress ((sba p + offset) mod 2 ^ 32) p
            else if useLBA p then setAddress (Z.lor (lba p) offset) p
            else setAddress offset p) ;;;
  lin <- gets useLBA ;;
  if negb lin then
    d <- gets data ;;
    let next := offset + Z.of_nat (size (Bytes d)) in
    let extra := (next - 1) - 0xffff in
    if 0 <? extra then
      modify (set_wrap (Some (mkRec 0 nilSlice))) ;;;
      modify (fun p =>
                set_wrap
                  (Some (mkRec
                           ((sba p + Z.land ((next - 1) mod 2 ^ 32) 0xffff)
                              mod 2 ^ 32)
                           nilSlice)) p) ;;;
      tail <- slice_from (Bytes d) extra ;;
      modify (fun p =>
                match wrap p with
                | Some w => set_wrap (Some (mkRec (Address w) tail)) p
                | None => p
                end) ;;;
      head <- slice_to (Bytes d) extra ;;
      modify (setBytes head)
    else ret tt
  else ret tt.

(** [func (p *Parser) parseInfo(rectyp, reclen byte, offset uint16) bool] *)
Definition parseInfo (rectyp reclen offset : Z) : M bool :=
  e <- gets err ;;
  match e with
  | Some _ => ret true
  | None =>
      gotData <-
        match rectyp with
        | 0 => parseData reclen offset ;;; ret true
        | 1 => modify (set_ended true) ;;; ret false
        | 2 =>
            w <- readWordField ;;
            modify (set_sba (Z.shiftl w 4 mod 2 ^ 32)) ;;;
            modify (set_useSBA true) ;;;
            modify (set_lba 0) ;;;
            modify (set_useLBA false) ;;;
            ret false
        | 3 =>
            w <- readWordField ;;
            modify (set_cs w) ;;;
            w' <- readWordField ;;
            modify (set_ip w') ;;;
            modify (set_hasCSIP true) ;;;
            ret false
        | 4 =>
            modify (set_sba 0) ;;;
            modify (set_useSBA false) ;;;
            w <- readWordField ;;
            modify (set_lba (Z.shiftl w 16 mod 2 ^ 32)) ;;;
            modify (set_useLBA true) ;;;
            ret false
        | 5 =>
            w <- readWordField ;;
            modify (set_eip w) ;;;
            modify (fun p => set_eip (Z.shiftl (eip p) 16 mod 2 ^ 32) p) ;;;
            w' <- readWordField ;;
            modify (fun p => set_eip (Z.lor (eip p) w') p) ;;;
            modify (set_hasEIP true) ;;;
            ret false
        | _ => ret false
        end ;;
      endRecord ;;;
      ret gotData
  end.

(** [func (p *Parser) scanLine() bool] *)
Definition scanLine : M bool :=
  fun p =>
    let '(ok, sc) := Scan (scanner p) in
    let p := set_scanner sc p in
    if negb ok then
      let p := set_err (option_map ScannerError (ioerr sc)) p in
      match err p with
      | Some _ => Ok false p
      | None =>
          if negb (ended p)
          then Ok false (set_err (Some (makeError "missing end record" p)) p)
          else Ok false p
      end
    else if ended p then
      Ok false (set_err (Some (makeError "record after end" p)) p)
    else Ok true (set_line (line p + 1) p).

(** How one pass through the body of [Parse] ends: with a [return], or
    with [goto NextRec]. *)
Inductive ctl : Type :=
| Return (r : bool)
| NextRec.

(** The end of [Parse], from [reclen := p.readByteField()] on: the fields
    of one record. *)
Definition parseFields : M ctl :=
  reclen <- readByteField ;;
  offset <- readWordField ;;
  rectyp <- readByteField ;;
  checkRecLen rectyp reclen ;;;
  gotData <- parseInfo rectyp reclen offset ;;
  if negb gotData then ret NextRec
  else
    e <- gets err ;;
    match e with
    | None => ret (Return true)
    | Some _ => ret (Return false)
    end.

(** The body of [Parse], from the label [NextRec] to the next jump or
    return. *)
Definition Parse_body : M ctl :=
  e <- gets err ;;
  match e with
  | Some _ => ret (Return false)
  | None =>
      w <- gets wrap ;;
      match w with
      | Some r =>
          modify (set_data r) ;;;
          modify (set_wrap None) ;;;
          ret (Return true)
      | None =>
          ok <- scanLine ;;
          if negb ok then ret (Return false)
          else
            bs <- gets (fun p => token (scanner p)) ;;
            match vis bs with
            | [] => ret NextRec
            | c :: rest =>
                if negb (Ascii.eqb c ":"%char) then
                  fail "missing record mark" ;;; ret (Return false)
                else
                  modify (set_b (mkBslice rest (slack bs))) ;;;
                  modify (set_sum 0) ;;;
                  parseFields
            end
      end
  end.

(** The jumps back to [NextRec], at most [fuel] of them. *)
Fixpoint Parse_loop (fuel : nat) (p : Parser) : outcome bool :=
  match fuel with
  | O => OutOfFuel
  | S fuel' =>
      match Parse_body p with
      | Ok (Return r) p' => Ok r p'
      | Ok NextRec p' => Parse_loop fuel' p'
      | Panic msg => Panic msg
      | OutOfFuel => OutOfFuel
      end
  end.

(** [func (p *Parser) Parse() bool].  Every jump to [NextRec] follows a
    line taken from the scanner, so one more pass than there are pending
    lines is enough. *)
Definition Parse : M bool :=
  fun p => Parse_loop (S (List.length (pending (scanner p)))) p.

(** [func (p *Parser) Data() Record], with the bytes its slice shows. *)
Definition Data (p : Parser) : Z * list Z :=
  (Address (data p), view (field p) (Bytes (data p))).

(** [func (p *Parser) Err() error] *)
Definition Err (p : Parser) : option error := err p.

(** [func (p *Parser) CSIP() (cs uint16, ip uint16, ok bool)] *)
Definition CSIP (p : Parser) : Z * Z * bool := (cs p, ip p, hasCSIP p).

(** [func (p *Parser) EIP() (eip uint32, ok bool)] *)
Definition EIP (p : Parser) : Z * bool := (eip p, hasEIP p).

(** [func NewParser(r io.Reader) *Parser]: every field but the scanner
    has its zero value.  The reader is given by the lines the scanner
    will cut from it and by the error it ends with. *)
Definition NewParser (lines : list bslice) (e : option string) : Parser :=
  mkParser (mkScanner lines emptyToken 0 e) (repeat 0 256) None 0 false 0
    false 0 0 false 0 false (mkRec 0 nilSlice) None emptyToken 0 0 false.

(** ** Small inputs, as the tests build them

    [NewParser(strings.NewReader(s))] for an input that fits the
    scanner's initial buffer of 4096 bytes: [bufio.ScanLines] cuts the
    lines at LF and drops one trailing CR; each line is a window on the
    buffer, followed there by the rest of the input and by the unused,
    zeroed part of the buffer. *)

Definition LF : ascii := "010"%char.
Definition CR : ascii := "013"%char.
Definition NUL : ascii := "000"%char.

Definition dropCR (ln following : list ascii) : bslice :=
  match rev ln with
  | c :: before =>
      if Ascii.eqb c CR then mkBslice (rev before) (CR :: following)
      else mkBslice ln following
  | [] => mkBslice ln following
  end.

Fixpoint ScanLines (acc input pad : list ascii) : list bslice :=
  match input with
  | [] =>
      match acc with
      | [] => []
      | _ :: _ => [dropCR (rev acc) pad]
      end
  | c :: input' =>
      if Ascii.eqb c LF
      then dropCR (rev acc) (c :: input' ++ pad) :: ScanLines [] input' pad
      else ScanLines (c :: acc) input' pad
  end.

Definition fromString (s : string) : Parser :=
  let input := list_ascii_of_string s in
  NewParser (ScanLines [] input (repeat NUL (4096 - List.length input))) None.

(** A line on its own, followed in the buffer by [following]. *)
Definition lineOf (s following : string) : bslice :=
  mkBslice (list_ascii_of_string s) (list_ascii_of_string following).

(** [n] successive calls of [Parse]; the records they deliver, then the
    parser they leave. *)
Fixpoint pulls (n : nat) (p : Parser) : outcome (list (Z * list Z)) :=
  match n with
  | O => Ok [] p
  | S n' =>
      match Parse p with
      | Ok true p' =>
          match pulls n' p' with
          | Ok rs p'' => Ok (Data p' :: rs) p''
          | Panic msg => Panic msg
          | OutOfFuel => OutOfFuel
          end
      | Ok false p' => Ok [] p'
      | Panic msg => Panic msg
      | OutOfFuel => OutOfFuel
      end
  end.

(** * Notions used in the statements *)

(** ** Values *)

Definition byte_range (x : Z) : Prop := 0 <= x < 256.

(** The big-endian value of two bytes, as [readWordField] builds it. *)
Definition word (hi lo : Z) : Z := hi * 256 + lo.

(** The sum of the bytes of a record. *)
Definition byteSum (bs : list Z) : Z := fold_right Z.add 0 bs.

(** ** Calls *)

(** A relation between the parser before and after a call that holds
    whenever the call returns. *)
Definition preserves (R : Parser -> Parser -> Prop) {A : Type} (m : M A)
  : Prop :=
  forall p a p', m p = Ok a p' -> R p p'.

(** A call that never runs out of fuel, which only the loop of [Parse]
    could do. *)
Definition fuelless {A : Type} (m : M A) : Prop := forall p, m p <> OutOfFuel.

(** The error that only [scanLine] raises. *)
Definition after_end (e : option error) : Prop :=
  exists n, e = Some (ParseError n "record after end").

(** Reading a record never touches the scanner, the line counter or the
    size of the scratch array, and raises no "record after end". *)
Definition steady (p p' : Parser) : Prop :=
  scanner p' = scanner p /\ line p' = line p /\
  List.length (field p') = List.length (field p) /\
  (err p' = err p \/ ~ after_end (err p')).

(** The field readers do not touch the base modes and the bases. *)
Definition same_modes (p p' : Parser) : Prop :=
  useSBA p' = useSBA p /\ useLBA p' = useLBA p /\
  sba p' = sba p /\ lba p' = lba p.

(** ** Parsers *)

(** The parsers that exist between two calls: a new one, and what a call
    of [Parse] that returned has left. *)
Inductive reachable : Parser -> Prop :=
| reach_new (lines : list bslice) (e : option string) :
    reachable (NewParser lines e)
| reach_Parse (p p' : Parser) (r : bool) :
    reachable p -> Parse p = Ok r p' -> reachable p'.

(** The scratch array has its 256 entries. *)
Definition wf (p : Parser) : Prop := List.length (field p) = 256%nat.

(** At most one base mode is on. *)
Definition exclusive (p : Parser) : Prop := useSBA p && useLBA p = false.

(** The line counter follows the scanner, except that the line which
    raises "record after end" is taken but not counted. *)
Definition counts_lines (p : Parser) : Prop :=
  (after_end (err p) ->
   err p = Some (ParseError (line p) "record after end") /\
   delivered (scanner p) = line p + 1) /\
  (~ after_end (err p) -> delivered (scanner p) = line p).

(** A parser about to read the line [ln]: no error, no pending record, no
    end record so far. *)
Definition ready (p : Parser) (ln : bslice) (rest : list bslice) : Prop :=
  err p = None /\ wrap p = None /\ ended p = false /\ wf p /\
  pending (scanner p) = ln :: rest.

(** ** Records as text *)

(** The text of a line: the record mark, the hexadecimal digits of the
    bytes [reclen], offset (high, low), [rectyp], payload and checksum,
    and whatever follows them on the line. *)
Definition record_text (text : list ascii) (reclen oh ol rectyp : Z)
    (payload : list Z) (cc : Z) (trailing : list ascii) : Prop :=
  exists body,
    text = ":"%char :: body ++ trailing /\
    hexDecode body = (reclen :: oh :: ol :: rectyp :: payload ++ [cc], None).

(** All the bytes of a record, checksum included. *)
Definition record_bytes (reclen oh ol rectyp : Z) (payload : list Z) (cc : Z)
  : list Z :=
  reclen :: oh :: ol :: rectyp :: payload ++ [cc].

(** The declared length is the length of the payload, it is one the
    parser can read (the byte arithmetic of [readFieldInto] stops at 127),
    and it is the one [reclens] asks for. *)
Definition record_shape (reclen rectyp : Z) (payload : list Z) : Prop :=
  reclen = Z.of_nat (List.length payload) /\ reclen < 128 /\
  (rectyp = 0 \/
   0 < rectyp /\ nth_error reclens (Z.to_nat rectyp) = Some reclen).


(** While a record is being read without error, what has been taken from
    the line [body] decodes, and [p.sum] is the checksum of the bytes
    decoded. *)
Definition read_so_far (body : list ascii) (p : Parser) : Prop :=
  err p = None ->
  exists s1 bs,
    body = s1 ++ vis (b p) /\ hexDecode s1 = (bs, None) /\
    sum p = addBytes bs 0.

Definition reading (body : list ascii) (p p' : Parser) : Prop :=
  wf p /\ read_so_far body p -> wf p' /\ read_so_far body p'.

(** ** The effect of a record whose fields are all there *)

(** What a successful read changes: the scratch array, the rest of the
    line and the running checksum. *)
Definition consumed (fld : list Z) (rest : list ascii) (s : Z) (p : Parser)
  : Parser :=
  set_sum s (set_b (mkBslice rest (slack (b p))) (set_field fld p)).

(** What [endRecord] leaves when the checksum byte [cc] is there,
    followed by [trailing]. *)
Definition closing (cc : Z) (trailing : list ascii) (p : Parser) : Parser :=
  let s := (sum p + cc) mod 256 in
  let q := consumed (write_at 255 [cc] (field p)) trailing s p in
  if negb (s =? 0) then
    set_err (Some (ParseError (line p) "invalid checksum")) q
  else if (0 <? List.length trailing)%nat then
    set_err (Some (ParseError (line p) "trailing data")) q
  else q.

(** What [endRecord] decides, in terms of the bytes of the record. *)
Definition verdict (ln : Z) (bytes : list Z) (trailing : list ascii)
  : option error :=
  if negb (byteSum bytes mod 256 =? 0)
  then Some (ParseError ln "invalid checksum")
  else if (0 <? List.length trailing)%nat
       then Some (ParseError ln "trailing data")
       else None.

(** The address [parseInfo] gives a data record at [offset]. *)
Definition dataAddress (p : Parser) (offset : Z) : Z :=
  if useSBA p then (sba p + offset) mod 2 ^ 32
  else if useLBA p then Z.lor (lba p) offset
  else offset.

(** The number of payload bytes beyond the 16-bit boundary, [extra] in
    [parseInfo]. *)
Definition overflow (offset : Z) (payload : list Z) : Z :=
  offset + Z.of_nat (List.length payload) - 1 - 0xffff.

(** What the wrap-around test of [parseInfo] makes of a data record of
    [n] bytes at [offset], once address and bytes are set. *)
Definition split_record (offset : Z) (n : nat) (q : Parser) : Parser :=
  let next := offset + Z.of_nat n in
  let extra := next - 1 - 0xffff in
  if negb (useLBA q) && (0 <? extra) then
    setBytes (mkFslice 0 (Z.to_nat extra))
      (set_wrap
         (Some (mkRec
                  ((sba q + Z.land ((next - 1) mod 2 ^ 32) 0xffff) mod 2 ^ 32)
                  (mkFslice (Z.to_nat extra) (n - Z.to_nat extra)))) q)
  else q.

(** What a record of each type does to the parser [p], giving [p']: the
    address and bytes of the current record (and the pending record when
    the data crosses the boundary outside linear-base mode), the end
    flag, the base mode, CS:IP, EIP. *)
Definition record_effect (rectyp offset : Z) (payload : list Z)
    (p p' : Parser) : Prop :=
  match rectyp, payload with
  | 0, _ =>
      Address (data p') = dataAddress p offset /\
      if negb (useLBA p) && (0 <? overflow offset payload) then
        snd (Data p') = firstn (Z.to_nat (overflow offset payload)) payload /\
        exists w,
          wrap p' = Some w /\
          Address w
          = (sba p
             + Z.land ((offset + Z.of_nat (List.length payload) - 1)
                         mod 2 ^ 32) 0xffff) mod 2 ^ 32 /\
          view (field p') (Bytes w)
          = skipn (Z.to_nat (overflow offset payload)) payload
      else snd (Data p') = payload /\ wrap p' = None
  | 1, _ => ended p' = true
  | 2, [hi; lo] =>
      useSBA p' = true /\ sba p' = word hi lo * 16 /\
      useLBA p' = false /\ lba p' = 0
  | 3, [a1; a2; b1; b2] => CSIP p' = (word a1 a2, word b1 b2, true)
  | 4, [hi; lo] =>
      useLBA p' = true /\ lba p' = word hi lo * 65536 /\
      useSBA p' = false /\ sba p' = 0
  | 5, [a1; a2; b1; b2] =>
      EIP p' = (word a1 a2 * 65536 + word b1 b2, true)
  | _, _ => False
  end.

(** ** Sample inputs *)

Definition nl : string := String LF EmptyString.

(** The parser left by the first call of [Parse] on a small input. *)
Definition afterParse (input : string) : Parser :=
  match Parse (fromString input) with
  | Ok _ q => q
  | _ => fromString input
  end.

(** The parser left by [parseInfo]. *)
Definition afterParseInfo (rectyp reclen offset : Z) (p : Parser) : Parser :=
  match parseInfo rectyp reclen offset p with
  | Ok _ q => q
  | _ => p
  end.

(** The input of [ExampleParser]. *)
Definition exampleInput : string :=
  nl ++ ":1000000000E10EBFEFE531E001E011E0010F40E05B" ++ nl
     ++ ":1000100052E00E94710432E000E111EF010F41E073" ++ nl
     ++ ":00000001FF" ++ nl.

Definition dataPayload : list Z :=
  [0x61; 0x64; 0x64; 0x72; 0x65; 0x73; 0x73; 0x20; 0x67; 0x61; 0x70].
Definition badSegmentLine : bslice := lineOf ":020000021200EB" "".

(** A parser that has failed on a wrong checksum. *)
Definition afterBadChecksum : Parser := afterParse ":00000001FE".

(** A parser that has seen the end record and has a blank line to come. *)
Definition endedParser : Parser :=
  set_ended true (set_line 1 (NewParser [lineOf "" ""] None)).

(** The parser of [TestEnd] after its only call that does work. *)
Definition afterTestEnd : Parser :=
  afterParse (":00000001FF" ++ nl ++ ":020000021200EA").

(** A parser in segment-base mode that has just handed out a record. *)
Definition afterSegmentData : Parser :=
  afterParse (":02000004FFFFFC" ++ nl ++ ":020000021200EA" ++ nl
              ++ ":0100100041AE" ++ nl).


(** Parsers about to read the payload and checksum of a type-2 and of a
    type-4 record whose first four bytes have been read. *)
Definition atSegmentPayload : Parser :=
  set_sum 4 (set_b (lineOf "1200EA" "") (NewParser [] None)).

Definition atLinearPayload : Parser :=
  set_sum 6 (set_b (lineOf "FFFFFC" "") (NewParser [] None)).

(** ** Further sample parsers *)

(** A parser about to read a line without a record mark. *)
Definition beforeUnmarked : Parser := NewParser [lineOf "00000001FF" ""] None.

(** A parser about to read a blank line and an end record. *)
Definition beforeBlank : Parser :=
  NewParser [lineOf "" ""; lineOf ":00000001FF" ""] None.

(** A parser that has read the end record of [exampleInput]. *)
Definition afterExample : Parser :=
  match pulls 3 (fromString exampleInput) with
  | Ok _ q => q
  | _ => fromString exampleInput
  end.

(** The parser left by [n] calls of [Parse] on a small input. *)
Definition afterPulls (n : nat) (input : string) : Parser :=
  match pulls n (fromString input) with
  | Ok _ q => q
  | _ => fromString input
  end.

(** A parser about to read the two data records of [exampleInput]. *)
Definition beforeExample : Parser := fromString exampleInput.

(** The parser left by [readFieldInto]. *)
Definition afterReadFieldInto (n : Z) (dst : fslice) (p : Parser) : Parser :=
  match readFieldInto n dst p with
  | Ok _ q => q
  | _ => p
  end.

(** An end record that declares one byte of data. *)
Definition longEndLine : bslice := lineOf ":0100000100FE" "".

(** The record of [TestSegWrap] that crosses the end of the segment, and a
    parser in segment-base mode about to read it. *)
Definition wrapLine : bslice := lineOf ":03FFFF00010203F9" "".

Definition beforeWrap : Parser :=
  set_sba 0x12000 (set_useSBA true (NewParser [wrapLine] None)).

(** A record of a type that [reclens] does not know. *)
Definition unknownTypeLine : bslice := lineOf ":0000000AF6" "".

(** A parser about to read a type-3 record and an end record, and one
    about to read an end record as its last line. *)
Definition beforeStartAddress : Parser :=
  NewParser [lineOf ":0400000312345678E5" ""; lineOf ":00000001FF" ""] None.


(** A data record that lacks its checksum, the parser about to read it
    and the line as the scanner hands it out. *)
Definition cutShortInput : string := ":0B0010006164647265737320676170".

Definition beforeCutShort : Parser := fromString cutShortInput.

Definition cutShortLine : bslice :=
  hd emptyToken (pending (scanner beforeCutShort)).

(** ** Further notions *)

(** A call keeps the line counter, and a [ParseError] it records carries
    that line. *)
Definition errs_at_line (p p' : Parser) : Prop :=
  line p' = line p /\
  forall n msg,
    err p' = Some (ParseError n msg) ->
    err p = Some (ParseError n msg) \/ n = line p.

(** The recorded [ParseError], if any, carries the current line count. *)
Definition error_line (p : Parser) : Prop :=
  forall n msg, err p = Some (ParseError n msg) -> n = line p.

(** What the records of type 1 to 5 set. *)
Definition registers (p : Parser)
  : bool * bool * Z * Z * (Z * Z * bool) * (Z * bool) * bool :=
  (useSBA p, useLBA p, sba p, lba p, CSIP p, EIP p, ended p).

Definition same_registers (p p' : Parser) : Prop :=
  registers p' = registers p.

(** A base that is off is zero, as [parseInfo] relies on ("p.sba == 0 if
    useSBA is false"); start addresses are zero until a record sets
    them. *)
Definition unset_is_zero (p : Parser) : Prop :=
  (useSBA p = false -> sba p = 0) /\ (useLBA p = false -> lba p = 0) /\
  (hasCSIP p = false -> cs p = 0 /\ ip p = 0) /\
  (hasEIP p = false -> eip p = 0).

(** The bases are what a 16-bit word shifted by 4 or by 16 can be, and
    the start addresses fit their types. *)
Definition registers_in_range (p : Parser) : Prop :=
  (0 <= sba p <= 0xFFFF0 /\ sba p mod 16 = 0) /\
  (0 <= lba p <= 0xFFFF0000 /\ lba p mod 65536 = 0) /\
  (0 <= cs p < 65536 /\ 0 <= ip p < 65536) /\ 0 <= eip p < 2 ^ 32.

(** The field readers and the records of type 1 to 5 do not touch the
    current and the pending record. *)
Definition same_records (p p' : Parser) : Prop :=
  data p' = data p /\ wrap p' = wrap p.

(** What a parser never takes back: the flags of the start addresses,
    the end flag, and lines counted. *)
Definition flags_kept (p p' : Parser) : Prop :=
  (hasCSIP p = true -> hasCSIP p' = true) /\
  (hasEIP p = true -> hasEIP p' = true) /\
  (ended p = true -> ended p' = true) /\ line p <= line p'.

(** While a record is read, an error is never cleared. *)
Definition no_clear (p p' : Parser) : Prop := err p' = None -> err p = None.

(** ** What follows a line in the buffer *)

(** A line followed in the scanner's buffer by at least 255 bytes, the
    first of which is not a hexadecimal digit: its terminator, or the
    unused part of the buffer. *)
Definition roomy (ln : bslice) : bool :=
  (255 <=? List.length (slack ln))%nat &&
  match slack ln with
  | c :: _ =>
      match fromHexChar c with
      | None => true
      | Some _ => false
      end
  | [] => false
  end.

(** Reading a record does not move the end of the line. *)
Definition same_slack (p p' : Parser) : Prop := slack (b p') = slack (b p).

(** A line that carries a record of a type above 5. *)
Definition unknown_type (ln : bslice) : Prop :=
  exists header tail reclen oh ol rectyp,
    vis ln = ":"%char :: header ++ tail /\
    hexDecode header = ([reclen; oh; ol; rectyp], None) /\ 5 < rectyp.

(** ** The errors a parser reports *)

(** The messages of the package. *)
Definition messages : list string :=
  ["missing record mark"; "missing end record"; "record after end";
   "invalid record length"; "invalid checksum"; "trailing data";
   "record too short"]%string.

(** An error of the reader, or a [ParseError] with one of these
    messages. *)
Definition known_error (e : option error) : Prop :=
  match e with
  | None => True
  | Some (ScannerError _) => True
  | Some (ParseError _ msg) => In msg messages
  | Some _ => False
  end.

Definition errors_known (p p' : Parser) : Prop :=
  known_error (err p) -> known_error (err p').

(** ** Whole records *)

(** A line that is one whole record and nothing else: the record mark,
    the digits of a record of type 0 to 5 of the right length, and a
    checksum that makes the bytes sum to 0 mod 256. *)
Definition complete_record (ln : bslice) : Prop :=
  exists reclen oh ol rectyp payload cc,
    record_text (vis ln) reclen oh ol rectyp payload cc [] /\
    record_shape reclen rectyp payload /\
    byteSum (record_bytes reclen oh ol rectyp payload cc) mod 256 = 0.

(** * Properties of the embedding *)

(** ** Arithmetic on fixed-width values *)

Lemma lor_shiftl_add (hi lo n : Z) :
  0 <= n -> 0 <= lo < 2 ^ n -> Z.lor (Z.shiftl hi n) lo = hi * 2 ^ n + lo.
Proof.
  intros Hn Hlo.
  rewrite <- Z.shiftl_mul_pow2 by assumption.
  assert (Hland : Z.land (Z.shiftl hi n) lo = 0).
  { apply Z.bits_inj'. intros i Hi.
    rewrite Z.land_spec, Z.bits_0.
    destruct (Z_lt_ge_dec i n) as [Hlt | Hge].
    - rewrite Z.shiftl_spec_low by assumption. reflexivity.
    - destruct (Z.eq_dec lo 0) as [-> | Hnz].
      + rewrite Z.bits_0. apply andb_false_r.
      + rewrite (Z.bits_above_log2 lo i); [apply andb_false_r | lia |].
        apply Z.log2_lt_pow2; [lia |].
        pose proof (Z.pow_le_mono_r 2 n i). lia. }
  pose proof (Z.add_lor_land (Z.shiftl hi n) lo) as Hadd.
  rewrite Hland in Hadd. lia.
Qed.

Lemma fromHexChar_range (c : ascii) (v : Z) :
  fromHexChar c = Some v -> 0 <= v < 16.
Proof.
  unfold fromHexChar. cbv zeta. intros H.
  repeat match type of H with
         | (if ?c then _ else _) = _ =>
             let E := fresh "E" in
             destruct c eqn:E;
             [apply andb_prop in E as [?%Z.leb_le ?%Z.leb_le] | clear E]
         end; inversion H; subst; lia.
Qed.

Lemma hex_pair_range (hi lo : Z) :
  0 <= hi < 16 -> 0 <= lo < 16 -> byte_range (Z.lor (Z.shiftl hi 4) lo).
Proof.
  intros Hhi Hlo. unfold byte_range.
  rewrite (lor_shiftl_add hi lo 4) by lia. change (2 ^ 4) with 16. lia.
Qed.

Lemma word_lor (hi lo : Z) :
  byte_range hi -> byte_range lo ->
  Z.lor (Z.shiftl hi 8 mod 2 ^ 16) lo = word hi lo.
Proof.
  unfold byte_range, word. intros Hhi Hlo.
  rewrite Z.shiftl_mul_pow2 by lia.
  rewrite Z.mod_small by (change (2 ^ 8) with 256; change (2 ^ 16) with 65536; lia).
  rewrite <- Z.shiftl_mul_pow2 by lia.
  rewrite (lor_shiftl_add hi lo 8) by (change (2 ^ 8) with 256; lia).
  reflexivity.
Qed.

Lemma word_range (hi lo : Z) :
  byte_range hi -> byte_range lo -> 0 <= word hi lo < 65536.
Proof. unfold byte_range, word. lia. Qed.

(** ** Windows on the scratch array *)

Lemma write_at_length (fld : list Z) :
  forall k bs, List.length (write_at k bs fld) = List.length fld.
Proof.
  induction fld as [| y fld IH]; intros k bs.
  - destruct k, bs; reflexivity.
  - destruct k as [| k].
    + destruct bs as [| x bs]; simpl; [reflexivity |].
      rewrite IH. reflexivity.
    + simpl. rewrite IH. reflexivity.
Qed.

Lemma view_write_at (fld : list Z) :
  forall k bs,
    (k + List.length bs <= List.length fld)%nat ->
    view (write_at k bs fld) (mkFslice k (List.length bs)) = bs.
Proof.
  unfold view. simpl.
  induction fld as [| y fld IH]; intros k bs Hle.
  - destruct k, bs; simpl in *; try reflexivity; lia.
  - destruct k as [| k].
    + destruct bs as [| x bs]; simpl; [reflexivity |].
      simpl in Hle. f_equal. apply (IH O bs). simpl. lia.
    + simpl. apply IH. simpl in Hle. lia.
Qed.

(** A write does not disturb a window that ends before it starts. *)
Lemma view_write_at_below (fld : list Z) :
  forall k bs k' n',
    (k' + n' <= k)%nat ->
    view (write_at k bs fld) (mkFslice k' n') = view fld (mkFslice k' n').
Proof.
  unfold view. simpl.
  induction fld as [| y fld IH]; intros k bs k' n' Hle.
  - destruct k, bs; reflexivity.
  - destruct k as [| k].
    + assert (k' = O) by lia. assert (n' = O) by lia. subst. reflexivity.
    + destruct k' as [| k'].
      * simpl. destruct n' as [| n']; [reflexivity |].
        simpl. f_equal. apply (IH k bs O n'). lia.
      * simpl. apply IH. lia.
Qed.

Lemma nth_view (fld : list Z) (s : fslice) (i : nat) (d : Z) :
  (i < size s)%nat -> nth (base s + i) fld d = nth i (view fld s) d.
Proof.
  intros Hi. unfold view.
  rewrite nth_firstn.
  apply Nat.ltb_lt in Hi. rewrite Hi.
  rewrite nth_skipn. reflexivity.
Qed.

(** ** Checksums *)

Lemma addBytes_app (bs1 bs2 : list Z) (s : Z) :
  addBytes (bs1 ++ bs2) s = addBytes bs2 (addBytes bs1 s).
Proof. unfold addBytes. apply fold_left_app. Qed.

Lemma addBytes_sum (bs : list Z) :
  forall s, addBytes bs (s mod 256) = (s + byteSum bs) mod 256.
Proof.
  induction bs as [| x bs IH]; intros s; simpl.
  - f_equal. lia.
  - unfold addBytes in *. simpl. rewrite IH.
    rewrite <- Z.add_assoc, Zplus_mod_idemp_l. reflexivity.
Qed.

Lemma addBytes_zero (bs : list Z) : addBytes bs 0 = byteSum bs mod 256.
Proof. apply (addBytes_sum bs 0). Qed.

Lemma byteSum_app (bs1 bs2 : list Z) :
  byteSum (bs1 ++ bs2) = byteSum bs1 + byteSum bs2.
Proof.
  unfold byteSum. induction bs1 as [| x bs1 IH]; simpl; [reflexivity | lia].
Qed.

(** ** hex.Decode *)

Lemma pair_induction (A : Type) (P : list A -> Prop) :
  P [] -> (forall c, P [c]) ->
  (forall c1 c2 l, P l -> P (c1 :: c2 :: l)) ->
  forall l, P l.
Proof.
  intros H0 H1 H2 l.
  enough (P l /\ forall c, P (c :: l)) by tauto.
  induction l as [| c l [IH1 IH2]]; split; auto.
Qed.

Lemma hexDecode_cons2 (c1 c2 : ascii) (rest : list ascii) :
  hexDecode (c1 :: c2 :: rest) =
  match fromHexChar c1, fromHexChar c2 with
  | None, _ => ([], Some (InvalidByteError c1))
  | Some _, None => ([], Some (InvalidByteError c2))
  | Some hi, Some lo =>
      let '(bs, e) := hexDecode rest in (Z.lor (Z.shiftl hi 4) lo :: bs, e)
  end.
Proof. reflexivity. Qed.

Lemma hexDecode_range (src : list ascii) :
  forall bs e, hexDecode src = (bs, e) -> Forall byte_range bs.
Proof.
  induction src as [| c | c1 c2 rest IH] using pair_induction; intros bs e H.
  - inversion H. constructor.
  - simpl in H. destruct (fromHexChar c); inversion H; constructor.
  - rewrite hexDecode_cons2 in H.
    destruct (fromHexChar c1) as [hi |] eqn:E1;
      [| inversion H; constructor].
    destruct (fromHexChar c2) as [lo |] eqn:E2;
      [| inversion H; constructor].
    destruct (hexDecode rest) as [bs' e'] eqn:Er. inversion H; subst.
    constructor.
    + apply hex_pair_range; eapply fromHexChar_range; eassumption.
    + eapply IH. reflexivity.
Qed.

(** A decoding that succeeds has consumed two characters per byte. *)
Lemma hexDecode_ok_length (src : list ascii) :
  forall bs, hexDecode src = (bs, None) ->
             List.length src = (2 * List.length bs)%nat.
Proof.
  induction src as [| c | c1 c2 rest IH] using pair_induction; intros bs H.
  - inversion H. reflexivity.
  - simpl in H. destruct (fromHexChar c); inversion H.
  - rewrite hexDecode_cons2 in H.
    destruct (fromHexChar c1); [| inversion H].
    destruct (fromHexChar c2); [| inversion H].
    destruct (hexDecode rest) as [bs' e'] eqn:Er. inversion H; subst.
    simpl. rewrite (IH _ eq_refl). lia.
Qed.

Lemma hexDecode_length_le (src : list ascii) :
  forall bs e, hexDecode src = (bs, e) ->
               (2 * List.length bs <= List.length src)%nat.
Proof.
  induction src as [| c | c1 c2 rest IH] using pair_induction; intros bs e H.
  - inversion H. simpl. lia.
  - simpl in H. destruct (fromHexChar c); inversion H; simpl; lia.
  - rewrite hexDecode_cons2 in H.
    destruct (fromHexChar c1); [| inversion H; simpl; lia].
    destruct (fromHexChar c2); [| inversion H; simpl; lia].
    destruct (hexDecode rest) as [bs' e'] eqn:Er. inversion H; subst.
    specialize (IH _ _ eq_refl). simpl. lia.
Qed.

(** Decoding a concatenation whose first part decodes. *)
Lemma hexDecode_app (s1 : list ascii) :
  forall bs1 s2,
    hexDecode s1 = (bs1, None) ->
    hexDecode (s1 ++ s2) =
    let '(bs2, e) := hexDecode s2 in (bs1 ++ bs2, e).
Proof.
  induction s1 as [| c | c1 c2 rest IH] using pair_induction; intros bs1 s2 H.
  - inversion H. simpl. destruct (hexDecode s2). reflexivity.
  - simpl in H. destruct (fromHexChar c); inversion H.
  - rewrite hexDecode_cons2 in H.
    change ((c1 :: c2 :: rest) ++ s2) with (c1 :: c2 :: (rest ++ s2)).
    rewrite hexDecode_cons2.
    destruct (fromHexChar c1); [| inversion H].
    destruct (fromHexChar c2); [| inversion H].
    destruct (hexDecode rest) as [bs' e'] eqn:Er. inversion H; subst.
    rewrite (IH _ s2 eq_refl).
    destruct (hexDecode s2). reflexivity.
Qed.

(** A successful decoding splits wherever its output is split. *)
Lemma hexDecode_split (s : list ascii) :
  forall bs1 bs2,
    hexDecode s = (bs1 ++ bs2, None) ->
    exists s1 s2,
      s = s1 ++ s2 /\ hexDecode s1 = (bs1, None) /\
      hexDecode s2 = (bs2, None).
Proof.
  induction s as [| c | c1 c2 rest IH] using pair_induction; intros bs1 bs2 H.
  - inversion H as [Happ]. symmetry in Happ.
    apply app_eq_nil in Happ as [-> ->].
    exists [], []. auto.
  - simpl in H. destruct (fromHexChar c); inversion H.
  - destruct bs1 as [| x bs1].
    + exists [], (c1 :: c2 :: rest). auto.
    + rewrite hexDecode_cons2 in H.
      destruct (fromHexChar c1) as [hi |] eqn:E1; [| inversion H].
      destruct (fromHexChar c2) as [lo |] eqn:E2; [| inversion H].
      destruct (hexDecode rest) as [bs' e'] eqn:Er. inversion H; subst.
      destruct (IH bs1 bs2 eq_refl) as (s1 & s2 & -> & Hs1 & Hs2).
      exists (c1 :: c2 :: s1), s2. repeat split; [| assumption].
      rewrite hexDecode_cons2, E1, E2, Hs1. reflexivity.
Qed.

(** ** Reasoning about monadic code *)

Lemma bind_Ok (A B : Type) (m : M A) (k : A -> M B) (p p' : Parser) (r : B) :
  bind m k p = Ok r p' -> exists a q, m p = Ok a q /\ k a q = Ok r p'.
Proof.
  unfold bind. destruct (m p) as [a q | msg |]; intros H; try discriminate.
  exists a, q. auto.
Qed.

Lemma bind_step (A B : Type) (m : M A) (k : A -> M B) (p q : Parser) (a : A) :
  m p = Ok a q -> bind m k p = k a q.
Proof. unfold bind. intros ->. reflexivity. Qed.

(** A relation between the parser before and after a call that holds
    whenever the call returns.  For a preorder it passes through
    sequencing, so it is enough to check the primitive steps. *)
Section Preservation.
Context (R : Parser -> Parser -> Prop) {HR : RelationClasses.PreOrder R}.

Lemma preserves_ret (A : Type) (a : A) : preserves R (ret a).
Proof. intros p a' p' H. inversion H; subst. reflexivity. Qed.

Lemma preserves_gets (A : Type) (f : Parser -> A) : preserves R (gets f).
Proof. intros p a' p' H. inversion H; subst. reflexivity. Qed.

Lemma preserves_panic (A : Type) (msg : string) : preserves R (@panic A msg).
Proof. intros p a' p' H. inversion H. Qed.

Lemma preserves_modify (f : Parser -> Parser) :
  (forall p, R p (f p)) -> preserves R (modify f).
Proof. intros Hf p a' p' H. inversion H; subst. apply Hf. Qed.

Lemma preserves_bind (A B : Type) (m : M A) (k : A -> M B) :
  preserves R m -> (forall a, preserves R (k a)) -> preserves R (bind m k).
Proof.
  intros Hm Hk p r p' H.
  apply bind_Ok in H as (a & q & H1 & H2).
  etransitivity; [eapply Hm | eapply Hk]; eassumption.
Qed.
End Preservation.

Lemma fuelless_ret (A : Type) (a : A) : fuelless (ret a).
Proof. intros p H. discriminate. Qed.

Lemma fuelless_gets (A : Type) (f : Parser -> A) : fuelless (gets f).
Proof. intros p H. discriminate. Qed.

Lemma fuelless_modify (f : Parser -> Parser) : fuelless (modify f).
Proof. intros p H. discriminate. Qed.

Lemma fuelless_panic (A : Type) (msg : string) : fuelless (@panic A msg).
Proof. intros p H. discriminate. Qed.

Lemma fuelless_bind (A B : Type) (m : M A) (k : A -> M B) :
  fuelless m -> (forall a, fuelless (k a)) -> fuelless (bind m k).
Proof.
  intros Hm Hk p. unfold bind.
  destruct (m p) as [a q | msg |] eqn:E; [apply Hk | discriminate |].
  exfalso. exact (Hm p E).
Qed.

(** Walk through a definition written with [bind]: a call of a method
    already dealt with is closed from the hint database, everything else
    is taken apart. *)
Create HintDb fuelless_db.

Ltac monadic_step known lret lgets lpanic lbind :=
  first
    [ solve [known]
    | apply lret
    | apply lgets
    | apply lpanic
    | apply lbind; [| intros ?]
    | progress cbv zeta
    | match goal with
      | |- _ (match ?x with _ => _ end) => destruct x
      end ].

Ltac fuelless_walk :=
  repeat monadic_step ltac:(auto with fuelless_db nocore)
    fuelless_ret fuelless_gets fuelless_panic fuelless_bind.

Lemma fuelless_readFieldInto (n : Z) (dst : fslice) :
  fuelless (readFieldInto n dst).
Proof.
  intros p. unfold readFieldInto.
  repeat match goal with
         | |- match ?x with _ => _ end <> _ => destruct x
         end; discriminate.
Qed.

Lemma fuelless_index (s : fslice) (i : nat) : fuelless (index s i).
Proof. intros p. unfold index. destruct (i <? size s)%nat; discriminate. Qed.

Lemma fuelless_readField (n : Z) : fuelless (readField n).
Proof. apply fuelless_readFieldInto. Qed.

#[local] Hint Resolve fuelless_modify fuelless_readFieldInto fuelless_index
  fuelless_readField : fuelless_db.

Lemma fuelless_readByteField : fuelless readByteField.
Proof. unfold readByteField. fuelless_walk. Qed.

Lemma fuelless_readWordField : fuelless readWordField.
Proof. unfold readWordField. fuelless_walk. Qed.

Lemma fuelless_fail (msg : string) : fuelless (fail msg).
Proof. apply fuelless_modify. Qed.

#[local] Hint Resolve fuelless_readByteField fuelless_readWordField
  fuelless_fail : fuelless_db.

Lemma fuelless_checkRecLen (rectyp reclen : Z) :
  fuelless (checkRecLen rectyp reclen).
Proof. unfold checkRecLen. fuelless_walk. Qed.

Lemma fuelless_endRecord : fuelless endRecord.
Proof. unfold endRecord. fuelless_walk. Qed.

Lemma fuelless_slice_from (s : fslice) (k : Z) : fuelless (slice_from s k).
Proof. unfold slice_from. fuelless_walk. Qed.

Lemma fuelless_slice_to (s : fslice) (k : Z) : fuelless (slice_to s k).
Proof. unfold slice_to. fuelless_walk. Qed.

#[local] Hint Resolve fuelless_checkRecLen fuelless_endRecord
  fuelless_slice_from fuelless_slice_to : fuelless_db.

Lemma fuelless_parseData (reclen offset : Z) :
  fuelless (parseData reclen offset).
Proof. unfold parseData. fuelless_walk. Qed.

#[local] Hint Resolve fuelless_parseData : fuelless_db.

Lemma fuelless_parseInfo (rectyp reclen offset : Z) :
  fuelless (parseInfo rectyp reclen offset).
Proof. unfold parseInfo. fuelless_walk. Qed.

Lemma fuelless_scanLine : fuelless scanLine.
Proof.
  intros p. unfold scanLine.
  repeat match goal with
         | |- match ?x with _ => _ end <> _ => destruct x
         end; discriminate.
Qed.

#[local] Hint Resolve fuelless_parseInfo fuelless_scanLine : fuelless_db.

Lemma fuelless_parseFields : fuelless parseFields.
Proof. unfold parseFields. fuelless_walk. Qed.

#[local] Hint Resolve fuelless_parseFields : fuelless_db.

Lemma fuelless_Parse_body : fuelless Parse_body.
Proof. unfold Parse_body. fuelless_walk. Qed.

(** ** What the field readers leave alone *)

Lemma hexDecode_error_kind (src : list ascii) :
  forall bs e,
    hexDecode src = (bs, Some e) ->
    e = ErrLength \/ exists c, e = InvalidByteError c.
Proof.
  induction src as [| c | c1 c2 rest IH] using pair_induction; intros bs e H.
  - inversion H.
  - simpl in H. destruct (fromHexChar c); inversion H; eauto.
  - rewrite hexDecode_cons2 in H.
    destruct (fromHexChar c1); [| inversion H; eauto].
    destruct (fromHexChar c2); [| inversion H; eauto].
    destruct (hexDecode rest) as [bs' e'] eqn:Er. inversion H; subst.
    eapply IH. reflexivity.
Qed.

#[local] Instance steady_preorder : RelationClasses.PreOrder steady.
Proof.
  split.
  - intros p. unfold steady. auto.
  - intros p q r (Hs1 & Hl1 & Hf1 & He1) (Hs2 & Hl2 & Hf2 & He2).
    unfold steady. repeat split; try congruence.
    destruct He2 as [He2 | He2]; [| auto].
    destruct He1 as [He1 | He1]; [left; congruence |].
    right. rewrite He2. assumption.
Qed.

#[local] Instance same_modes_preorder : RelationClasses.PreOrder same_modes.
Proof.
  split.
  - intros p. unfold same_modes. auto.
  - intros p q r (H1 & H2 & H3 & H4) (H5 & H6 & H7 & H8).
    unfold same_modes. repeat split; congruence.
Qed.

Create HintDb steady_db.
Create HintDb modes_db.

Ltac not_after_end :=
  right; intros [? Habs]; simpl in Habs; discriminate.

Ltac steady_update :=
  intros; unfold steady, fail, setBytes, setAddress; simpl;
  repeat match goal with
         | |- context [match ?c with _ => _ end] => destruct c eqn:?
         end; simpl;
  repeat split; auto; not_after_end.

Ltac steady_walk :=
  repeat monadic_step ltac:(auto with steady_db nocore)
    (preserves_ret steady) (preserves_gets steady) (preserves_panic steady)
    (preserves_bind steady);
  try (apply preserves_modify; steady_update).

Ltac modes_update :=
  intros; unfold same_modes, fail, setBytes, setAddress; simpl;
  repeat match goal with
         | |- context [match ?c with _ => _ end] => destruct c eqn:?
         end; simpl; auto.

Ltac modes_walk :=
  repeat monadic_step ltac:(auto with modes_db nocore)
    (preserves_ret same_modes) (preserves_gets same_modes)
    (preserves_panic same_modes) (preserves_bind same_modes);
  try (apply preserves_modify; modes_update).

(** Case analysis on a call of [readFieldInto] that returned. *)
Ltac readFieldInto_cases H :=
  unfold readFieldInto in H;
  repeat match type of H with
         | match ?x with _ => _ end = _ => destruct x eqn:?
         end;
  inversion H; subst; clear H.

Lemma steady_readFieldInto (n : Z) (dst : fslice) :
  preserves steady (readFieldInto n dst).
Proof.
  intros p r p' H. readFieldInto_cases H; unfold steady; simpl;
    repeat split; auto using write_at_length; try not_after_end.
  all: match goal with
       | Hd : hexDecode _ = (_, ?o) |- _ =>
           destruct o as [e' |]; [right; intros [k Hk] | left; congruence];
           apply hexDecode_error_kind in Hd as [Hd | [c Hd]];
           rewrite Hd in Hk; discriminate
       end.
Qed.

Lemma modes_readFieldInto (n : Z) (dst : fslice) :
  preserves same_modes (readFieldInto n dst).
Proof.
  intros p r p' H. readFieldInto_cases H; unfold same_modes; simpl; auto.
Qed.

Lemma steady_index (s : fslice) (i : nat) : preserves steady (index s i).
Proof.
  intros p r p' H. unfold index in H.
  destruct (i <? size s)%nat; inversion H; subst. reflexivity.
Qed.

Lemma modes_index (s : fslice) (i : nat) : preserves same_modes (index s i).
Proof.
  intros p r p' H. unfold index in H.
  destruct (i <? size s)%nat; inversion H; subst. reflexivity.
Qed.

Lemma steady_readField (n : Z) : preserves steady (readField n).
Proof. apply steady_readFieldInto. Qed.

Lemma modes_readField (n : Z) : preserves same_modes (readField n).
Proof. apply modes_readFieldInto. Qed.

#[local] Hint Resolve steady_readFieldInto steady_index steady_readField
  : steady_db.
#[local] Hint Resolve modes_readFieldInto modes_index modes_readField
  : modes_db.

Lemma steady_readByteField : preserves steady readByteField.
Proof. unfold readByteField. steady_walk. Qed.

Lemma modes_readByteField : preserves same_modes readByteField.
Proof. unfold readByteField. modes_walk. Qed.

Lemma steady_readWordField : preserves steady readWordField.
Proof. unfold readWordField. steady_walk. Qed.

Lemma modes_readWordField : preserves same_modes readWordField.
Proof. unfold readWordField. modes_walk. Qed.

Lemma steady_fail (msg : string) :
  msg <> "record after end"%string -> preserves steady (fail msg).
Proof.
  intros Hmsg. apply preserves_modify. intros p. unfold steady. simpl.
  repeat split. right. intros [n Hn]. inversion Hn. contradiction.
Qed.

Lemma modes_fail (msg : string) : preserves same_modes (fail msg).
Proof. apply preserves_modify. modes_update. Qed.

#[local] Hint Resolve steady_readByteField steady_readWordField : steady_db.
#[local] Hint Resolve modes_readByteField modes_readWordField modes_fail
  : modes_db.

Lemma steady_checkRecLen (rectyp reclen : Z) :
  preserves steady (checkRecLen rectyp reclen).
Proof.
  unfold checkRecLen. steady_walk.
Qed.

Lemma modes_checkRecLen (rectyp reclen : Z) :
  preserves same_modes (checkRecLen rectyp reclen).
Proof. unfold checkRecLen. modes_walk. Qed.

Lemma steady_endRecord : preserves steady endRecord.
Proof.
  unfold endRecord. steady_walk.
Qed.

Lemma modes_endRecord : preserves same_modes endRecord.
Proof. unfold endRecord. modes_walk. Qed.

Lemma steady_slice_from (s : fslice) (k : Z) :
  preserves steady (slice_from s k).
Proof. unfold slice_from. steady_walk. Qed.

Lemma steady_slice_to (s : fslice) (k : Z) : preserves steady (slice_to s k).
Proof. unfold slice_to. steady_walk. Qed.

Lemma modes_slice_from (s : fslice) (k : Z) :
  preserves same_modes (slice_from s k).
Proof. unfold slice_from. modes_walk. Qed.

Lemma modes_slice_to (s : fslice) (k : Z) :
  preserves same_modes (slice_to s k).
Proof. unfold slice_to. modes_walk. Qed.

#[local] Hint Resolve steady_checkRecLen steady_endRecord steady_slice_from
  steady_slice_to : steady_db.
#[local] Hint Resolve modes_checkRecLen modes_endRecord modes_slice_from
  modes_slice_to : modes_db.

Lemma steady_parseData (reclen offset : Z) :
  preserves steady (parseData reclen offset).
Proof. unfold parseData. steady_walk. Qed.

Lemma modes_parseData (reclen offset : Z) :
  preserves same_modes (parseData reclen offset).
Proof. unfold parseData. modes_walk. Qed.

#[local] Hint Resolve steady_parseData : steady_db.
#[local] Hint Resolve modes_parseData : modes_db.

Lemma steady_parseInfo (rectyp reclen offset : Z) :
  preserves steady (parseInfo rectyp reclen offset).
Proof. unfold parseInfo. steady_walk. Qed.

#[local] Hint Resolve steady_parseInfo : steady_db.

Lemma steady_parseFields : preserves steady parseFields.
Proof. unfold parseFields. steady_walk. Qed.

(** ** The loop of [Parse] *)

(** Take a hypothesis [m p = Ok r p'] apart along the binds of [m]. *)
Ltac inv_monad H :=
  lazymatch type of H with
  | bind _ _ _ = Ok _ _ =>
      let a := fresh "a" in
      let q := fresh "q" in
      let H1 := fresh "Hm" in
      let H2 := fresh "Hk" in
      apply bind_Ok in H as (a & q & H1 & H2); inv_monad H1; inv_monad H2
  | gets _ _ = Ok _ _ => unfold gets in H; inversion H; subst; clear H
  | ret _ _ = Ok _ _ => unfold ret in H; inversion H; subst; clear H
  | modify _ _ = Ok _ _ => unfold modify in H; inversion H; subst; clear H
  | fail _ _ = Ok _ _ => unfold fail, modify in H; inversion H; subst; clear H
  | panic _ _ = Ok _ _ => discriminate H
  | (match ?x with _ => _ end) _ = Ok _ _ => destruct x eqn:?; inv_monad H
  | _ => idtac
  end.

Lemma scanLine_true (p q : Parser) :
  scanLine p = Ok true q ->
  exists t rest,
    pending (scanner p) = t :: rest /\ ended p = false /\
    q = set_line (line p + 1)
          (set_scanner
             (mkScanner rest t (delivered (scanner p) + 1)
                (ioerr (scanner p))) p).
Proof.
  unfold scanLine, Scan. intros H.
  destruct (pending (scanner p)) as [| t rest] eqn:Hp; simpl in H.
  - destruct (ioerr (scanner p)); simpl in H; [discriminate H |].
    destruct (ended p); discriminate H.
  - destruct (ended p) eqn:He; [discriminate H |].
    inversion H. exists t, rest. auto.
Qed.

Lemma scanLine_false (p q : Parser) :
  scanLine p = Ok false q ->
  (pending (scanner p) = [] /\ pending (scanner q) = [] /\
   line q = line p /\ delivered (scanner q) = delivered (scanner p) /\
   ~ after_end (err q)) \/
  (exists t rest,
      pending (scanner p) = t :: rest /\ ended p = true /\
      q = set_err (Some (ParseError (line p) "record after end"))
            (set_scanner
               (mkScanner rest t (delivered (scanner p) + 1)
                  (ioerr (scanner p))) p)).
Proof.
  unfold scanLine, Scan. intros H.
  destruct (pending (scanner p)) as [| t rest] eqn:Hp; simpl in H.
  - left. destruct (ioerr (scanner p)) as [msg |]; simpl in H.
    + inversion H; subst; simpl.
      repeat split; auto. intros [n Hn]; discriminate Hn.
    + destruct (ended p) eqn:He; simpl in H; inversion H; subst; simpl;
        repeat split; auto; intros [n Hn]; discriminate Hn.
  - right. destruct (ended p) eqn:He; [| discriminate H].
    inversion H. exists t, rest. auto.
Qed.

(** How a pass through the body of [Parse] can end, as far as the
    scanner and the line counter go. *)
Lemma Parse_body_NextRec (p p' : Parser) :
  Parse_body p = Ok NextRec p' ->
  exists t,
    pending (scanner p) = t :: pending (scanner p') /\
    delivered (scanner p') = delivered (scanner p) + 1 /\
    line p' = line p + 1 /\ err p = None /\ wrap p = None /\
    ended p = false /\ token (scanner p') = t /\
    (err p' = None \/ ~ after_end (err p')).
Proof.
  unfold Parse_body. intros H. inv_monad H; try discriminate.
  all: match goal with
       | Hs : scanLine _ = Ok ?a _, Hb : negb ?a = false |- _ =>
           destruct a; [clear Hb | discriminate Hb];
           apply scanLine_true in Hs as (t & rest & Hp & He & Hq)
       end.
  - subst p'. exists t. simpl. rewrite Hp. simpl in *. auto 10.
  - match goal with
    | Hf : parseFields _ = Ok _ _ |- _ =>
        apply steady_parseFields in Hf as (Hs & Hl & _ & Herr)
    end.
    subst. simpl in *. exists t. rewrite Hs, Hl, Hp. simpl.
    repeat split; auto.
    destruct Herr as [Herr | Herr]; [left; congruence | auto].
Qed.

Lemma Parse_unfold (p : Parser) :
  Parse p =
  match Parse_body p with
  | Ok (Return r) p' => Ok r p'
  | Ok NextRec p' => Parse p'
  | Panic msg => Panic msg
  | OutOfFuel => OutOfFuel
  end.
Proof.
  unfold Parse. simpl.
  destruct (Parse_body p) as [[r |] p' | msg |] eqn:Hb; try reflexivity.
  apply Parse_body_NextRec in Hb as (t & Hp & _).
  rewrite Hp. reflexivity.
Qed.

(** The budget of [Parse] is never exhausted: the model of the loop is a
    total function whose results are returns and panics only. *)
Lemma Parse_terminates (p : Parser) : Parse p <> OutOfFuel.
Proof.
  remember (List.length (pending (scanner p))) as n eqn:Hn.
  revert p Hn. induction n as [| n IH]; intros p Hn;
    rewrite Parse_unfold;
    destruct (Parse_body p) as [[r |] p' | msg |] eqn:Hb;
    try discriminate; try (intros _; exact (fuelless_Parse_body p Hb)).
  - apply Parse_body_NextRec in Hb as (t & Hp & _).
    rewrite Hp in Hn. discriminate Hn.
  - apply IH. apply Parse_body_NextRec in Hb as (t & Hp & _).
    rewrite Hp in Hn. simpl in Hn. lia.
Qed.

(** With an error recorded, [Parse] is the identity and returns false. *)
Lemma Parse_with_error (p : Parser) (e : error) :
  err p = Some e -> Parse p = Ok false p.
Proof.
  intros H. rewrite Parse_unfold.
  unfold Parse_body, bind, gets. rewrite H. reflexivity.
Qed.

Lemma modes_scanLine : preserves same_modes scanLine.
Proof.
  intros p r q H. unfold scanLine in H.
  repeat match type of H with
         | match ?x with _ => _ end = _ => destruct x eqn:?
         end;
    inversion H; subst; unfold same_modes; simpl; auto.
Qed.

(** ** States a client can observe *)

(** An invariant of the body of [Parse] is an invariant of [Parse]. *)
Lemma Parse_loop_invariant (I : Parser -> Prop) :
  (forall p c p', I p -> Parse_body p = Ok c p' -> I p') ->
  forall fuel p r p', I p -> Parse_loop fuel p = Ok r p' -> I p'.
Proof.
  intros Hbody fuel. induction fuel as [| fuel IH]; intros p r p' HI H.
  - discriminate H.
  - simpl in H.
    destruct (Parse_body p) as [[r0 |] q | msg |] eqn:Hb; try discriminate H.
    + inversion H; subst. eapply Hbody; eassumption.
    + eapply IH; [| eassumption]. eapply Hbody; eassumption.
Qed.

Lemma reachable_invariant (I : Parser -> Prop) :
  (forall lines e, I (NewParser lines e)) ->
  (forall p c p', I p -> Parse_body p = Ok c p' -> I p') ->
  forall p, reachable p -> I p.
Proof.
  intros Hnew Hbody p Hr. induction Hr as [lines e | p p' r Hr IH HP].
  - apply Hnew.
  - unfold Parse in HP. eapply Parse_loop_invariant; eassumption.
Qed.

(** ** Sticky errors *)

(** C9.  Once an error is recorded, [Parse] returns false at once and
    leaves the parser exactly as it was: nothing is taken from the
    scanner, no field changes, and [Err] keeps reporting the same, first,
    error.  As the parser is unchanged, the same holds for every later
    call. *)
Theorem errors_are_sticky (p : Parser) (e : error) :
  Err p = Some e -> Parse p = Ok false p.
Proof. unfold Err. apply Parse_with_error. Qed.

Lemma errors_are_sticky_witness :
  Err afterBadChecksum = Some (ParseError 1 "invalid checksum") /\
  Parse afterBadChecksum = Ok false afterBadChecksum.
Proof.
  split.
  - vm_compute. reflexivity.
  - apply (errors_are_sticky afterBadChecksum
             (ParseError 1 "invalid checksum")).
    vm_compute. reflexivity.
Defined.

(** ** Lines after the end record *)

Lemma reachable_afterParse (input : string) : reachable (afterParse input).
Proof.
  unfold afterParse.
  destruct (Parse (fromString input)) as [r q | msg |] eqn:HP;
    try apply reach_new.
  eapply reach_Parse; [apply reach_new | exact HP].
Qed.

(** C3, as the code has it.  Once the end record has been seen, whatever
    line the scanner delivers next, blank or not, is answered with
    "record after end": [scanLine] tests [p.ended] before [Parse] looks at
    the line.  The error carries the line counter as it stood. *)
Theorem any_line_after_end_is_an_error
    (p : Parser) (t : bslice) (rest : list bslice) :
  err p = None -> wrap p = None -> ended p = true ->
  pending (scanner p) = t :: rest ->
  exists p',
    Parse p = Ok false p' /\
    Err p' = Some (ParseError (line p) "record after end") /\
    pending (scanner p') = rest.
Proof.
  intros Herr Hwrap Hended Hp. rewrite Parse_unfold.
  unfold Parse_body, bind, gets. rewrite Herr, Hwrap.
  unfold scanLine, Scan. rewrite Hp. simpl. rewrite Hended. simpl.
  eexists. split; [reflexivity |]. simpl. auto.
Qed.

Lemma any_line_after_end_is_an_error_witness :
  exists p',
    Parse endedParser = Ok false p' /\
    Err p' = Some (ParseError 1 "record after end") /\
    pending (scanner p') = [].
Proof.
  apply (any_line_after_end_is_an_error endedParser (lineOf "" "") []);
    reflexivity.
Defined.

(** C3, where the code departs from it: in the input
    [":00000001FF\n\n"] the end record is followed by one blank line,
    and that blank line is not skipped but raises "record after end". *)
Lemma blank_line_after_end_is_rejected :
  exists p',
    Parse (fromString (":00000001FF" ++ nl ++ nl)) = Ok false p' /\
    List.map vis (pending (scanner (fromString (":00000001FF" ++ nl ++ nl))))
    = [list_ascii_of_string ":00000001FF"; []] /\
    Err p' = Some (ParseError 1 "record after end").
Proof.
  eexists. split; [vm_compute; reflexivity |].
  split; vm_compute; reflexivity.
Qed.

(** C4, where the code departs from it: in the input of [TestEnd] the
    offending line is the second one, two lines have been taken from the
    scanner, and the error says line 1. *)
Lemma record_after_end_reports_previous_line :
  exists p',
    Parse (fromString (":00000001FF" ++ nl ++ ":020000021200EA"))
    = Ok false p' /\
    Err p' = Some (ParseError 1 "record after end") /\
    delivered (scanner p') = 2.
Proof.
  eexists. split; [vm_compute; reflexivity |].
  split; vm_compute; reflexivity.
Qed.

Lemma counts_lines_Parse_body (p p' : Parser) (c : ctl) :
  counts_lines p -> Parse_body p = Ok c p' -> counts_lines p'.
Proof.
  intros HI H.
  unfold Parse_body in H. inv_monad H; try assumption.
  all: match goal with
       | Hnone : err ?q = None, HI : counts_lines ?q |- _ =>
           assert (Hcount : delivered (scanner q) = line q)
             by (apply HI; rewrite Hnone; intros [n Hn]; discriminate Hn);
           clear HI
       end.
  all: match goal with
      | Hs : scanLine _ = Ok ?a _, Hb : negb ?a = true |- _ =>
          destruct a; [discriminate Hb | clear Hb];
          apply scanLine_false in Hs
            as [(Hp & Hq & Hl & Hd & Hn) | (t & rest & Hp & He & Hq)]
      | Hs : scanLine _ = Ok ?a _, Hb : negb ?a = false |- _ =>
           destruct a; [clear Hb | discriminate Hb];
           apply scanLine_true in Hs as (t & rest & Hp & He & Hq)
      end.
  - (* the input is exhausted *)
    split; [contradiction | intros _; congruence].
  - (* a line after the end record *)
    subst p'. split; simpl; intros Hx.
    + split; [reflexivity | lia].
    + exfalso. apply Hx. eexists. reflexivity.
  - (* a blank line *)
    subst p'. split; simpl; intros Hx.
    + exfalso. destruct Hx as [n Hn]. congruence.
    + lia.
  - (* no record mark *)
    subst. split; simpl; intros Hx.
    + destruct Hx as [n Hn]. discriminate Hn.
    + lia.
  - (* a record *)
    match goal with
    | Hf : parseFields _ = Ok _ _ |- _ =>
        apply steady_parseFields in Hf as (Hs & Hl & _ & Herr)
    end.
    subst. simpl in *. split; intros Hx.
    + exfalso. destruct Herr as [Herr | Herr]; [| contradiction].
      destruct Hx as [n Hn]. congruence.
    + rewrite Hs, Hl. simpl. lia.
Qed.

(** C4, as the code has it.  [scanLine] raises "record after end" before
    it increments [p.line], so the error carries the number of lines read
    before the offending one: the offending line is line [n + 1], the
    error says [n]. *)
Theorem record_after_end_line_number (p : Parser) (n : Z) :
  reachable p ->
  Err p = Some (ParseError n "record after end") ->
  n = line p /\ delivered (scanner p) = n + 1.
Proof.
  intros Hr He.
  assert (HI : counts_lines p).
  { apply reachable_invariant; [| | assumption].
    - intros lines e. split; simpl; [intros [k Hk]; discriminate Hk | auto].
    - intros q c q'. apply counts_lines_Parse_body. }
  destruct HI as [HI _]. unfold Err in He.
  destruct HI as [H1 H2]; [exists n; assumption |].
  rewrite He in H1. inversion H1; subst. auto.
Qed.

Lemma record_after_end_line_number_witness :
  Err afterTestEnd = Some (ParseError 1 "record after end") /\
  1 = line afterTestEnd /\ delivered (scanner afterTestEnd) = 1 + 1.
Proof.
  split; [vm_compute; reflexivity |].
  apply (record_after_end_line_number afterTestEnd 1).
  - apply reachable_afterParse.
  - vm_compute. reflexivity.
Defined.

(** ** Base modes *)

Lemma parseInfo_segment (reclen offset : Z) (p p' : Parser) (r : bool) :
  err p = None -> parseInfo 2 reclen offset p = Ok r p' ->
  useSBA p' = true /\ useLBA p' = false /\ lba p' = 0.
Proof.
  intros Herr H. unfold parseInfo in H. inv_monad H; [discriminate |].
  match goal with
  | He : endRecord _ = Ok _ _ |- _ =>
      apply modes_endRecord in He as (H1 & H2 & _ & H4)
  end.
  simpl in *. auto.
Qed.

Lemma parseInfo_linear (reclen offset : Z) (p p' : Parser) (r : bool) :
  err p = None -> parseInfo 4 reclen offset p = Ok r p' ->
  useLBA p' = true /\ useSBA p' = false /\ sba p' = 0.
Proof.
  intros Herr H. unfold parseInfo in H. inv_monad H; [discriminate |].
  match goal with
  | Hw : readWordField _ = Ok _ _, He : endRecord _ = Ok _ _ |- _ =>
      apply modes_endRecord in He as (H1 & H2 & H3 & _);
      apply modes_readWordField in Hw as (H5 & H6 & H7 & _)
  end.
  simpl in *. repeat split; congruence.
Qed.

Lemma exclusive_parseInfo (rectyp reclen offset : Z) (p p' : Parser)
    (r : bool) :
  exclusive p -> parseInfo rectyp reclen offset p = Ok r p' -> exclusive p'.
Proof.
  intros HI H. unfold exclusive in *.
  destruct (err p) as [e |] eqn:Herr.
  - unfold parseInfo, bind, gets in H. rewrite Herr in H.
    inversion H; subst. assumption.
  - destruct (Z.eq_dec rectyp 2) as [-> | H2].
    { apply parseInfo_segment in H as (-> & -> & _); auto. }
    destruct (Z.eq_dec rectyp 4) as [-> | H4].
    { apply parseInfo_linear in H as (-> & -> & _); auto. }
    assert (Hsame : same_modes p p').
    { revert H. generalize p r p'. change (preserves same_modes (parseInfo rectyp reclen offset)).
      unfold parseInfo. modes_walk; try contradiction. }
    destruct Hsame as (-> & -> & _). assumption.
Qed.

Lemma exclusive_same_modes (p p' : Parser) :
  same_modes p p' -> exclusive p -> exclusive p'.
Proof. unfold exclusive. intros (-> & -> & _). auto. Qed.

Lemma exclusive_parseFields (p p' : Parser) (c : ctl) :
  exclusive p -> parseFields p = Ok c p' -> exclusive p'.
Proof.
  intros HI H. unfold parseFields in H.
  apply bind_Ok in H as (reclen & q1 & H1 & H).
  apply bind_Ok in H as (offset & q2 & H2 & H).
  apply bind_Ok in H as (rectyp & q3 & H3 & H).
  apply bind_Ok in H as (u & q4 & H4 & H).
  apply bind_Ok in H as (gotData & q5 & H5 & H).
  apply modes_readByteField in H1. apply modes_readWordField in H2.
  apply modes_readByteField in H3. apply modes_checkRecLen in H4.
  assert (HI5 : exclusive q5).
  { eapply exclusive_parseInfo; [| eassumption].
    repeat (eapply exclusive_same_modes; [eassumption |]). assumption. }
  inv_monad H; assumption.
Qed.

Lemma exclusive_Parse_body (p p' : Parser) (c : ctl) :
  exclusive p -> Parse_body p = Ok c p' -> exclusive p'.
Proof.
  intros HI H. unfold Parse_body in H. inv_monad H; try assumption.
  all: match goal with
       | Hs : scanLine _ = Ok _ _ |- _ =>
           apply modes_scanLine in Hs;
           pose proof (exclusive_same_modes _ _ Hs HI) as HI'
       end; try assumption.
  match goal with
  | Hf : parseFields _ = Ok _ _ |- _ =>
      eapply exclusive_parseFields; [| exact Hf]
  end.
  assumption.
Qed.

(** C8.  Between calls of [Parse] the two base modes are never both on;
    a type-2 record turns the segment base on and clears the linear base;
    a type-4 record turns the linear base on and clears the segment
    base. *)
Theorem base_modes_exclusive :
  (forall p, reachable p -> useSBA p && useLBA p = false) /\
  (forall reclen offset p r p',
      err p = None -> parseInfo 2 reclen offset p = Ok r p' ->
      useSBA p' = true /\ useLBA p' = false /\ lba p' = 0) /\
  (forall reclen offset p r p',
      err p = None -> parseInfo 4 reclen offset p = Ok r p' ->
      useLBA p' = true /\ useSBA p' = false /\ sba p' = 0).
Proof.
  split; [| split].
  - intros p Hr. change (exclusive p).
    apply reachable_invariant; [| | assumption].
    + intros lines e. reflexivity.
    + intros q c q'. apply exclusive_Parse_body.
  - intros reclen offset p r p'. apply parseInfo_segment.
  - intros reclen offset p r p'. apply parseInfo_linear.
Qed.

Lemma base_modes_exclusive_witness :
  (reachable afterSegmentData /\
   useSBA afterSegmentData = true /\
   useSBA afterSegmentData && useLBA afterSegmentData = false) /\
  (parseInfo 2 2 0 atSegmentPayload
   = Ok false (afterParseInfo 2 2 0 atSegmentPayload) /\
   useSBA (afterParseInfo 2 2 0 atSegmentPayload) = true /\
   useLBA (afterParseInfo 2 2 0 atSegmentPayload) = false /\
   lba (afterParseInfo 2 2 0 atSegmentPayload) = 0) /\
  (parseInfo 4 2 0 atLinearPayload
   = Ok false (afterParseInfo 4 2 0 atLinearPayload) /\
   useLBA (afterParseInfo 4 2 0 atLinearPayload) = true /\
   useSBA (afterParseInfo 4 2 0 atLinearPayload) = false /\
   sba (afterParseInfo 4 2 0 atLinearPayload) = 0).
Proof.
  destruct base_modes_exclusive as (Hinv & Hseg & Hlin).
  split; [| split].
  - split; [apply reachable_afterParse |].
    split; [vm_compute; reflexivity |].
    apply Hinv. apply reachable_afterParse.
  - split; [vm_compute; reflexivity |].
    apply (Hseg 2 0 atSegmentPayload false); vm_compute; reflexivity.
  - split; [vm_compute; reflexivity |].
    apply (Hlin 2 0 atLinearPayload false); vm_compute; reflexivity.
Defined.

(** ** Record types above 5 *)

Lemma checkRecLen_unknown_type (rectyp reclen : Z) (p : Parser) :
  err p = None -> 5 < rectyp ->
  checkRecLen rectyp reclen p = Panic index_out_of_range.
Proof.
  intros Herr Hty. unfold checkRecLen, bind, gets. rewrite Herr.
  destruct (0 <? rectyp) eqn:Hpos; [| apply Z.ltb_ge in Hpos; lia].
  destruct (nth_error reclens (Z.to_nat rectyp)) as [x |] eqn:Hnth;
    [| reflexivity].
  assert (Hlt : (Z.to_nat rectyp < List.length reclens)%nat)
    by (apply nth_error_Some; congruence).
  simpl in Hlt. lia.
Qed.

(** C2, where the code departs from it.  The line [":00000006FA"] is
    well formed (valid
    hex, checksum 0 mod 256, nothing after the checksum) and has record
    type 6; [checkRecLen] indexes the six-entry array [reclens] with 6 and
    the call of [Parse] ends in a run-time panic instead of treating the
    record as a no-op and going on to the next line. *)
Theorem record_type_6_panics :
  Parse (fromString (":00000006FA" ++ nl ++ ":00000001FF" ++ nl))
  = Panic index_out_of_range.
Proof. vm_compute. reflexivity. Qed.

(** ** Malformed hexadecimal fields *)

Lemma hexDecode_error_length (src : list ascii) :
  forall bs e, hexDecode src = (bs, Some e) ->
               (2 * List.length bs < List.length src)%nat.
Proof.
  induction src as [| c | c1 c2 rest IH] using pair_induction; intros bs e H.
  - inversion H.
  - simpl in H. destruct (fromHexChar c); inversion H; simpl; lia.
  - rewrite hexDecode_cons2 in H.
    destruct (fromHexChar c1); [| inversion H; simpl; lia].
    destruct (fromHexChar c2); [| inversion H; simpl; lia].
    destruct (hexDecode rest) as [bs' e'] eqn:Er. inversion H; subst.
    specialize (IH _ _ eq_refl). simpl. lia.
Qed.

(** Whatever [hex.Decode] reports, [readFieldInto] leaves either no error
    or "record too short": a decoding error means fewer than [n] bytes
    were decoded, and the test [byte(nd) < n] comes first.  The branch
    that would keep the error of [hex.Decode] is never taken. *)
Lemma readFieldInto_error_kind (n : Z) (dst : fslice) (p p' : Parser)
    (r : fslice) :
  byte_range n -> err p = None -> readFieldInto n dst p = Ok r p' ->
  err p' = None \/ err p' = Some (ParseError (line p) "record too short").
Proof.
  intros Hn Herr H. readFieldInto_cases H; simpl; auto.
  - congruence.
  - exfalso.
    match goal with
    | Hd : hexDecode _ = (_, _), He : err _ = Some _ |- _ =>
        simpl in He; rewrite He in Hd;
        apply hexDecode_error_length in Hd; rewrite length_firstn in Hd
    end.
    match goal with
    | Hlt : (_ <? n) = false |- _ => apply Z.ltb_ge in Hlt
    end.
    unfold byte_range in Hn.
    assert (Z.of_nat (Z.to_nat ((n * 2) mod 256)) <= n * 2).
    { rewrite Z2Nat.id by (apply Z.mod_pos_bound; lia).
      apply Z.mod_le; lia. }
    assert (Z.of_nat (List.length l) mod 256 <= Z.of_nat (List.length l))
      by (apply Z.mod_le; lia).
    lia.
Qed.

(** C5, where the code departs from it.  A non-hex character (the [G]
    of the type field in [":000000G1FF"]) and an odd number of digits
    (the lone [F] of [":00000001F"]) are both reported as "record too
    short", not by an error of their own. *)
Theorem malformed_hex_is_record_too_short :
  (exists p',
      Parse (fromString ":000000G1FF") = Ok false p' /\
      Err p' = Some (ParseError 1 "record too short")) /\
  (exists p',
      Parse (fromString ":00000001F") = Ok false p' /\
      Err p' = Some (ParseError 1 "record too short")).
Proof.
  split; eexists; (split; [vm_compute; reflexivity |]);
    vm_compute; reflexivity.
Qed.

(** ** Records that cross the end of the segment *)

(** C1, where the code departs from it.  With segment base 0x12000, the
    data record [":03FFFF00010203F9"] has offset 0xFFFF and three bytes,
    so one byte fits below the boundary and two overflow.  Splitting at
    the boundary keeps the first 0x10000 - 0xFFFF = 1 byte in the current
    record and makes [2; 3] pending; the code keeps the first [extra] = 2
    bytes and makes only the last byte pending. *)
Theorem wrap_split_point :
  (exists p',
      pulls 2 (fromString (":020000021200EA" ++ nl
                           ++ ":03FFFF00010203F9" ++ nl))
      = Ok [(0x21fff, [1; 2]); (0x12001, [3])] p') /\
  firstn (Z.to_nat (0x10000 - 0xFFFF)) [1; 2; 3] = [1] /\
  skipn (Z.to_nat (0x10000 - 0xFFFF)) [1; 2; 3] = [2; 3].
Proof.
  split; [eexists; vm_compute; reflexivity |].
  split; reflexivity.
Qed.

(** ** Reading a field that is there *)

Lemma firstn_exact (A : Type) (l1 l2 : list A) :
  firstn (List.length l1) (l1 ++ l2) = l1.
Proof. induction l1 as [| x l1 IH]; simpl; [destruct l2 |]; congruence. Qed.

Lemma skipn_exact (A : Type) (l1 l2 : list A) :
  skipn (List.length l1) (l1 ++ l2) = l2.
Proof. induction l1 as [| x l1 IH]; simpl; auto. Qed.

Lemma set_err_same (p : Parser) (e : option error) :
  err p = e -> set_err e p = p.
Proof. destruct p. simpl. intros ->. reflexivity. Qed.

Lemma readFieldInto_decodes (n : Z) (dst : fslice) (p : Parser)
    (s1 s2 : list ascii) (bs : list Z) :
  err p = None -> wf p ->
  vis (b p) = s1 ++ s2 -> hexDecode s1 = (bs, None) ->
  n = Z.of_nat (List.length bs) -> n < 128 ->
  (List.length bs <= size dst)%nat -> (base dst + size dst <= 256)%nat ->
  readFieldInto n dst p =
  Ok (mkFslice (base dst) (List.length bs))
     (consumed (write_at (base dst) bs (field p)) s2 (addBytes bs (sum p)) p).
Proof.
  intros Herr Hwf Hvis Hdec Hn Hlt Hsize Hdst.
  pose proof (hexDecode_ok_length _ _ Hdec) as Hlen.
  assert (Hhi : Z.to_nat ((n * 2) mod 256) = List.length s1).
  { rewrite Z.mod_small by lia. lia. }
  unfold readFieldInto. rewrite Herr, Hhi.
  assert (Hcap : (bcap (b p) <? List.length s1)%nat = false).
  { apply Nat.ltb_ge. unfold bcap. rewrite Hvis, length_app. lia. }
  rewrite Hcap, Hvis, <- app_assoc, firstn_exact, Hdec.
  assert (Hfit : (size dst <? List.length bs)%nat = false)
    by (apply Nat.ltb_ge; assumption).
  rewrite Hfit. cbn [b set_err set_field blen vis slack].
  rewrite Hvis.
  replace (List.length bs * 2)%nat with (List.length s1) by lia.
  assert (Hin : (List.length (s1 ++ s2) <? List.length s1)%nat = false)
    by (apply Nat.ltb_ge; rewrite length_app; lia).
  unfold blen. rewrite Hvis, Hin, skipn_exact.
  assert (Hnd : (Z.of_nat (List.length bs) mod 256 <? n) = false)
    by (apply Z.ltb_ge; rewrite Z.mod_small; lia).
  rewrite Hnd. cbn [err set_b set_err field set_field sum].
  rewrite view_write_at by (unfold wf in Hwf; lia).
  unfold consumed. rewrite (set_err_same _ None) by assumption.
  reflexivity.
Qed.

Lemma index_written (k i : nat) (bs fld : list Z) (p : Parser) :
  (i < List.length bs)%nat -> (k + List.length bs <= List.length fld)%nat ->
  field p = write_at k bs fld ->
  index (mkFslice k (List.length bs)) i p = Ok (nth i bs 0) p.
Proof.
  intros Hi Hk Hf. unfold index. cbn [size].
  apply Nat.ltb_lt in Hi as Hi'. rewrite Hi'.
  rewrite (nth_view (field p) (mkFslice k (List.length bs)) i 0) by assumption.
  rewrite Hf, view_write_at by assumption. reflexivity.
Qed.

Lemma readByteField_decodes (p : Parser) (s1 s2 : list ascii) (v : Z) :
  err p = None -> wf p ->
  vis (b p) = s1 ++ s2 -> hexDecode s1 = ([v], None) ->
  readByteField p =
  Ok v (consumed (write_at 0 [v] (field p)) s2 ((sum p + v) mod 256) p).
Proof.
  intros Herr Hwf Hvis Hdec. unfold readByteField, readField.
  rewrite (bind_step _ _ _ _ _ _ _
             (readFieldInto_decodes 1 (mkFslice 0 256) p s1 s2 [v]
                Herr Hwf Hvis Hdec eq_refl eq_refl
                ltac:(simpl; lia) ltac:(simpl; lia))).
  unfold bind, gets. cbn [err consumed set_sum set_b set_field].
  rewrite Herr.
  apply (index_written 0 0 [v] (field p)); simpl;
    [lia | unfold wf in Hwf; lia | reflexivity].
Qed.

Lemma readWordField_decodes (p : Parser) (s1 s2 : list ascii) (hi lo : Z) :
  err p = None -> wf p ->
  vis (b p) = s1 ++ s2 -> hexDecode s1 = ([hi; lo], None) ->
  readWordField p =
  Ok (word hi lo)
     (consumed (write_at 0 [hi; lo] (field p)) s2
        (addBytes [hi; lo] (sum p)) p).
Proof.
  intros Herr Hwf Hvis Hdec. unfold readWordField, readField.
  rewrite (bind_step _ _ _ _ _ _ _
             (readFieldInto_decodes 2 (mkFslice 0 256) p s1 s2 [hi; lo]
                Herr Hwf Hvis Hdec eq_refl eq_refl
                ltac:(simpl; lia) ltac:(simpl; lia))).
  unfold bind at 1. unfold gets at 1.
  cbn [err consumed set_sum set_b set_field]. rewrite Herr.
  set (q := consumed _ _ _ _).
  assert (Hq : field q = write_at 0 [hi; lo] (field p)) by reflexivity.
  assert (Hlen : (0 + List.length [hi; lo] <= List.length (field p))%nat)
    by (unfold wf in Hwf; simpl; lia).
  rewrite (bind_step _ _ _ _ _ _ _
             (index_written 0 0 [hi; lo] (field p) q
                ltac:(simpl; lia) Hlen Hq)).
  rewrite (bind_step _ _ _ _ _ _ _
             (index_written 0 1 [hi; lo] (field p) q
                ltac:(simpl; lia) Hlen Hq)).
  unfold ret. cbn [nth]. f_equal.
  apply hexDecode_range in Hdec.
  inversion Hdec as [| ? ? Hhi Hrest]; subst.
  inversion Hrest as [| ? ? Hlo _]; subst.
  apply word_lor; assumption.
Qed.

(** ** The effect of a record whose fields are all there *)

Lemma bind_gets (A B : Type) (f : Parser -> A) (k : A -> M B) (p : Parser) :
  bind (gets f) k p = k (f p) p.
Proof. reflexivity. Qed.

Lemma bind_modify (B : Type) (f : Parser -> Parser) (k : unit -> M B)
    (p : Parser) :
  bind (modify f) k p = k tt (f p).
Proof. reflexivity. Qed.

Lemma bind_ret (A B : Type) (a : A) (k : A -> M B) (p : Parser) :
  bind (ret a) k p = k a p.
Proof. reflexivity. Qed.

Lemma bind_assoc (A B C : Type) (m : M A) (k : A -> M B) (k' : B -> M C)
    (p : Parser) :
  bind (bind m k) k' p = bind m (fun a => bind (k a) k') p.
Proof. unfold bind. destruct (m p); reflexivity. Qed.

Lemma wf_write_at (k : nat) (bs : list Z) (p : Parser) (rest : list ascii)
    (s : Z) :
  wf p -> wf (consumed (write_at k bs (field p)) rest s p).
Proof. intros H. unfold wf. simpl. rewrite write_at_length. exact H. Qed.

(** Run the next step of a monadic computation applied to a parser:
    [called H] uses the equation [H] of the call in front, [stepped]
    unfolds a primitive in front. *)
Ltac called H :=
  repeat rewrite bind_assoc;
  rewrite (bind_step _ _ _ _ _ _ _ H); cbv beta iota;
  repeat rewrite bind_assoc.
Ltac stepped :=
  repeat rewrite bind_assoc;
  first [rewrite bind_gets | rewrite bind_modify | rewrite bind_ret];
  cbv beta iota; repeat rewrite bind_assoc.

Lemma endRecord_decodes (p : Parser) (sC trailing : list ascii) (cc : Z) :
  err p = None -> wf p ->
  vis (b p) = sC ++ trailing -> hexDecode sC = ([cc], None) ->
  endRecord p = Ok tt (closing cc trailing p).
Proof.
  intros Herr Hwf Hvis Hdec. unfold endRecord.
  called (readFieldInto_decodes 1 (mkFslice 255 1) p sC trailing [cc]
            Herr Hwf Hvis Hdec eq_refl eq_refl
            ltac:(simpl; lia) ltac:(simpl; lia)).
  stepped. change (err (consumed _ _ _ p)) with (err p). rewrite Herr.
  cbv iota. stepped.
  change (sum (consumed ?f ?r ?s p)) with s.
  unfold closing. cbv zeta. change (addBytes [cc] (sum p)) with ((sum p + cc) mod 256).
  destruct (negb ((sum p + cc) mod 256 =? 0)); [reflexivity |].
  stepped. change (blen (b (consumed ?f ?r ?s p))) with (List.length r).
  destruct (0 <? List.length trailing)%nat; reflexivity.
Qed.

Lemma shiftl_word (w n : Z) :
  0 <= w < 65536 -> 0 <= n <= 16 -> Z.shiftl w n mod 2 ^ 32 = w * 2 ^ n.
Proof.
  intros Hw Hn. rewrite Z.shiftl_mul_pow2 by lia.
  apply Z.mod_small.
  assert (0 < 2 ^ n) by (apply Z.pow_pos_nonneg; lia).
  assert (2 ^ n <= 2 ^ 16) by (apply Z.pow_le_mono_r; lia).
  change (2 ^ 16) with 65536 in *. change (2 ^ 32) with 4294967296. nia.
Qed.

Lemma hexDecode_two (s : list ascii) (hi lo : Z) :
  hexDecode s = ([hi; lo], None) -> 0 <= word hi lo < 65536.
Proof.
  intros H. apply hexDecode_range in H.
  inversion H as [| ? ? Hhi Hrest]; subst.
  inversion Hrest as [| ? ? Hlo _]; subst.
  apply word_range; assumption.
Qed.

Ltac solve_wf :=
  unfold wf in *; simpl; rewrite ?write_at_length; assumption.

Section KnownRecord.
Variables (p : Parser) (sC trailing : list ascii) (cc : Z).
Hypothesis Herr : err p = None.
Hypothesis Hwf : wf p.
Hypothesis HdecC : hexDecode sC = ([cc], None).

Lemma parseInfo_end (reclen offset : Z) :
  vis (b p) = sC ++ trailing ->
  parseInfo 1 reclen offset p
  = Ok false (closing cc trailing (set_ended true p)).
Proof.
  intros Hvis. unfold parseInfo. stepped. rewrite Herr. cbv iota.
  do 2 stepped.
  called (endRecord_decodes (set_ended true p) sC trailing cc
            Herr Hwf Hvis HdecC).
  reflexivity.
Qed.

Lemma parseInfo_segment_known (reclen offset : Z) (sP : list ascii)
    (hi lo : Z) :
  vis (b p) = sP ++ sC ++ trailing -> hexDecode sP = ([hi; lo], None) ->
  parseInfo 2 reclen offset p
  = Ok false
      (closing cc trailing
         (set_useLBA false
            (set_lba 0
               (set_useSBA true
                  (set_sba (word hi lo * 16)
                     (consumed (write_at 0 [hi; lo] (field p))
                        (sC ++ trailing) (addBytes [hi; lo] (sum p))
                        p)))))).
Proof.
  intros Hvis HdecP. unfold parseInfo. stepped. rewrite Herr. cbv iota.
  called (readWordField_decodes p sP (sC ++ trailing) hi lo
            Herr Hwf Hvis HdecP).
  rewrite (shiftl_word _ 4) by (eauto using hexDecode_two || lia).
  do 5 stepped.
  match goal with
  | |- bind endRecord _ ?q = _ =>
      called (endRecord_decodes q sC trailing cc Herr
                ltac:(solve_wf) eq_refl HdecC)
  end.
  reflexivity.
Qed.

Lemma parseInfo_linear_known (reclen offset : Z) (sP : list ascii)
    (hi lo : Z) :
  vis (b p) = sP ++ sC ++ trailing -> hexDecode sP = ([hi; lo], None) ->
  parseInfo 4 reclen offset p
  = Ok false
      (closing cc trailing
         (set_useLBA true
            (set_lba (word hi lo * 65536)
               (consumed (write_at 0 [hi; lo] (field p))
                  (sC ++ trailing) (addBytes [hi; lo] (sum p))
                  (set_useSBA false (set_sba 0 p)))))).
Proof.
  intros Hvis HdecP. unfold parseInfo. stepped. rewrite Herr. cbv iota.
  do 2 stepped.
  called (readWordField_decodes (set_useSBA false (set_sba 0 p)) sP
            (sC ++ trailing) hi lo Herr Hwf Hvis HdecP).
  rewrite (shiftl_word _ 16) by (eauto using hexDecode_two || lia).
  do 3 stepped.
  match goal with
  | |- bind endRecord _ ?q = _ =>
      called (endRecord_decodes q sC trailing cc Herr
                ltac:(solve_wf) eq_refl HdecC)
  end.
  reflexivity.
Qed.

Lemma parseInfo_csip_known (reclen offset : Z) (sA sB : list ascii)
    (a1 a2 b1 b2 : Z) :
  vis (b p) = sA ++ sB ++ sC ++ trailing ->
  hexDecode sA = ([a1; a2], None) -> hexDecode sB = ([b1; b2], None) ->
  parseInfo 3 reclen offset p
  = Ok false
      (closing cc trailing
         (set_hasCSIP true
            (set_ip (word b1 b2)
               (set_cs (word a1 a2)
                  (consumed
                     (write_at 0 [b1; b2] (write_at 0 [a1; a2] (field p)))
                     (sC ++ trailing) (addBytes [a1; a2; b1; b2] (sum p))
                     p))))).
Proof.
  intros Hvis HdecA HdecB. unfold parseInfo. stepped. rewrite Herr.
  cbv iota.
  called (readWordField_decodes p sA (sB ++ sC ++ trailing) a1 a2
            Herr Hwf Hvis HdecA).
  stepped.
  match goal with
  | |- bind readWordField _ ?q = _ =>
      called (readWordField_decodes q sB (sC ++ trailing) b1 b2 Herr
                ltac:(solve_wf) eq_refl HdecB)
  end.
  do 3 stepped.
  match goal with
  | |- bind endRecord _ ?q = _ =>
      called (endRecord_decodes q sC trailing cc Herr
                ltac:(solve_wf) eq_refl HdecC)
  end.
  reflexivity.
Qed.

Lemma parseInfo_eip_known (reclen offset : Z) (sA sB : list ascii)
    (a1 a2 b1 b2 : Z) :
  vis (b p) = sA ++ sB ++ sC ++ trailing ->
  hexDecode sA = ([a1; a2], None) -> hexDecode sB = ([b1; b2], None) ->
  parseInfo 5 reclen offset p
  = Ok false
      (closing cc trailing
         (set_hasEIP true
            (set_eip (word a1 a2 * 65536 + word b1 b2)
               (consumed
                  (write_at 0 [b1; b2] (write_at 0 [a1; a2] (field p)))
                  (sC ++ trailing) (addBytes [a1; a2; b1; b2] (sum p))
                  p)))).
Proof.
  intros Hvis HdecA HdecB.
  assert (E : Z.lor (Z.shiftl (word a1 a2) 16 mod 2 ^ 32) (word b1 b2)
              = word a1 a2 * 65536 + word b1 b2).
  { pose proof (hexDecode_two _ _ _ HdecA).
    pose proof (hexDecode_two _ _ _ HdecB).
    rewrite Z.mod_small.
    - apply (lor_shiftl_add _ _ 16); [lia |].
      change (2 ^ 16) with 65536. assumption.
    - rewrite Z.shiftl_mul_pow2 by lia.
      change (2 ^ 16) with 65536. change (2 ^ 32) with 4294967296. lia. }
  rewrite <- E.
  unfold parseInfo. stepped. rewrite Herr. cbv iota.
  called (readWordField_decodes p sA (sB ++ sC ++ trailing) a1 a2
            Herr Hwf Hvis HdecA).
  do 2 stepped.
  match goal with
  | |- bind readWordField _ ?q = _ =>
      called (readWordField_decodes q sB (sC ++ trailing) b1 b2 Herr
                ltac:(solve_wf) eq_refl HdecB)
  end.
  do 3 stepped.
  match goal with
  | |- bind endRecord _ ?q = _ =>
      called (endRecord_decodes q sC trailing cc Herr
                ltac:(solve_wf) eq_refl HdecC)
  end.
  reflexivity.
Qed.

Lemma address_step (q : Parser) (offset : Z) :
  (if useSBA q then setAddress ((sba q + offset) mod 2 ^ 32) q
   else if useLBA q then setAddress (Z.lor (lba q) offset) q
   else setAddress offset q)
  = setAddress (dataAddress q offset) q.
Proof.
  unfold dataAddress. destruct (useSBA q), (useLBA q); reflexivity.
Qed.

Lemma parseData_known (reclen offset : Z) (sP : list ascii)
    (payload : list Z) :
  vis (b p) = sP ++ sC ++ trailing -> hexDecode sP = (payload, None) ->
  reclen = Z.of_nat (List.length payload) -> reclen < 128 ->
  0 <= offset < 65536 ->
  parseData reclen offset p
  = Ok tt
      (split_record offset (List.length payload)
         (setAddress (dataAddress p offset)
            (setBytes (mkFslice 0 (List.length payload))
               (consumed (write_at 0 payload (field p))
                  (sC ++ trailing) (addBytes payload (sum p)) p)))).
Proof.
  intros Hvis HdecP Hlen Hshort Hoff.
  unfold parseData, readField.
  called (readFieldInto_decodes reclen (mkFslice 0 256) p sP
            (sC ++ trailing) payload Herr Hwf Hvis HdecP Hlen Hshort
            ltac:(simpl; lia) ltac:(simpl; lia)).
  cbn [base]. set (q1 := consumed _ _ _ _).
  stepped. set (q2 := setBytes _ q1).
  stepped. rewrite address_step.
  change (dataAddress q2 offset) with (dataAddress p offset).
  set (q3 := setAddress _ q2).
  stepped. unfold split_record. cbv zeta.
  destruct (useLBA q3) eqn:Hlin; cbn [negb andb]; [reflexivity |].
  stepped. change (size (Bytes (data q3))) with (List.length payload).
  destruct (0 <? offset + Z.of_nat (List.length payload) - 1 - 65535)
    eqn:Hextra; [| reflexivity].
  apply Z.ltb_lt in Hextra.
  do 2 stepped. unfold slice_from, slice_to.
  change (Bytes (data q3)) with (mkFslice 0 (List.length payload)).
  cbn [size base fcap].
  set (extra := offset + Z.of_nat (List.length payload) - 1 - 65535) in *.
  assert (C1 : (0 <=? extra) && (extra <=? Z.of_nat (List.length payload))
               = true)
    by (apply andb_true_intro; split; apply Z.leb_le; lia).
  assert (C2 : (0 <=? extra)
               && (extra <=?
                   Z.of_nat (fcap (mkFslice 0 (List.length payload))))
               = true)
    by (apply andb_true_intro; split; apply Z.leb_le;
        unfold fcap; simpl; lia).
  rewrite C1, C2. do 3 stepped. reflexivity.
Qed.

Lemma parseInfo_data_known (reclen offset : Z) (sP : list ascii)
    (payload : list Z) :
  vis (b p) = sP ++ sC ++ trailing -> hexDecode sP = (payload, None) ->
  reclen = Z.of_nat (List.length payload) -> reclen < 128 ->
  0 <= offset < 65536 ->
  parseInfo 0 reclen offset p
  = Ok true
      (closing cc trailing
         (split_record offset (List.length payload)
            (setAddress (dataAddress p offset)
               (setBytes (mkFslice 0 (List.length payload))
                  (consumed (write_at 0 payload (field p))
                     (sC ++ trailing) (addBytes payload (sum p)) p))))).
Proof.
  intros Hvis HdecP Hlen Hshort Hoff.
  unfold parseInfo. stepped. rewrite Herr. cbv iota.
  called (parseData_known reclen offset sP payload
            Hvis HdecP Hlen Hshort Hoff).
  stepped.
  match goal with
  | |- bind endRecord _ ?q = _ =>
      assert (Hq : err q = None /\ wf q /\ vis (b q) = sC ++ trailing)
  end.
  { unfold split_record. cbv zeta.
    match goal with
    | |- context [if ?c then _ else _] => destruct c
    end; repeat split; try assumption; solve_wf. }
  destruct Hq as (Hq1 & Hq2 & Hq3).
  called (endRecord_decodes _ sC trailing cc Hq1 Hq2 Hq3 HdecC).
  reflexivity.
Qed.
End KnownRecord.

(** ** A whole record *)

Lemma checkRecLen_ok (rectyp reclen : Z) (p : Parser) :
  err p = None ->
  rectyp = 0 \/ 0 < rectyp /\ nth_error reclens (Z.to_nat rectyp) = Some reclen ->
  checkRecLen rectyp reclen p = Ok tt p.
Proof.
  intros Herr Hty. unfold checkRecLen. stepped. rewrite Herr. cbv iota.
  destruct Hty as [-> | [Hpos Hnth]]; [reflexivity |].
  apply Z.ltb_lt in Hpos. rewrite Hpos, Hnth, Z.eqb_refl. reflexivity.
Qed.

(** The three header fields, then the rest of [parseFields]. *)
Lemma parseFields_header (p : Parser) (sL sO sT rest : list ascii)
    (reclen oh ol rectyp : Z) :
  err p = None -> wf p ->
  vis (b p) = sL ++ sO ++ sT ++ rest ->
  hexDecode sL = ([reclen], None) -> hexDecode sO = ([oh; ol], None) ->
  hexDecode sT = ([rectyp], None) ->
  rectyp = 0 \/ 0 < rectyp /\ nth_error reclens (Z.to_nat rectyp) = Some reclen ->
  parseFields p
  = bind (parseInfo rectyp reclen (word oh ol))
      (fun gotData =>
         if negb gotData then ret NextRec
         else
           bind (gets err)
             (fun e =>
                match e with
                | None => ret (Return true)
                | Some _ => ret (Return false)
                end))
      (consumed
         (write_at 0 [rectyp]
            (write_at 0 [oh; ol] (write_at 0 [reclen] (field p))))
         rest (addBytes [reclen; oh; ol; rectyp] (sum p)) p).
Proof.
  intros Herr Hwf Hvis HL HO HT Hty. unfold parseFields.
  called (readByteField_decodes p sL (sO ++ sT ++ rest) reclen
            Herr Hwf Hvis HL).
  match goal with
  | |- bind readWordField _ ?q = _ =>
      called (readWordField_decodes q sO (sT ++ rest) oh ol Herr
                ltac:(solve_wf) eq_refl HO)
  end.
  match goal with
  | |- bind readByteField _ ?q = _ =>
      called (readByteField_decodes q sT rest rectyp Herr
                ltac:(solve_wf) eq_refl HT)
  end.
  match goal with
  | |- bind (checkRecLen _ _) _ ?q = _ =>
      called (checkRecLen_ok rectyp reclen q Herr Hty)
  end.
  reflexivity.
Qed.

Lemma closing_eq (cc : Z) (trailing : list ascii) (q : Parser)
    (bs : list Z) :
  err q = None -> sum q = addBytes bs 0 ->
  closing cc trailing q
  = set_err (verdict (line q) (bs ++ [cc]) trailing)
      (consumed (write_at 255 [cc] (field q)) trailing
         ((sum q + cc) mod 256) q).
Proof.
  intros Herr Hsum. unfold closing, verdict. cbv zeta.
  assert (E : (sum q + cc) mod 256 = byteSum (bs ++ [cc]) mod 256).
  { rewrite <- addBytes_zero, addBytes_app, <- Hsum. reflexivity. }
  rewrite <- E.
  destruct (negb ((sum q + cc) mod 256 =? 0)); [reflexivity |].
  destruct (0 <? List.length trailing)%nat; [reflexivity |].
  symmetry. apply set_err_same. exact Herr.
Qed.

Lemma view_prefix (fld : list Z) (k n : nat) :
  (k <= n)%nat ->
  view fld (mkFslice 0 k) = firstn k (view fld (mkFslice 0 n)).
Proof.
  intros Hk. unfold view. simpl. rewrite firstn_firstn.
  rewrite Nat.min_l by assumption. reflexivity.
Qed.

Lemma view_suffix (fld : list Z) (k n : nat) :
  (k <= n)%nat ->
  view fld (mkFslice k (n - k)) = skipn k (view fld (mkFslice 0 n)).
Proof.
  intros Hk. unfold view. simpl. rewrite firstn_skipn_comm.
  replace (k + (n - k))%nat with n by lia. reflexivity.
Qed.

Lemma payload_kept (payload : list Z) (cc : Z) (fld : list Z) :
  (List.length payload < 128)%nat -> List.length fld = 256%nat ->
  view (write_at 255 [cc] (write_at 0 payload fld))
    (mkFslice 0 (List.length payload))
  = payload.
Proof.
  intros Hshort Hlen.
  rewrite view_write_at_below by lia.
  apply view_write_at. simpl. lia.
Qed.

Lemma hexDecode_cons (s : list ascii) (x : Z) (bs : list Z) :
  hexDecode s = (x :: bs, None) ->
  exists s1 s2,
    s = s1 ++ s2 /\ hexDecode s1 = ([x], None) /\ hexDecode s2 = (bs, None).
Proof. apply (hexDecode_split s [x] bs). Qed.

Lemma hexDecode_cons2_split (s : list ascii) (x y : Z) (bs : list Z) :
  hexDecode s = (x :: y :: bs, None) ->
  exists s1 s2,
    s = s1 ++ s2 /\ hexDecode s1 = ([x; y], None) /\
    hexDecode s2 = (bs, None).
Proof. apply (hexDecode_split s [x; y] bs). Qed.

(** Decide whether the data record at hand is split. *)
Ltac unsplit :=
  match goal with
  | |- context [split_record ?o ?n ?q] =>
      let c := fresh "Hsplit" in
      unfold split_record; cbv zeta;
      destruct (negb (useLBA q) && (0 <? o + Z.of_nat n - 1 - 65535)) eqn:c
  end.

Lemma split_record_frame (offset : Z) (n : nat) (q : Parser) :
  line (split_record offset n q) = line q /\
  scanner (split_record offset n q) = scanner q /\
  err (split_record offset n q) = err q /\
  ended (split_record offset n q) = ended q.
Proof. unsplit; auto. Qed.

Lemma record_effect_data (q : Parser) (v : option error) (cc : Z)
    (trailing rest : list ascii) (s s' offset : Z) (payload : list Z) :
  wrap q = None -> wf q -> (List.length payload < 128)%nat ->
  0 <= offset < 65536 ->
  forall X,
    X = split_record offset (List.length payload)
          (setAddress (dataAddress q offset)
             (setBytes (mkFslice 0 (List.length payload))
                (consumed (write_at 0 payload (field q)) rest s q))) ->
    record_effect 0 offset payload q
      (set_err v (consumed (write_at 255 [cc] (field X)) trailing s' X)).
Proof.
  intros Hwrap Hwf Hshort Hoff X ->. unfold record_effect, Data.
  unsplit.
  - assert (Hc : negb (useLBA q) && (0 <? overflow offset payload) = true)
      by exact Hsplit.
    rewrite Hc. apply andb_prop in Hc as [_ Hext].
    apply Z.ltb_lt in Hext. unfold overflow in Hext.
    split; [reflexivity |]. split.
    + cbn [snd]. simpl.
      rewrite view_write_at_below by lia.
      rewrite (view_prefix _ _ (List.length payload)) by lia.
      rewrite view_write_at by (unfold wf in Hwf; simpl; lia).
      reflexivity.
    + eexists. split; [reflexivity |]. split; [reflexivity |]. simpl.
      rewrite view_write_at_below by lia.
      rewrite view_suffix by lia.
      rewrite view_write_at by (unfold wf in Hwf; simpl; lia).
      reflexivity.
  - assert (Hc : negb (useLBA q) && (0 <? overflow offset payload) = false)
      by exact Hsplit.
    rewrite Hc. split; [reflexivity |]. split; [| exact Hwrap].
    cbn [snd]. simpl.
    apply payload_kept; [assumption | exact Hwf].
Qed.

Lemma parseFields_known (p : Parser) (body trailing : list ascii)
    (reclen oh ol rectyp : Z) (payload : list Z) (cc : Z) :
  err p = None -> wf p -> wrap p = None -> sum p = 0 ->
  vis (b p) = body ++ trailing ->
  hexDecode body = (record_bytes reclen oh ol rectyp payload cc, None) ->
  record_shape reclen rectyp payload ->
  exists p',
    parseFields p
    = Ok (if rectyp =? 0 then
            Return
              match verdict (line p)
                      (record_bytes reclen oh ol rectyp payload cc) trailing
              with
              | None => true
              | Some _ => false
              end
          else NextRec) p' /\
    err p'
    = verdict (line p) (record_bytes reclen oh ol rectyp payload cc)
        trailing /\
    scanner p' = scanner p /\ line p' = line p /\
    (rectyp <> 0 -> wrap p' = None) /\
    ended p' = (if rectyp =? 1 then true else ended p) /\
    record_effect rectyp (word oh ol) payload p p'.
Proof.
  intros Herr Hwf Hwrap Hsum Hvis Hdec (Hlen & Hshort & Hty).
  unfold record_bytes in *.
  pose proof (hexDecode_range _ _ _ Hdec) as Hrange.
  apply hexDecode_cons in Hdec as (sL & s1 & -> & HL & Hdec).
  apply hexDecode_cons2_split in Hdec as (sO & s2 & -> & HO & Hdec).
  apply hexDecode_cons in Hdec as (sT & s3 & -> & HT & Hdec).
  apply hexDecode_split in Hdec as (sP & sC & -> & HP & HC).
  repeat rewrite <- app_assoc in Hvis.
  assert (Hsum' : forall bs,
             addBytes bs (addBytes [reclen; oh; ol; rectyp] (sum p))
             = addBytes (reclen :: oh :: ol :: rectyp :: bs) 0).
  { intros bs. rewrite Hsum.
    change (reclen :: oh :: ol :: rectyp :: bs)
      with ([reclen; oh; ol; rectyp] ++ bs).
    rewrite addBytes_app. reflexivity. }
  rewrite (parseFields_header p sL sO sT (sP ++ sC ++ trailing)
             reclen oh ol rectyp Herr Hwf Hvis HL HO HT Hty).
  set (hdr := consumed _ _ _ p).
  assert (Hhdr : err hdr = None) by exact Herr.
  assert (Hhwf : wf hdr) by (subst hdr; solve_wf).
  assert (Hhvis : vis (b hdr) = sP ++ sC ++ trailing) by reflexivity.
  assert (Hoff : 0 <= word oh ol < 65536) by (eapply hexDecode_two; eassumption).
  assert (Hcases : rectyp = 0 \/ rectyp = 1 \/ rectyp = 2 \/ rectyp = 3
                   \/ rectyp = 4 \/ rectyp = 5).
  { destruct Hty as [-> | [Hpos Hnth]]; [auto |].
    assert (Hlt : (Z.to_nat rectyp < List.length reclens)%nat)
      by (apply nth_error_Some; congruence).
    simpl in Hlt. lia. }
  assert (Hpay : forall n : nat,
             nth_error reclens (Z.to_nat rectyp) = Some (Z.of_nat n) ->
             0 < rectyp -> List.length payload = n).
  { intros n Hn Hpos. destruct Hty as [-> | [_ Hnth]]; [lia |].
    rewrite Hnth in Hn. inversion Hn. lia. }
  destruct Hcases as [-> | [-> | [-> | [-> | [-> | ->]]]]].
  - (* data *)
    called (parseInfo_data_known hdr sC trailing cc Hhdr Hhwf HC reclen
              (word oh ol) sP payload Hhvis HP Hlen Hshort Hoff).
    match goal with
    | |- context [closing cc trailing ?q] =>
        assert (Hq : err q = None
                     /\ sum q
                        = addBytes (reclen :: oh :: ol :: 0 :: payload) 0);
        [| rewrite (closing_eq cc trailing q _ (proj1 Hq) (proj2 Hq));
           clear Hq ]
    end.
    { unsplit; (split; [exact Herr | apply Hsum']). }
    cbn [negb]. stepped.
    match goal with
    | |- context [err (set_err ?v ?q)] =>
        change (err (set_err v q)) with v
    end.
    match goal with
    | |- context [split_record ?o ?n ?q] =>
        destruct (split_record_frame o n q) as (Hl & Hs & _ & He);
        set (X := split_record o n q) in *
    end.
    rewrite Hl.
    change (line (setAddress _ _)) with (line p).
    change ((reclen :: oh :: ol :: 0 :: payload) ++ [cc])
      with (reclen :: oh :: ol :: 0 :: payload ++ [cc]).
    set (v := verdict (line p) _ trailing).
    exists (set_err v
              (consumed (write_at 255 [cc] (field X)) trailing
                 ((sum X + cc) mod 256) X)).
    split; [clearbody v; destruct v; reflexivity |].
    split; [reflexivity |]. split; [exact Hs |]. split; [exact Hl |].
    split; [intros Hne; contradiction |].
    split; [exact He |].
    change (record_effect 0 (word oh ol) payload hdr
              (set_err v
                 (consumed (write_at 255 [cc] (field X)) trailing
                    ((sum X + cc) mod 256) X))).
    apply (record_effect_data hdr v cc trailing (sC ++ trailing)
             (addBytes payload (sum hdr)) _ (word oh ol) payload
             Hwrap Hhwf ltac:(lia) Hoff X eq_refl).
  - (* end of file *)
    destruct Hty as [Habs | [_ Hnth]]; [discriminate Habs |].
    inversion Hnth as [Hrl].
    destruct payload as [| x payload]; [| simpl in Hlen; lia].
    simpl in Hlen. clear Hrl. subst reclen.
    apply hexDecode_ok_length in HP as HsP.
    destruct sP; [| discriminate HsP].
    called (parseInfo_end hdr sC trailing cc Hhdr Hhwf HC 0 (word oh ol)
              Hhvis).
    rewrite (closing_eq cc trailing (set_ended true hdr) [0; oh; ol; 1]
               Hhdr (Hsum' [])).
    eexists. split; [reflexivity |]. simpl. auto 10.
  - (* segment base *)
    destruct Hty as [Habs | [_ Hnth]]; [discriminate Habs |].
    inversion Hnth as [Hrl].
    destruct payload as [| hi [| lo [| x payload]]]; simpl in Hlen; try lia.
    clear Hrl. subst reclen.
    called (parseInfo_segment_known hdr sC trailing cc Hhdr Hhwf HC 2
              (word oh ol) sP hi lo Hhvis HP).
    match goal with
    | |- context [closing cc trailing ?q] =>
        rewrite (closing_eq cc trailing q [2; oh; ol; 2; hi; lo] Hhdr
                   (Hsum' [hi; lo]))
    end.
    eexists. split; [reflexivity |]. simpl. auto 10.
  - (* CS:IP *)
    destruct Hty as [Habs | [_ Hnth]]; [discriminate Habs |].
    inversion Hnth as [Hrl].
    destruct payload as [| a1 [| a2 [| b1 [| b2 [| x payload]]]]];
      simpl in Hlen; try lia.
    clear Hrl. subst reclen.
    apply hexDecode_cons2_split in HP as (sA & sB & -> & HA & HB).
    rewrite <- app_assoc in Hhvis.
    called (parseInfo_csip_known hdr sC trailing cc Hhdr Hhwf HC 4
              (word oh ol) sA sB a1 a2 b1 b2 Hhvis HA HB).
    match goal with
    | |- context [closing cc trailing ?q] =>
        rewrite (closing_eq cc trailing q [4; oh; ol; 3; a1; a2; b1; b2]
                   Hhdr (Hsum' [a1; a2; b1; b2]))
    end.
    eexists. split; [reflexivity |]. simpl. auto 10.
  - (* linear base *)
    destruct Hty as [Habs | [_ Hnth]]; [discriminate Habs |].
    inversion Hnth as [Hrl].
    destruct payload as [| hi [| lo [| x payload]]]; simpl in Hlen; try lia.
    clear Hrl. subst reclen.
    called (parseInfo_linear_known hdr sC trailing cc Hhdr Hhwf HC 2
              (word oh ol) sP hi lo Hhvis HP).
    match goal with
    | |- context [closing cc trailing ?q] =>
        rewrite (closing_eq cc trailing q [2; oh; ol; 4; hi; lo] Hhdr
                   (Hsum' [hi; lo]))
    end.
    eexists. split; [reflexivity |]. simpl. auto 10.
  - (* EIP *)
    destruct Hty as [Habs | [_ Hnth]]; [discriminate Habs |].
    inversion Hnth as [Hrl].
    destruct payload as [| a1 [| a2 [| b1 [| b2 [| x payload]]]]];
      simpl in Hlen; try lia.
    clear Hrl. subst reclen.
    apply hexDecode_cons2_split in HP as (sA & sB & -> & HA & HB).
    rewrite <- app_assoc in Hhvis.
    called (parseInfo_eip_known hdr sC trailing cc Hhdr Hhwf HC 4
              (word oh ol) sA sB a1 a2 b1 b2 Hhvis HA HB).
    match goal with
    | |- context [closing cc trailing ?q] =>
        rewrite (closing_eq cc trailing q [4; oh; ol; 5; a1; a2; b1; b2]
                   Hhdr (Hsum' [a1; a2; b1; b2]))
    end.
    eexists. split; [reflexivity |]. simpl. auto 10.
Qed.

(** ** A whole line with a record *)

Lemma scanLine_ready (p : Parser) (ln : bslice) (rest : list bslice) :
  ended p = false -> pending (scanner p) = ln :: rest ->
  scanLine p
  = Ok true
      (set_line (line p + 1)
         (set_scanner
            (mkScanner rest ln (delivered (scanner p) + 1)
               (ioerr (scanner p))) p)).
Proof.
  intros Hended Hp. unfold scanLine, Scan. rewrite Hp. simpl.
  rewrite Hended. reflexivity.
Qed.

Lemma Parse_body_known (p : Parser) (ln : bslice) (rest : list bslice)
    (reclen oh ol rectyp : Z) (payload : list Z) (cc : Z)
    (trailing : list ascii) :
  ready p ln rest ->
  record_text (vis ln) reclen oh ol rectyp payload cc trailing ->
  record_shape reclen rectyp payload ->
  exists p',
    Parse_body p
    = Ok (if rectyp =? 0 then
            Return
              match verdict (line p + 1)
                      (record_bytes reclen oh ol rectyp payload cc) trailing
              with
              | None => true
              | Some _ => false
              end
          else NextRec) p' /\
    err p'
    = verdict (line p + 1) (record_bytes reclen oh ol rectyp payload cc)
        trailing /\
    pending (scanner p') = rest /\ line p' = line p + 1 /\
    (rectyp <> 0 -> wrap p' = None) /\
    wf p' /\ ended p' = (rectyp =? 1) /\
    record_effect rectyp (word oh ol) payload p p'.
Proof.
  intros (Herr & Hwrap & Hended & Hwf & Hp) (body & Htext & Hdec) Hshape.
  unfold Parse_body. stepped. rewrite Herr. cbv iota.
  stepped. rewrite Hwrap. cbv iota.
  called (scanLine_ready p ln rest Hended Hp). cbn [negb].
  stepped. cbn [token scanner set_line set_scanner]. rewrite Htext.
  cbn [Ascii.eqb Bool.eqb negb andb]. do 2 stepped.
  match goal with
  | |- context [parseFields ?q] =>
      destruct (parseFields_known q body trailing reclen oh ol rectyp
                  payload cc Herr Hwf Hwrap eq_refl eq_refl Hdec Hshape)
        as (p' & Hrun & Herr' & Hscan & Hline & Hw & He & Heff)
  end.
  exists p'. split; [exact Hrun |]. split; [exact Herr' |].
  split; [rewrite Hscan; reflexivity |]. split; [exact Hline |].
  split; [exact Hw |]. split; [| split; [| exact Heff]].
  - apply steady_parseFields in Hrun as (_ & _ & Hfld & _).
    unfold wf in *. rewrite Hfld. exact Hwf.
  - rewrite He. simpl. rewrite Hended.
    destruct (rectyp =? 1); reflexivity.
Qed.

(** A record with a bad checksum or with trailing data ends the call. *)
Lemma Parse_known_rejected (p : Parser) (ln : bslice) (rest : list bslice)
    (reclen oh ol rectyp : Z) (payload : list Z) (cc : Z)
    (trailing : list ascii) (e : error) :
  ready p ln rest ->
  record_text (vis ln) reclen oh ol rectyp payload cc trailing ->
  record_shape reclen rectyp payload ->
  verdict (line p + 1) (record_bytes reclen oh ol rectyp payload cc) trailing
  = Some e ->
  exists p',
    Parse p = Ok false p' /\ err p' = Some e /\
    pending (scanner p') = rest /\
    record_effect rectyp (word oh ol) payload p p'.
Proof.
  intros Hready Htext Hshape Hv.
  destruct (Parse_body_known p ln rest reclen oh ol rectyp payload cc
              trailing Hready Htext Hshape)
    as (p' & Hbody & Herr' & Hpend & _ & _ & _ & _ & Heff).
  rewrite Hv in Hbody, Herr'.
  exists p'. split; [| auto].
  rewrite Parse_unfold, Hbody.
  destruct (rectyp =? 0); [reflexivity |].
  apply (Parse_with_error p' e Herr').
Qed.

(** A valid data record is handed out. *)
Lemma Parse_known_data (p : Parser) (ln : bslice) (rest : list bslice)
    (reclen oh ol : Z) (payload : list Z) (cc : Z) :
  ready p ln rest ->
  record_text (vis ln) reclen oh ol 0 payload cc [] ->
  record_shape reclen 0 payload ->
  byteSum (record_bytes reclen oh ol 0 payload cc) mod 256 = 0 ->
  exists p',
    Parse p = Ok true p' /\ err p' = None /\
    pending (scanner p') = rest /\
    record_effect 0 (word oh ol) payload p p'.
Proof.
  intros Hready Htext Hshape Hsum.
  destruct (Parse_body_known p ln rest reclen oh ol 0 payload cc
              [] Hready Htext Hshape)
    as (p' & Hbody & Herr' & Hpend & _ & _ & _ & _ & Heff).
  assert (Hv : verdict (line p + 1) (record_bytes reclen oh ol 0 payload cc)
                 [] = None).
  { unfold verdict. rewrite Hsum. reflexivity. }
  rewrite Hv in Hbody, Herr'.
  exists p'. split; [| auto].
  rewrite Parse_unfold, Hbody. reflexivity.
Qed.


(** ** Side effects of rejected records *)

(** C10.  The effect of a record is applied before its checksum and the
    end of its line are checked.  A line that holds all the fields of a
    record of type 0 to 5 but whose bytes do not sum to 0 mod 256, or that
    goes on after the checksum, makes [Parse] return false with "invalid
    checksum", respectively "trailing data", and yet the parser has
    changed: a data record has replaced the address and bytes of the
    current record ([Data]), an end record has set [ended], a type-2 or
    type-4 record has switched the base mode, a type-3 or type-5 record
    has stored CS:IP or EIP and set its flag. *)
Theorem side_effects_precede_validation
    (p : Parser) (ln : bslice) (rest : list bslice)
    (reclen oh ol rectyp : Z) (payload : list Z) (cc : Z)
    (trailing : list ascii) :
  ready p ln rest ->
  record_text (vis ln) reclen oh ol rectyp payload cc trailing ->
  record_shape reclen rectyp payload ->
  byteSum (record_bytes reclen oh ol rectyp payload cc) mod 256 <> 0
  \/ trailing <> [] ->
  exists p',
    Parse p = Ok false p' /\
    Err p'
    = Some (ParseError (line p + 1)
              (if byteSum (record_bytes reclen oh ol rectyp payload cc)
                    mod 256 =? 0
               then "trailing data" else "invalid checksum")) /\
    record_effect rectyp (word oh ol) payload p p'.
Proof.
  intros Hready Htext Hshape Hbad.
  assert (Hv : verdict (line p + 1)
                 (record_bytes reclen oh ol rectyp payload cc) trailing
               = Some (ParseError (line p + 1)
                         (if byteSum
                               (record_bytes reclen oh ol rectyp payload cc)
                               mod 256 =? 0
                          then "trailing data" else "invalid checksum"))).
  { unfold verdict.
    destruct (byteSum (record_bytes reclen oh ol rectyp payload cc)
                mod 256 =? 0) eqn:Hs; [| reflexivity].
    apply Z.eqb_eq in Hs. destruct Hbad as [Hbad | Hbad]; [contradiction |].
    destruct trailing; [contradiction | reflexivity]. }
  destruct (Parse_known_rejected p ln rest reclen oh ol rectyp payload cc
              trailing _ Hready Htext Hshape Hv)
    as (p' & HP & Herr' & _ & Heff).
  exists p'. auto.
Qed.

Lemma side_effects_precede_validation_witness :
  exists p',
    Parse (NewParser [badSegmentLine] None) = Ok false p' /\
    Err p' = Some (ParseError 1 "invalid checksum") /\
    record_effect 2 0 [0x12; 0] (NewParser [badSegmentLine] None) p'.
Proof.
  apply (side_effects_precede_validation (NewParser [badSegmentLine] None)
           badSegmentLine [] 2 0 0 2 [0x12; 0] 0xEB []).
  - repeat split.
  - exists (list_ascii_of_string "020000021200EB").
    split; vm_compute; reflexivity.
  - split; [reflexivity | split; [lia | right; split; [lia | reflexivity]]].
  - left. vm_compute. discriminate.
Defined.

(** ** Addresses of data records *)





(** ** Accepted lines *)

#[local] Instance reading_preorder (body : list ascii) :
  RelationClasses.PreOrder (reading body).
Proof.
  split.
  - intros p H. exact H.
  - intros p q r H1 H2 H. apply H2, H1, H.
Qed.

Lemma reading_readFieldInto (body : list ascii) (n : Z) (dst : fslice) :
  (base dst + size dst <= 256)%nat ->
  preserves (reading body) (readFieldInto n dst).
Proof.
  intros Hdst p r p' H [Hwf Hread]. readFieldInto_cases H.
  - split; assumption.
  - split; [unfold wf in *; simpl; rewrite write_at_length; exact Hwf |].
    intros Habs. discriminate Habs.
  - split; [unfold wf in *; simpl; rewrite write_at_length; exact Hwf |].
    intros Habs. simpl in *. congruence.
  - split; [unfold wf in *; simpl; rewrite write_at_length; exact Hwf |].
    intros _.
    match goal with
    | Hd : hexDecode _ = (?l, ?o), Ho : err _ = None |- _ =>
        simpl in Ho; subst o; rename Hd into Hdec; rename l into got
    end.
    match goal with
    | Hcap : (bcap _ <? _)%nat = false, Hfit : (size dst <? _)%nat = false,
      Hin : (blen _ <? _)%nat = false |- _ =>
        apply Nat.ltb_ge in Hcap; apply Nat.ltb_ge in Hfit;
        apply Nat.ltb_ge in Hin; simpl in Hin; unfold blen in Hin;
        unfold bcap in Hcap
    end.
    pose proof (hexDecode_ok_length _ _ Hdec) as Hlen.
    rewrite length_firstn, length_app in Hlen.
    assert (Hhi : Z.to_nat ((n * 2) mod 256) = (2 * List.length got)%nat)
      by lia.
    rewrite Hhi in Hdec.
    rewrite firstn_app in Hdec.
    replace (2 * List.length got - List.length (vis (b p)))%nat with O in Hdec
      by lia.
    rewrite firstn_O, app_nil_r in Hdec.
    destruct (Hread Heqo) as (s1 & bs & Hbody & Hs1 & Hsum).
    set (src := firstn (2 * List.length got) (vis (b p))) in *.
    assert (Hd2 : hexDecode (s1 ++ src) = (bs ++ got, None))
      by (rewrite (hexDecode_app s1 bs _ Hs1), Hdec; reflexivity).
    assert (Hb2 : body
                  = (s1 ++ src) ++ skipn (List.length got * 2) (vis (b p))).
    { rewrite <- app_assoc. subst src.
      replace (List.length got * 2)%nat with (2 * List.length got)%nat by lia.
      rewrite firstn_skipn. exact Hbody. }
    assert (Hs2 : addBytes
                    (view (write_at (base dst) got (field p))
                       (mkFslice (base dst) (List.length got))) (sum p)
                  = addBytes (bs ++ got) 0).
    { rewrite view_write_at by (unfold wf in Hwf; lia).
      rewrite addBytes_app, Hsum. reflexivity. }
    exists (s1 ++ src), (bs ++ got). auto.
Qed.

Create HintDb reading_db.

Ltac reading_update :=
  intros; unfold reading, read_so_far, wf, fail, setBytes, setAddress;
  simpl;
  repeat match goal with
         | |- context [match ?c with _ => _ end] => destruct c eqn:?
         end; simpl;
  first [ tauto
        | intros [? ?]; split; [assumption | intros Habs; discriminate Habs] ].

Ltac reading_walk body :=
  repeat monadic_step ltac:(auto with reading_db nocore)
    (preserves_ret (reading body)) (preserves_gets (reading body))
    (preserves_panic (reading body)) (preserves_bind (reading body));
  try (apply preserves_modify; reading_update).

Section Reading.
Variable body : list ascii.

Lemma reading_readField (n : Z) : preserves (reading body) (readField n).
Proof. apply reading_readFieldInto. simpl. lia. Qed.

Lemma reading_index (s : fslice) (i : nat) :
  preserves (reading body) (index s i).
Proof.
  intros p r p' H. unfold index in H.
  destruct (i <? size s)%nat; inversion H; subst. reflexivity.
Qed.

Hint Resolve reading_readField reading_index : reading_db.

Lemma reading_readByteField : preserves (reading body) readByteField.
Proof. unfold readByteField. reading_walk body. Qed.

Lemma reading_readWordField : preserves (reading body) readWordField.
Proof. unfold readWordField. reading_walk body. Qed.

Lemma reading_checkRecLen (rectyp reclen : Z) :
  preserves (reading body) (checkRecLen rectyp reclen).
Proof. unfold checkRecLen. reading_walk body. Qed.

Lemma reading_endRecord : preserves (reading body) endRecord.
Proof.
  unfold endRecord. reading_walk body.
  apply reading_readFieldInto. simpl. lia.
Qed.

Lemma reading_slice_from (s : fslice) (k : Z) :
  preserves (reading body) (slice_from s k).
Proof. unfold slice_from. reading_walk body. Qed.

Lemma reading_slice_to (s : fslice) (k : Z) :
  preserves (reading body) (slice_to s k).
Proof. unfold slice_to. reading_walk body. Qed.

Hint Resolve reading_readByteField reading_readWordField
  reading_checkRecLen reading_endRecord reading_slice_from
  reading_slice_to : reading_db.

Lemma reading_parseData (reclen offset : Z) :
  preserves (reading body) (parseData reclen offset).
Proof. unfold parseData. reading_walk body. Qed.

Hint Resolve reading_parseData : reading_db.

Lemma reading_parseInfo (rectyp reclen offset : Z) :
  preserves (reading body) (parseInfo rectyp reclen offset).
Proof. unfold parseInfo. reading_walk body. Qed.

Hint Resolve reading_parseInfo : reading_db.

End Reading.

(** A record that leaves no error has passed [endRecord]: the running
    checksum is 0 and the line is used up. *)
Lemma endRecord_closed (q p' : Parser) (u : unit) :
  endRecord q = Ok u p' -> err p' = None ->
  sum p' = 0 /\ vis (b p') = [].
Proof.
  intros H Herr. unfold endRecord in H. inv_monad H;
    try (simpl in Herr; congruence).
  match goal with
  | Hs : negb (sum ?p =? 0) = false, Hb : (0 <? blen (b ?p))%nat = false
    |- _ =>
      apply negb_false_iff, Z.eqb_eq in Hs;
      apply Nat.ltb_ge in Hb; unfold blen in Hb
  end.
  split; [assumption |].
  destruct (vis (b p')); [reflexivity | simpl in *; lia].
Qed.




Lemma scanLine_field (p q : Parser) (a : bool) :
  scanLine p = Ok a q -> field q = field p.
Proof.
  unfold scanLine. intros H.
  repeat match type of H with
         | match ?x with _ => _ end = _ => destruct x eqn:?
         end;
    inversion H; subst; reflexivity.
Qed.





(** * Further properties of the parser *)

(** ** The end of the input *)

(** X1.  When the scanner has no line left, [Parse] returns false and
    takes nothing: with the error of the reader if there is one, else
    with "missing end record" at the current line count if no end record
    was seen, else without error. *)
Theorem end_of_input (p : Parser) :
  err p = None -> wrap p = None -> pending (scanner p) = [] ->
  exists p',
    Parse p = Ok false p' /\
    Err p'
    = match ioerr (scanner p) with
      | Some msg => Some (ScannerError msg)
      | None =>
          if ended p then None
          else Some (ParseError (line p) "missing end record")
      end /\
    line p' = line p /\ pending (scanner p') = [] /\
    data p' = data p /\ ended p' = ended p.
Proof.
  intros Herr Hwrap Hp. rewrite Parse_unfold.
  unfold Parse_body, bind, gets. rewrite Herr, Hwrap.
  unfold scanLine, Scan. rewrite Hp. simpl.
  destruct (ioerr (scanner p)) as [msg |]; simpl.
  - eexists. split; [reflexivity |]. simpl. auto 10.
  - destruct (ended p) eqn:He; simpl;
      (eexists; split; [reflexivity |]); simpl; auto 10.
Qed.

Lemma end_of_input_witness :
  exists p',
    Parse (NewParser [] None) = Ok false p' /\
    Err p' = Some (ParseError 0 "missing end record") /\
    line p' = 0 /\ pending (scanner p') = [] /\
    data p' = data (NewParser [] None) /\ ended p' = false.
Proof.
  apply (end_of_input (NewParser [] None)); reflexivity.
Defined.

(** ** Lines that are not records *)

(** X2.  A non-empty line that does not begin with the record mark is
    counted and answered with "missing record mark"; [Parse] returns
    false and nothing of the line is interpreted. *)
Theorem missing_record_mark
    (p : Parser) (ln : bslice) (rest : list bslice) (c : ascii)
    (s : list ascii) :
  err p = None -> wrap p = None -> ended p = false ->
  pending (scanner p) = ln :: rest ->
  vis ln = c :: s -> c <> ":"%char ->
  exists p',
    Parse p = Ok false p' /\
    Err p' = Some (ParseError (line p + 1) "missing record mark") /\
    pending (scanner p') = rest /\ data p' = data p /\
    useSBA p' = useSBA p /\ useLBA p' = useLBA p /\
    CSIP p' = CSIP p /\ EIP p' = EIP p.
Proof.
  intros Herr Hwrap Hended Hp Hvis Hc. rewrite Parse_unfold.
  unfold Parse_body. stepped. rewrite Herr. cbv iota.
  stepped. rewrite Hwrap. cbv iota.
  called (scanLine_ready p ln rest Hended Hp). cbn [negb].
  stepped. cbn [token scanner set_line set_scanner]. rewrite Hvis.
  apply Ascii.eqb_neq in Hc. rewrite Hc. cbn [negb].
  unfold fail. stepped. unfold ret.
  eexists. split; [reflexivity |]. simpl. auto 10.
Qed.

Lemma missing_record_mark_witness :
  exists p',
    Parse beforeUnmarked = Ok false p' /\
    Err p' = Some (ParseError 1 "missing record mark") /\
    pending (scanner p') = [] /\ data p' = data beforeUnmarked /\
    useSBA p' = false /\ useLBA p' = false /\
    CSIP p' = CSIP beforeUnmarked /\ EIP p' = EIP beforeUnmarked.
Proof.
  apply (missing_record_mark beforeUnmarked (lineOf "00000001FF" "") []
           "0"%char (list_ascii_of_string "0000001FF"));
    try reflexivity.
  discriminate.
Defined.

(** X3.  Before the end record a blank line is counted and skipped:
    [Parse] goes on with the next line, and only the scanner and the line
    counter have changed. *)
Theorem blank_line_is_skipped
    (p : Parser) (ln : bslice) (rest : list bslice) :
  err p = None -> wrap p = None -> ended p = false ->
  pending (scanner p) = ln :: rest -> vis ln = [] ->
  Parse p
  = Parse (set_line (line p + 1)
             (set_scanner
                (mkScanner rest ln (delivered (scanner p) + 1)
                   (ioerr (scanner p))) p)).
Proof.
  intros Herr Hwrap Hended Hp Hvis. rewrite Parse_unfold.
  unfold Parse_body. stepped. rewrite Herr. cbv iota.
  stepped. rewrite Hwrap. cbv iota.
  called (scanLine_ready p ln rest Hended Hp). cbn [negb].
  stepped. cbn [token scanner set_line set_scanner]. rewrite Hvis.
  reflexivity.
Qed.

Lemma blank_line_is_skipped_witness :
  Parse beforeBlank
  = Parse (set_line (0 + 1)
             (set_scanner
                (mkScanner [lineOf ":00000001FF" ""] (lineOf "" "") (0 + 1)
                   None) beforeBlank)).
Proof.
  apply (blank_line_is_skipped beforeBlank (lineOf "" "")
           [lineOf ":00000001FF" ""]); reflexivity.
Defined.

(** ** What the result of [Parse] means *)

Lemma Parse_loop_last (fuel : nat) :
  forall p r p',
    Parse_loop fuel p = Ok r p' ->
    exists q, Parse_body q = Ok (Return r) p'.
Proof.
  induction fuel as [| fuel IH]; intros p r p' H; [discriminate H |].
  simpl in H.
  destruct (Parse_body p) as [[r0 |] q | msg |] eqn:Hb; try discriminate H.
  - inversion H; subst. exists p. exact Hb.
  - eapply IH. eassumption.
Qed.

Lemma scanLine_false_meaning (q p' : Parser) :
  scanLine q = Ok false p' ->
  err p' <> None \/ ended p' = true /\ pending (scanner p') = [].
Proof.
  unfold scanLine, Scan. intros H.
  destruct (pending (scanner q)) as [| t rest]; simpl in H.
  - destruct (ioerr (scanner q)); simpl in H.
    + inversion H; subst. left. discriminate.
    + destruct (ended q) eqn:He; simpl in H; inversion H; subst; simpl.
      * right. auto.
      * left. discriminate.
  - destruct (ended q); [| discriminate H].
    inversion H; subst. left. discriminate.
Qed.

(** X4.  [Parse] returns true only with no error recorded, and false only
    with an error recorded or when the input is used up after the end
    record. *)
Theorem Parse_result_meaning (p p' : Parser) (r : bool) :
  Parse p = Ok r p' ->
  (r = true -> Err p' = None) /\
  (r = false ->
   Err p' <> None \/ ended p' = true /\ pending (scanner p') = []).
Proof.
  unfold Parse, Err. intros H.
  apply Parse_loop_last in H as [q Hb].
  unfold Parse_body in Hb. inv_monad Hb.
  - split; [discriminate | intros _; left; congruence].
  - split; [intros _; exact Heqo | discriminate].
  - split; [discriminate | intros _].
    match goal with
    | Hs : scanLine _ = Ok ?a _, Hn : negb ?a = true |- _ =>
        destruct a; [discriminate Hn | apply scanLine_false_meaning in Hs]
    end.
    assumption.
  - split; [discriminate | intros _; left; discriminate].
  - match goal with
    | Hf : parseFields _ = Ok _ _ |- _ =>
        unfold parseFields in Hf; inv_monad Hf
    end.
    all: split; intros Hr; try discriminate Hr;
      first [assumption | left; congruence].
Qed.

Lemma Parse_result_meaning_witness :
  (true = true -> Err (afterParse exampleInput) = None) /\
  (true = false ->
   Err (afterParse exampleInput) <> None \/
   ended (afterParse exampleInput) = true /\
   pending (scanner (afterParse exampleInput)) = []).
Proof.
  apply (Parse_result_meaning (fromString exampleInput)).
  vm_compute. reflexivity.
Defined.

(** X5.  Once the end record has been seen and no record is pending,
    [Parse] delivers nothing more: every call returns false and leaves
    the current record and the end flag alone. *)
Theorem nothing_after_end_record (p : Parser) :
  ended p = true -> wrap p = None ->
  exists p',
    Parse p = Ok false p' /\ ended p' = true /\ data p' = data p /\
    wrap p' = None.
Proof.
  intros Hended Hwrap. rewrite Parse_unfold.
  unfold Parse_body, bind, gets.
  destruct (err p) as [e |] eqn:Herr.
  - exists p. auto.
  - rewrite Hwrap. unfold scanLine, Scan.
    destruct (pending (scanner p)) as [| t rest]; simpl.
    + destruct (ioerr (scanner p)); simpl.
      * eexists. split; [reflexivity |]. simpl. auto.
      * rewrite Hended. simpl. eexists. split; [reflexivity |]. simpl. auto.
    + rewrite Hended. simpl. eexists. split; [reflexivity |]. simpl. auto.
Qed.

Lemma nothing_after_end_record_witness :
  exists p',
    Parse afterExample = Ok false p' /\ ended p' = true /\
    data p' = data afterExample /\ wrap p' = None.
Proof.
  apply (nothing_after_end_record afterExample); vm_compute; reflexivity.
Defined.

(** ** Line numbers of errors *)

#[local] Instance errs_at_line_preorder :
  RelationClasses.PreOrder errs_at_line.
Proof.
  split.
  - intros p. split; auto.
  - intros p q r [Hl1 He1] [Hl2 He2]. split; [congruence |].
    intros n msg Hr. destruct (He2 n msg Hr) as [Hq | Hn].
    + apply He1. exact Hq.
    + right. congruence.
Qed.

Create HintDb errline_db.

Ltac errline_update :=
  intros; unfold errs_at_line, fail, makeError, setBytes, setAddress; simpl;
  repeat match goal with
         | |- context [match ?c with _ => _ end] => destruct c eqn:?
         end; simpl;
  (split; [reflexivity |]);
  intros ? ? Herrline;
  first [ left; exact Herrline
        | right; inversion Herrline; reflexivity ].

Ltac errline_walk :=
  repeat monadic_step ltac:(auto with errline_db nocore)
    (preserves_ret errs_at_line) (preserves_gets errs_at_line)
    (preserves_panic errs_at_line) (preserves_bind errs_at_line);
  try (apply preserves_modify; errline_update).

Lemma errline_readFieldInto (n : Z) (dst : fslice) :
  preserves errs_at_line (readFieldInto n dst).
Proof.
  intros p r p' H. readFieldInto_cases H; unfold errs_at_line; simpl;
    (split; [reflexivity |]); intros k msg Hk;
    try (left; exact Hk);
    try (right; inversion Hk; reflexivity).
  all: match goal with
       | Hd : hexDecode _ = (_, ?o) |- _ =>
           subst o; apply hexDecode_error_kind in Hd as [Hd | [c Hd]];
           discriminate Hd
       end.
Qed.

Lemma errline_index (s : fslice) (i : nat) :
  preserves errs_at_line (index s i).
Proof.
  intros p r p' H. unfold index in H.
  destruct (i <? size s)%nat; inversion H; subst. reflexivity.
Qed.

Lemma errline_readField (n : Z) : preserves errs_at_line (readField n).
Proof. apply errline_readFieldInto. Qed.

#[local] Hint Resolve errline_readFieldInto errline_index errline_readField
  : errline_db.

Lemma errline_readByteField : preserves errs_at_line readByteField.
Proof. unfold readByteField. errline_walk. Qed.

Lemma errline_readWordField : preserves errs_at_line readWordField.
Proof. unfold readWordField. errline_walk. Qed.

#[local] Hint Resolve errline_readByteField errline_readWordField
  : errline_db.

Lemma errline_checkRecLen (rectyp reclen : Z) :
  preserves errs_at_line (checkRecLen rectyp reclen).
Proof. unfold checkRecLen. errline_walk. Qed.

Lemma errline_endRecord : preserves errs_at_line endRecord.
Proof. unfold endRecord. errline_walk. Qed.

Lemma errline_slice_from (s : fslice) (k : Z) :
  preserves errs_at_line (slice_from s k).
Proof. unfold slice_from. errline_walk. Qed.

Lemma errline_slice_to (s : fslice) (k : Z) :
  preserves errs_at_line (slice_to s k).
Proof. unfold slice_to. errline_walk. Qed.

#[local] Hint Resolve errline_checkRecLen errline_endRecord
  errline_slice_from errline_slice_to : errline_db.

Lemma errline_parseData (reclen offset : Z) :
  preserves errs_at_line (parseData reclen offset).
Proof. unfold parseData. errline_walk. Qed.

#[local] Hint Resolve errline_parseData : errline_db.

Lemma errline_parseInfo (rectyp reclen offset : Z) :
  preserves errs_at_line (parseInfo rectyp reclen offset).
Proof. unfold parseInfo. errline_walk. Qed.

#[local] Hint Resolve errline_parseInfo : errline_db.

Lemma errline_parseFields : preserves errs_at_line parseFields.
Proof. unfold parseFields. errline_walk. Qed.

Lemma scanLine_false_error_line (p q : Parser) :
  scanLine p = Ok false q ->
  forall n msg, err q = Some (ParseError n msg) -> n = line q.
Proof.
  unfold scanLine, Scan. intros H n msg Hn.
  destruct (pending (scanner p)) as [| t rest]; simpl in H.
  - destruct (ioerr (scanner p)); simpl in H.
    + inversion H; subst. discriminate Hn.
    + destruct (ended p); simpl in H; inversion H; subst; simpl in *;
        [discriminate Hn | inversion Hn; reflexivity].
  - destruct (ended p); [| discriminate H].
    inversion H; subst. simpl in *. inversion Hn. reflexivity.
Qed.

Lemma error_line_Parse_body (p p' : Parser) (c : ctl) :
  error_line p -> Parse_body p = Ok c p' -> error_line p'.
Proof.
  intros HI H. unfold Parse_body in H. inv_monad H;
    try (match goal with HI : error_line _ |- _ => exact HI end).
  all: match goal with
       | Hs : scanLine _ = Ok ?a _, Hb : negb ?a = true |- _ =>
           destruct a; [discriminate Hb | clear Hb];
           pose proof (scanLine_false_error_line _ _ Hs) as Hfalse
       | Hs : scanLine _ = Ok ?a _, Hb : negb ?a = false |- _ =>
           destruct a; [clear Hb | discriminate Hb];
           apply scanLine_true in Hs as (t & rest & Hp & He & Hq)
       end.
  - (* no line, or a line after the end record *)
    exact Hfalse.
  - (* a blank line *)
    subst. intros n msg Hn. simpl in Hn. congruence.
  - (* no record mark *)
    subst. intros n msg Hn. simpl in *. inversion Hn. reflexivity.
  - (* a record *)
    match goal with
    | Hf : parseFields _ = Ok _ _ |- _ =>
        apply errline_parseFields in Hf as [Hl Hpe]
    end.
    subst. intros n msg Hn. destruct (Hpe n msg Hn) as [Hq | Hq].
    + simpl in Hq. congruence.
    + congruence.
Qed.

(** X6.  A [ParseError] carries the number of lines read when it was
    raised: it is the current line count, which is the number of lines
    taken from the scanner, the line of the error included, for every
    error but "record after end". *)
Theorem error_line_is_line_count (p : Parser) (n : Z) (msg : string) :
  reachable p -> Err p = Some (ParseError n msg) ->
  n = line p /\
  (msg <> "record after end"%string -> n = delivered (scanner p)).
Proof.
  intros Hr He. unfold Err in He.
  assert (HI : error_line p /\ counts_lines p).
  { apply (reachable_invariant (fun q => error_line q /\ counts_lines q));
      [| | assumption].
    - intros lines e. split.
      + intros k m Hk. discriminate Hk.
      + split; simpl; [intros [k Hk]; discriminate Hk | auto].
    - intros q c q' [H1 H2] Hb. split.
      + eapply error_line_Parse_body; eassumption.
      + eapply counts_lines_Parse_body; eassumption. }
  destruct HI as [Hline [_ Hcount]].
  pose proof (Hline n msg He) as Hn. split; [exact Hn |].
  intros Hmsg. rewrite Hn. symmetry. apply Hcount.
  intros [k Hk]. rewrite He in Hk. inversion Hk. contradiction.
Qed.

Lemma error_line_is_line_count_witness :
  1 = line afterBadChecksum /\
  ("invalid checksum"%string <> "record after end"%string ->
   1 = delivered (scanner afterBadChecksum)).
Proof.
  apply (error_line_is_line_count afterBadChecksum 1 "invalid checksum").
  - apply reachable_afterParse.
  - vm_compute. reflexivity.
Defined.

(** ** Bases and start addresses that are not set *)

#[local] Instance same_registers_preorder :
  RelationClasses.PreOrder same_registers.
Proof.
  split.
  - intros p. reflexivity.
  - intros p q r H1 H2. unfold same_registers in *. congruence.
Qed.

Create HintDb regs_db.

Ltac regs_update :=
  intros; unfold same_registers, registers, CSIP, EIP, fail, setBytes,
    setAddress; simpl;
  repeat match goal with
         | |- context [match ?c with _ => _ end] => destruct c eqn:?
         end; simpl; congruence.

Ltac regs_walk :=
  repeat monadic_step ltac:(auto with regs_db nocore)
    (preserves_ret same_registers) (preserves_gets same_registers)
    (preserves_panic same_registers) (preserves_bind same_registers);
  try (apply preserves_modify; regs_update).

Lemma regs_readFieldInto (n : Z) (dst : fslice) :
  preserves same_registers (readFieldInto n dst).
Proof.
  intros p r p' H. readFieldInto_cases H; reflexivity.
Qed.

Lemma regs_index (s : fslice) (i : nat) :
  preserves same_registers (index s i).
Proof.
  intros p r p' H. unfold index in H.
  destruct (i <? size s)%nat; inversion H; subst. reflexivity.
Qed.

Lemma regs_readField (n : Z) : preserves same_registers (readField n).
Proof. apply regs_readFieldInto. Qed.

#[local] Hint Resolve regs_readFieldInto regs_index regs_readField : regs_db.

Lemma regs_readByteField : preserves same_registers readByteField.
Proof. unfold readByteField. regs_walk. Qed.

Lemma regs_readWordField : preserves same_registers readWordField.
Proof. unfold readWordField. regs_walk. Qed.

#[local] Hint Resolve regs_readByteField regs_readWordField : regs_db.

Lemma regs_checkRecLen (rectyp reclen : Z) :
  preserves same_registers (checkRecLen rectyp reclen).
Proof. unfold checkRecLen. regs_walk. Qed.

Lemma regs_endRecord : preserves same_registers endRecord.
Proof. unfold endRecord. regs_walk. Qed.

Lemma regs_slice_from (s : fslice) (k : Z) :
  preserves same_registers (slice_from s k).
Proof. unfold slice_from. regs_walk. Qed.

Lemma regs_slice_to (s : fslice) (k : Z) :
  preserves same_registers (slice_to s k).
Proof. unfold slice_to. regs_walk. Qed.

#[local] Hint Resolve regs_checkRecLen regs_endRecord regs_slice_from
  regs_slice_to : regs_db.

Lemma regs_parseData (reclen offset : Z) :
  preserves same_registers (parseData reclen offset).
Proof. unfold parseData. regs_walk. Qed.

Lemma regs_scanLine : preserves same_registers scanLine.
Proof.
  intros p r q H. unfold scanLine in H.
  repeat match type of H with
         | match ?x with _ => _ end = _ => destruct x eqn:?
         end;
    inversion H; subst; reflexivity.
Qed.

Lemma same_registers_fields (p p' : Parser) :
  same_registers p p' ->
  (useSBA p' = useSBA p /\ useLBA p' = useLBA p /\ sba p' = sba p /\
   lba p' = lba p) /\
  (cs p' = cs p /\ ip p' = ip p /\ hasCSIP p' = hasCSIP p) /\
  (eip p' = eip p /\ hasEIP p' = hasEIP p) /\ ended p' = ended p.
Proof.
  unfold same_registers, registers, CSIP, EIP. intros H.
  injection H as H1 H2 H3 H4 H5 H6 H7 H8 H9 H10. auto 12.
Qed.

Lemma unset_same_registers (p p' : Parser) :
  same_registers p p' -> unset_is_zero p -> unset_is_zero p'.
Proof.
  intros H. unfold unset_is_zero.
  apply same_registers_fields in H
    as ((H1 & H2 & H3 & H4) & (H5 & H6 & H7) & (H8 & H9) & _).
  rewrite H1, H2, H3, H4, H5, H6, H7, H8, H9. auto.
Qed.

Lemma unset_parseInfo (rectyp reclen offset : Z) (p p' : Parser) (r : bool) :
  unset_is_zero p -> parseInfo rectyp reclen offset p = Ok r p' ->
  unset_is_zero p'.
Proof.
  intros HI H. unfold parseInfo in H. inv_monad H; try assumption.
  all: match goal with
       | Hc : endRecord _ = Ok _ _ |- _ =>
           apply regs_endRecord in Hc;
           apply (unset_same_registers _ _ Hc); clear Hc
       end.
  all: repeat match goal with
         | Hc : readWordField _ = Ok _ _ |- _ =>
             apply regs_readWordField, same_registers_fields in Hc
         | Hc : parseData _ _ _ = Ok _ _ |- _ =>
             apply regs_parseData, same_registers_fields in Hc
         end.
  all: unfold unset_is_zero in *;
    cbn -[Z.shiftl Z.lor Z.modulo Z.pow] in *.
  all: repeat match goal with
         | Hc : _ /\ _ |- _ => destruct Hc
         end.
  all: repeat split; intros; try discriminate; try reflexivity.
  all: repeat match goal with
         | Hi : ?a = false -> _ |- _ =>
             let Hx := fresh in
             first [ assert (Hx : a = false) by congruence;
                     specialize (Hi Hx)
                   | clear Hi ]
         end.
  all: repeat match goal with
         | Hc : _ /\ _ |- _ => destruct Hc
         end.
  all: congruence.
Qed.

Lemma unset_parseFields (p p' : Parser) (c : ctl) :
  unset_is_zero p -> parseFields p = Ok c p' -> unset_is_zero p'.
Proof.
  intros HI H. unfold parseFields in H.
  apply bind_Ok in H as (reclen & q1 & H1 & H).
  apply bind_Ok in H as (offset & q2 & H2 & H).
  apply bind_Ok in H as (rectyp & q3 & H3 & H).
  apply bind_Ok in H as (u & q4 & H4 & H).
  apply bind_Ok in H as (gotData & q5 & H5 & H).
  apply regs_readByteField in H1. apply regs_readWordField in H2.
  apply regs_readByteField in H3. apply regs_checkRecLen in H4.
  assert (HI5 : unset_is_zero q5).
  { eapply unset_parseInfo; [| eassumption].
    repeat (eapply unset_same_registers; [eassumption |]). assumption. }
  inv_monad H; assumption.
Qed.

Lemma unset_Parse_body (p p' : Parser) (c : ctl) :
  unset_is_zero p -> Parse_body p = Ok c p' -> unset_is_zero p'.
Proof.
  intros HI H. unfold Parse_body in H. inv_monad H; try assumption.
  all: match goal with
       | Hs : scanLine _ = Ok _ _ |- _ =>
           apply regs_scanLine in Hs;
           pose proof (unset_same_registers _ _ Hs HI) as HI'
       end; try assumption.
  match goal with
  | Hf : parseFields _ = Ok _ _ |- _ =>
      eapply unset_parseFields; [| exact Hf]
  end.
  assumption.
Qed.

(** X7.  Between calls of [Parse], a base whose mode is off is zero (the
    comment "p.sba == 0 if useSBA is false" in [parseInfo]), and the start
    addresses that [CSIP] and [EIP] report with [ok] false are zero. *)
Theorem unset_registers_are_zero (p : Parser) :
  reachable p ->
  unset_is_zero p /\
  (hasCSIP p = false -> CSIP p = (0, 0, false)) /\
  (hasEIP p = false -> EIP p = (0, false)).
Proof.
  intros Hr.
  assert (HI : unset_is_zero p).
  { apply reachable_invariant; [| | assumption].
    - intros lines e. unfold unset_is_zero. simpl. auto.
    - intros q c q'. apply unset_Parse_body. }
  split; [exact HI |].
  destruct HI as (_ & _ & H3 & H4). unfold CSIP, EIP.
  split; intros H.
  - destruct (H3 H) as [-> ->]. rewrite H. reflexivity.
  - rewrite (H4 H), H. reflexivity.
Qed.

Lemma unset_registers_are_zero_witness :
  unset_is_zero afterSegmentData /\
  (hasCSIP afterSegmentData = false -> CSIP afterSegmentData = (0, 0, false)) /\
  (hasEIP afterSegmentData = false -> EIP afterSegmentData = (0, false)).
Proof.
  apply (unset_registers_are_zero afterSegmentData).
  apply reachable_afterParse.
Defined.

(** ** What a field that was read says about the line *)

Lemma readFieldInto_success (n : Z) (dst : fslice) (p p' : Parser)
    (r : fslice) :
  byte_range n -> err p = None ->
  readFieldInto n dst p = Ok r p' -> err p' = None ->
  n < 128 /\
  exists bs,
    hexDecode (firstn (Z.to_nat (2 * n)) (vis (b p))) = (bs, None) /\
    Z.of_nat (List.length bs) = n /\
    (Z.to_nat (2 * n) <= blen (b p))%nat /\
    (List.length bs <= size dst)%nat /\
    r = mkFslice (base dst) (List.length bs) /\
    p' = consumed (write_at (base dst) bs (field p))
           (skipn (Z.to_nat (2 * n)) (vis (b p)))
           (addBytes (view (write_at (base dst) bs (field p)) r) (sum p)) p.
Proof.
  intros Hn Herr H Herr'. unfold byte_range in Hn.
  readFieldInto_cases H; simpl in Herr'; try congruence;
    try match goal with
        | Hx : err _ = Some _ |- _ => simpl in Hx; congruence
        end.
  match goal with
  | Hd : hexDecode _ = (?l, ?o), Ho : err _ = None |- _ =>
      simpl in Ho; subst o; rename Hd into Hdec; rename l into got
  end.
  match goal with
  | Hcap : (bcap _ <? _)%nat = false, Hfit : (size dst <? _)%nat = false,
    Hin : (blen _ <? _)%nat = false, Hnd : (_ <? n) = false |- _ =>
      apply Nat.ltb_ge in Hcap; apply Nat.ltb_ge in Hfit;
      apply Nat.ltb_ge in Hin; simpl in Hin; unfold blen in Hin;
      unfold bcap in Hcap; apply Z.ltb_ge in Hnd;
      rename Hcap into Hc; rename Hfit into Hf; rename Hin into Hi;
      rename Hnd into Hd
  end.
  pose proof (hexDecode_ok_length _ _ Hdec) as Hlen.
  rewrite length_firstn, length_app in Hlen.
  pose proof (Z.mod_pos_bound (n * 2) 256 ltac:(lia)) as Hhi.
  assert (Hsmall : Z.of_nat (List.length got) < 128) by lia.
  rewrite Z.mod_small in Hd by lia.
  assert (Hn128 : n < 128) by lia.
  rewrite Z.mod_small in Hdec, Hlen, Hc by lia.
  assert (Hgot : Z.of_nat (List.length got) = n) by lia.
  replace (n * 2) with (2 * n) in Hdec by lia.
  rewrite firstn_app in Hdec.
  replace (Z.to_nat (2 * n) - List.length (vis (b p)))%nat with O in Hdec
    by lia.
  rewrite firstn_O, app_nil_r in Hdec.
  split; [exact Hn128 |]. exists got.
  split; [exact Hdec |]. split; [exact Hgot |].
  split; [unfold blen; lia |]. split; [exact Hf |].
  split; [reflexivity |].
  unfold consumed. rewrite (set_err_same _ None) by assumption.
  replace (List.length got * 2)%nat with (Z.to_nat (2 * n)) by lia.
  reflexivity.
Qed.

(** X8.  [readFieldInto] hands out a field only when the line still holds
    its [2 * n] hexadecimal digits and [n] is below 128 ([n*2] is computed
    on a byte): the field is then those digits decoded, the line is
    advanced past them and the bytes are added to the checksum.  In
    particular a record that declares 128 bytes or more, or whose line is
    shorter than its length byte says, is never read. *)
Theorem field_read_needs_its_digits (n : Z) (dst : fslice) (p p' : Parser)
    (r : fslice) :
  byte_range n -> err p = None -> wf p ->
  (base dst + size dst <= 256)%nat ->
  readFieldInto n dst p = Ok r p' -> err p' = None ->
  n < 128 /\ 2 * n <= Z.of_nat (blen (b p)) /\
  r = mkFslice (base dst) (Z.to_nat n) /\
  hexDecode (firstn (Z.to_nat (2 * n)) (vis (b p)))
  = (view (field p') r, None) /\
  vis (b p') = skipn (Z.to_nat (2 * n)) (vis (b p)) /\
  sum p' = addBytes (view (field p') r) (sum p).
Proof.
  intros Hn Herr Hwf Hdst H Herr'.
  destruct (readFieldInto_success n dst p p' r Hn Herr H Herr')
    as (Hlt & bs & Hdec & Hlen & Hvis & Hfit & -> & ->).
  unfold byte_range in Hn.
  split; [exact Hlt |]. split; [lia |].
  split; [f_equal; lia |].
  cbn [consumed field set_sum set_b set_field b vis sum].
  rewrite view_write_at by (unfold wf in Hwf; lia).
  split; [exact Hdec |]. split; reflexivity.
Qed.

Lemma field_read_needs_its_digits_witness :
  2 < 128 /\ 2 * 2 <= Z.of_nat (blen (b atSegmentPayload)) /\
  mkFslice 0 2 = mkFslice (base (mkFslice 0 256)) (Z.to_nat 2) /\
  hexDecode (firstn (Z.to_nat (2 * 2)) (vis (b atSegmentPayload)))
  = (view (field (afterReadFieldInto 2 (mkFslice 0 256) atSegmentPayload))
       (mkFslice 0 2), None) /\
  vis (b (afterReadFieldInto 2 (mkFslice 0 256) atSegmentPayload))
  = skipn (Z.to_nat (2 * 2)) (vis (b atSegmentPayload)) /\
  sum (afterReadFieldInto 2 (mkFslice 0 256) atSegmentPayload)
  = addBytes
      (view (field (afterReadFieldInto 2 (mkFslice 0 256) atSegmentPayload))
         (mkFslice 0 2))
      (sum atSegmentPayload).
Proof.
  apply (field_read_needs_its_digits 2 (mkFslice 0 256) atSegmentPayload).
  - unfold byte_range. lia.
  - reflexivity.
  - reflexivity.
  - simpl. lia.
  - vm_compute. reflexivity.
  - vm_compute. reflexivity.
Defined.

(** ** Records of the wrong length *)

Lemma checkRecLen_mismatch (rectyp reclen expected : Z) (p : Parser) :
  err p = None -> 0 < rectyp ->
  nth_error reclens (Z.to_nat rectyp) = Some expected -> reclen <> expected ->
  checkRecLen rectyp reclen p
  = Ok tt (set_err (Some (ParseError (line p) "invalid record length")) p).
Proof.
  intros Herr Hpos Hnth Hne. unfold checkRecLen. stepped.
  rewrite Herr. cbv iota.
  apply Z.ltb_lt in Hpos. apply Z.eqb_neq in Hne.
  rewrite Hpos, Hnth, Hne. reflexivity.
Qed.

(** X9.  A record of type 1 to 5 whose length byte is not the one
    [reclens] asks for is rejected with "invalid record length" as soon
    as its header is read: [parseInfo] does nothing, so the base modes,
    the bases, the start addresses and the end flag keep their values,
    and the rest of the line is not looked at. *)
Theorem wrong_length_is_rejected (p : Parser) (ln : bslice)
    (rest : list bslice) (header tail : list ascii)
    (reclen oh ol rectyp expected : Z) :
  ready p ln rest ->
  vis ln = ":"%char :: header ++ tail ->
  hexDecode header = ([reclen; oh; ol; rectyp], None) ->
  0 < rectyp -> nth_error reclens (Z.to_nat rectyp) = Some expected ->
  reclen <> expected ->
  exists p',
    Parse p = Ok false p' /\
    Err p' = Some (ParseError (line p + 1) "invalid record length") /\
    same_registers p p' /\ wrap p' = None /\ vis (b p') = tail.
Proof.
  intros (Herr & Hwrap & Hended & Hwf & Hp) Hvis Hdec Hpos Hnth Hne.
  apply hexDecode_cons in Hdec as (sL & s1 & -> & HL & Hdec).
  apply hexDecode_cons2_split in Hdec as (sO & sT & -> & HO & HT).
  rewrite Parse_unfold. unfold Parse_body. stepped. rewrite Herr. cbv iota.
  stepped. rewrite Hwrap. cbv iota.
  called (scanLine_ready p ln rest Hended Hp). cbn [negb].
  stepped. cbn [token scanner set_line set_scanner]. rewrite Hvis.
  cbn [Ascii.eqb Bool.eqb negb andb]. do 2 stepped.
  unfold parseFields.
  match goal with
  | |- context [bind readByteField _ ?q] =>
      called (readByteField_decodes q sL (sO ++ sT ++ tail) reclen
                Herr ltac:(solve_wf)
                ltac:(simpl; rewrite <- !app_assoc; reflexivity) HL)
  end.
  match goal with
  | |- context [bind readWordField _ ?q] =>
      called (readWordField_decodes q sO (sT ++ tail) oh ol Herr
                ltac:(solve_wf) eq_refl HO)
  end.
  match goal with
  | |- context [bind readByteField _ ?q] =>
      called (readByteField_decodes q sT tail rectyp Herr
                ltac:(solve_wf) eq_refl HT)
  end.
  match goal with
  | |- context [bind (checkRecLen _ _) _ ?q] =>
      called (checkRecLen_mismatch rectyp reclen expected q Herr Hpos Hnth
                Hne)
  end.
  unfold parseInfo. stepped. cbn [err set_err]. stepped. cbn [negb].
  stepped. cbn [err set_err]. unfold ret.
  eexists. split; [reflexivity |].
  unfold Err, same_registers, registers, CSIP, EIP. simpl.
  rewrite Hwrap. auto.
Qed.

Lemma wrong_length_is_rejected_witness :
  exists p',
    Parse (NewParser [longEndLine] None) = Ok false p' /\
    Err p' = Some (ParseError (line (NewParser [longEndLine] None) + 1)
                     "invalid record length") /\
    same_registers (NewParser [longEndLine] None) p' /\ wrap p' = None /\
    vis (b p') = list_ascii_of_string "00FE".
Proof.
  apply (wrong_length_is_rejected (NewParser [longEndLine] None) longEndLine
           [] (list_ascii_of_string "01000001") (list_ascii_of_string "00FE")
           1 0 0 1 0).
  - unfold ready, wf. simpl. auto.
  - reflexivity.
  - vm_compute. reflexivity.
  - lia.
  - reflexivity.
  - lia.
Defined.

(** ** A data record in two parts *)

(** With a record pending, [Parse] hands it out without reading a line. *)
Lemma Parse_pending (p : Parser) (w : Rec) :
  err p = None -> wrap p = Some w ->
  Parse p = Ok true (set_wrap None (set_data w p)).
Proof.
  intros Herr Hwrap. rewrite Parse_unfold. unfold Parse_body.
  stepped. rewrite Herr. cbv iota. stepped. rewrite Hwrap. cbv iota.
  do 2 stepped. reflexivity.
Qed.

(** X10.  Outside linear-base mode, a valid data record that reaches past
    offset 0xFFFF costs two calls of [Parse]: the first hands out the
    first [extra] bytes of the data at the address of the record, the
    second hands out the other bytes at the address kept in [p.wrap],
    without reading a line. *)
Theorem split_record_two_pulls (p : Parser) (ln : bslice)
    (rest : list bslice) (reclen oh ol : Z) (payload : list Z) (cc : Z) :
  ready p ln rest ->
  record_text (vis ln) reclen oh ol 0 payload cc [] ->
  record_shape reclen 0 payload ->
  byteSum (record_bytes reclen oh ol 0 payload cc) mod 256 = 0 ->
  useLBA p = false -> 0 < overflow (word oh ol) payload ->
  exists p1 p2,
    Parse p = Ok true p1 /\ Parse p1 = Ok true p2 /\
    Data p1
    = (dataAddress p (word oh ol),
       firstn (Z.to_nat (overflow (word oh ol) payload)) payload) /\
    Data p2
    = ((sba p
        + Z.land ((word oh ol + Z.of_nat (List.length payload) - 1)
                    mod 2 ^ 32) 0xffff) mod 2 ^ 32,
       skipn (Z.to_nat (overflow (word oh ol) payload)) payload) /\
    scanner p2 = scanner p1 /\ wrap p2 = None /\ Err p2 = None.
Proof.
  intros Hready Htext Hshape Hsum Hlin Hover.
  destruct (Parse_known_data p ln rest reclen oh ol payload cc
              Hready Htext Hshape Hsum)
    as (p1 & Hrun & Herr1 & _ & Heff).
  unfold record_effect in Heff. destruct Heff as [Haddr Heff].
  apply Z.ltb_lt in Hover as Hover'.
  rewrite Hlin, Hover' in Heff. cbn [negb andb] in Heff.
  destruct Heff as (Hdata & w & Hwrap & Haw & Hbw).
  exists p1, (set_wrap None (set_data w p1)).
  split; [exact Hrun |].
  split; [exact (Parse_pending p1 w Herr1 Hwrap) |].
  split.
  - unfold Data in *. simpl in Hdata. rewrite Haddr, Hdata. reflexivity.
  - split; [| auto].
    unfold Data. cbn [data set_wrap set_data field].
    rewrite Haw, Hbw. reflexivity.
Qed.

Lemma split_record_two_pulls_witness :
  exists p1 p2,
    Parse beforeWrap = Ok true p1 /\ Parse p1 = Ok true p2 /\
    Data p1
    = (dataAddress beforeWrap (word 0xFF 0xFF),
       firstn (Z.to_nat (overflow (word 0xFF 0xFF) [1; 2; 3])) [1; 2; 3]) /\
    Data p2
    = ((sba beforeWrap
        + Z.land ((word 0xFF 0xFF + Z.of_nat (List.length [1; 2; 3]) - 1)
                    mod 2 ^ 32) 0xffff) mod 2 ^ 32,
       skipn (Z.to_nat (overflow (word 0xFF 0xFF) [1; 2; 3])) [1; 2; 3]) /\
    scanner p2 = scanner p1 /\ wrap p2 = None /\ Err p2 = None.
Proof.
  apply (split_record_two_pulls beforeWrap wrapLine [] 3 0xFF 0xFF [1; 2; 3]
           0xF9).
  - unfold ready, wf. simpl. auto.
  - exists (list_ascii_of_string "03FFFF00010203F9").
    split; [reflexivity | vm_compute; reflexivity].
  - unfold record_shape. simpl. split; [reflexivity |]. split; [lia | auto].
  - reflexivity.
  - reflexivity.
  - vm_compute. reflexivity.
Defined.

(** ** Panics *)

Lemma bind_stop (A B : Type) (m : M A) (k : A -> M B) (p : Parser)
    (msg : string) :
  m p = Panic msg -> bind m k p = Panic msg.
Proof. intros H. unfold bind. rewrite H. reflexivity. Qed.

(** X11.  Every record whose type byte is above 5 makes [Parse] panic in
    [checkRecLen], whatever its length byte says and whatever follows the
    type on the line: the payload and the checksum are not looked at. *)
Theorem unknown_type_panics (p : Parser) (ln : bslice) (rest : list bslice)
    (header tail : list ascii) (reclen oh ol rectyp : Z) :
  ready p ln rest ->
  vis ln = ":"%char :: header ++ tail ->
  hexDecode header = ([reclen; oh; ol; rectyp], None) ->
  5 < rectyp ->
  Parse p = Panic index_out_of_range.
Proof.
  intros (Herr & Hwrap & Hended & Hwf & Hp) Hvis Hdec Hty.
  apply hexDecode_cons in Hdec as (sL & s1 & -> & HL & Hdec).
  apply hexDecode_cons2_split in Hdec as (sO & sT & -> & HO & HT).
  rewrite Parse_unfold. unfold Parse_body. stepped. rewrite Herr. cbv iota.
  stepped. rewrite Hwrap. cbv iota.
  called (scanLine_ready p ln rest Hended Hp). cbn [negb].
  stepped. cbn [token scanner set_line set_scanner]. rewrite Hvis.
  cbn [Ascii.eqb Bool.eqb negb andb]. do 2 stepped.
  unfold parseFields.
  match goal with
  | |- context [bind readByteField _ ?q] =>
      called (readByteField_decodes q sL (sO ++ sT ++ tail) reclen
                Herr ltac:(solve_wf)
                ltac:(simpl; rewrite <- !app_assoc; reflexivity) HL)
  end.
  match goal with
  | |- context [bind readWordField _ ?q] =>
      called (readWordField_decodes q sO (sT ++ tail) oh ol Herr
                ltac:(solve_wf) eq_refl HO)
  end.
  match goal with
  | |- context [bind readByteField _ ?q] =>
      called (readByteField_decodes q sT tail rectyp Herr
                ltac:(solve_wf) eq_refl HT)
  end.
  match goal with
  | |- context [bind (checkRecLen _ _) ?k ?q] =>
      rewrite (bind_stop _ _ _ k q _
                 (checkRecLen_unknown_type rectyp reclen q Herr Hty))
  end.
  reflexivity.
Qed.

Lemma unknown_type_panics_witness :
  Parse (NewParser [unknownTypeLine] None) = Panic index_out_of_range.
Proof.
  apply (unknown_type_panics (NewParser [unknownTypeLine] None)
           unknownTypeLine [] (list_ascii_of_string "0000000A")
           (list_ascii_of_string "F6") 0 0 0 10).
  - unfold ready, wf. simpl. auto.
  - reflexivity.
  - vm_compute. reflexivity.
  - lia.
Defined.

(** ** Where [Parse] can panic *)

Lemma hexDecode_invalid_head (c : ascii) (l : list ascii) :
  fromHexChar c = None -> hexDecode (c :: l) = ([], Some (InvalidByteError c)).
Proof. intros Hc. destruct l; simpl; rewrite Hc; reflexivity. Qed.

Lemma hexDecode_stops (c : ascii) (rest : list ascii) :
  fromHexChar c = None ->
  forall v k bs e,
    hexDecode (firstn k (v ++ c :: rest)) = (bs, e) ->
    (2 * List.length bs <= List.length v)%nat.
Proof.
  intros Hc v.
  induction v as [| a | a1 a2 v IH] using pair_induction; intros k bs e H.
  - destruct k as [| k].
    + inversion H. simpl. lia.
    + change (firstn (S k) ([] ++ c :: rest)) with (c :: firstn k rest) in H.
      rewrite (hexDecode_invalid_head c _ Hc) in H.
      inversion H. simpl. lia.
  - destruct k as [| [| k]].
    + inversion H. simpl. lia.
    + simpl in H. destruct (fromHexChar a); inversion H; simpl; lia.
    + change (firstn (S (S k)) ([a] ++ c :: rest))
        with (a :: c :: firstn k rest) in H.
      rewrite hexDecode_cons2, Hc in H.
      destruct (fromHexChar a); inversion H; simpl; lia.
  - destruct k as [| [| k]].
    + inversion H. simpl. lia.
    + simpl in H. destruct (fromHexChar a1); inversion H; simpl; lia.
    + change (firstn (S (S k)) ((a1 :: a2 :: v) ++ c :: rest))
        with (a1 :: a2 :: firstn k (v ++ c :: rest)) in H.
      rewrite hexDecode_cons2 in H.
      destruct (fromHexChar a1); [| inversion H; simpl; lia].
      destruct (fromHexChar a2); [| inversion H; simpl; lia].
      destruct (hexDecode (firstn k (v ++ c :: rest))) as [bs' e'] eqn:Hd.
      inversion H; subst. specialize (IH _ _ _ Hd). simpl. lia.
Qed.

Lemma roomy_slack (ln : bslice) :
  roomy ln = true ->
  (255 <= List.length (slack ln))%nat /\
  exists c rest, slack ln = c :: rest /\ fromHexChar c = None.
Proof.
  unfold roomy. intros H. apply andb_prop in H as [H1 H2].
  apply Nat.leb_le in H1. split; [exact H1 |].
  destruct (slack ln) as [| c rest]; [discriminate H2 |].
  destruct (fromHexChar c) eqn:Hc; [discriminate H2 |].
  exists c, rest. auto.
Qed.

Lemma bind_Panic (A B : Type) (m : M A) (k : A -> M B) (p : Parser)
    (msg : string) :
  bind m k p = Panic msg ->
  m p = Panic msg \/ exists a q, m p = Ok a q /\ k a q = Panic msg.
Proof.
  unfold bind. destruct (m p) as [a q | msg' |]; intros H.
  - right. exists a, q. auto.
  - left. inversion H. reflexivity.
  - discriminate H.
Qed.

(** [readFieldInto] stays within the line and within [field] when the
    line is followed by enough of the buffer. *)
Lemma readFieldInto_safe (n : Z) (dst : fslice) (p : Parser) (msg : string) :
  roomy (b p) = true ->
  (Z.to_nat ((n * 2) mod 256) <= 2 * size dst + 1)%nat ->
  readFieldInto n dst p <> Panic msg.
Proof.
  intros Hroom Hdst H. apply roomy_slack in Hroom as (Hlen & c & rest & Hs & Hc).
  pose proof (Z.mod_pos_bound (n * 2) 256 ltac:(lia)) as Hhi.
  unfold readFieldInto in H.
  destruct (err p); [discriminate H |].
  destruct (bcap (b p) <? Z.to_nat ((n * 2) mod 256))%nat eqn:Hcap.
  { apply Nat.ltb_lt in Hcap. unfold bcap in Hcap. lia. }
  destruct (hexDecode _) as [bs e] eqn:Hdec.
  pose proof (hexDecode_length_le _ _ _ Hdec) as Hle.
  rewrite length_firstn in Hle.
  rewrite Hs in Hdec. apply (hexDecode_stops c rest Hc) in Hdec.
  destruct (size dst <? List.length bs)%nat eqn:Hfit.
  { apply Nat.ltb_lt in Hfit. lia. }
  cbn [b set_err set_field] in H.
  destruct (blen (b p) <? List.length bs * 2)%nat eqn:Hin.
  { apply Nat.ltb_lt in Hin. unfold blen in Hin. lia. }
  repeat match type of H with
         | match ?x with _ => _ end = _ => destruct x
         end; discriminate H.
Qed.

Lemma readFieldInto_after_error (n : Z) (dst : fslice) (p p' : Parser)
    (r : fslice) :
  readFieldInto n dst p = Ok r p' -> err p' = None -> err p = None.
Proof.
  intros H Herr'. destruct (err p) as [e |] eqn:Herr; [| reflexivity].
  unfold readFieldInto in H. rewrite Herr in H. inversion H; subst.
  congruence.
Qed.

Lemma nth_write_at (fld bs : list Z) (k i : nat) (d : Z) :
  (k + List.length bs <= List.length fld)%nat -> (i < List.length bs)%nat ->
  nth (k + i) (write_at k bs fld) d = nth i bs d.
Proof.
  intros Hk Hi.
  rewrite (nth_view _ (mkFslice k (List.length bs)) i d) by exact Hi.
  rewrite view_write_at by exact Hk. reflexivity.
Qed.

(** What a header field that was read says about the line. *)
Lemma readByteField_success (p p' : Parser) (v : Z) :
  wf p -> readByteField p = Ok v p' -> err p' = None ->
  err p = None /\ wf p' /\
  exists s1, vis (b p) = s1 ++ vis (b p') /\ hexDecode s1 = ([v], None).
Proof.
  intros Hwf H Herr'. unfold readByteField, readField in H.
  apply bind_Ok in H as (bytes & q & H1 & H).
  unfold bind, gets in H. destruct (err q) eqn:Hq.
  { inversion H; subst. congruence. }
  unfold index in H. destruct (0 <? size bytes)%nat; [| discriminate H].
  inversion H; subst p' v. clear H.
  pose proof (readFieldInto_after_error _ _ _ _ _ H1 Hq) as Herr.
  destruct (readFieldInto_success 1 (mkFslice 0 256) p q bytes
              ltac:(unfold byte_range; lia) Herr H1 Hq)
    as (_ & bs & Hdec & Hlen & Hvis & _ & -> & ->).
  destruct bs as [| x [| y bs]]; simpl in Hlen; try lia.
  split; [exact Herr |]. split; [solve_wf |].
  exists (firstn (Z.to_nat (2 * 1)) (vis (b p))).
  cbn [consumed b set_sum set_b set_field vis field base size].
  split; [symmetry; apply firstn_skipn |].
  rewrite Hdec. do 2 f_equal.
  rewrite (nth_write_at (field p) [x] 0 0)
    by (unfold wf in Hwf; simpl; lia).
  reflexivity.
Qed.

Lemma readWordField_success (p p' : Parser) (w : Z) :
  wf p -> readWordField p = Ok w p' -> err p' = None ->
  err p = None /\ wf p' /\
  exists s1 hi lo,
    vis (b p) = s1 ++ vis (b p') /\ hexDecode s1 = ([hi; lo], None) /\
    w = word hi lo.
Proof.
  intros Hwf H Herr'. unfold readWordField, readField in H.
  apply bind_Ok in H as (bytes & q & H1 & H).
  unfold bind, gets in H. destruct (err q) eqn:Hq.
  { inversion H; subst. congruence. }
  unfold index, ret in H.
  destruct (0 <? size bytes)%nat; [| discriminate H].
  destruct (1 <? size bytes)%nat; [| discriminate H].
  inversion H; subst p' w. clear H.
  pose proof (readFieldInto_after_error _ _ _ _ _ H1 Hq) as Herr.
  destruct (readFieldInto_success 2 (mkFslice 0 256) p q bytes
              ltac:(unfold byte_range; lia) Herr H1 Hq)
    as (_ & bs & Hdec & Hlen & Hvis & _ & -> & ->).
  destruct bs as [| x [| y [| z bs]]]; simpl in Hlen; try lia.
  split; [exact Herr |]. split; [solve_wf |].
  exists (firstn (Z.to_nat (2 * 2)) (vis (b p))), x, y.
  cbn [consumed b set_sum set_b set_field vis field base size].
  split; [symmetry; apply firstn_skipn |].
  split; [exact Hdec |].
  rewrite (nth_write_at (field p) [x; y] 0 0)
    by (unfold wf in Hwf; simpl; lia).
  rewrite (nth_write_at (field p) [x; y] 0 1)
    by (unfold wf in Hwf; simpl; lia).
  cbn [nth].
  apply hexDecode_range in Hdec.
  inversion Hdec as [| ? ? Hx Hrest]; subst.
  inversion Hrest as [| ? ? Hy _]; subst.
  apply word_lor; assumption.
Qed.

Lemma readWordField_range (p p' : Parser) (w : Z) :
  wf p -> readWordField p = Ok w p' -> 0 <= w < 65536.
Proof.
  intros Hwf H. destruct (err p') eqn:Herr'.
  - unfold readWordField in H. apply bind_Ok in H as (bytes & q & H1 & H).
    unfold bind, gets in H. destruct (err q) eqn:Hq.
    + inversion H. lia.
    + unfold index, ret in H.
      destruct (0 <? size bytes)%nat; [| discriminate H].
      destruct (1 <? size bytes)%nat; [| discriminate H].
      inversion H; subst. congruence.
  - destruct (readWordField_success p p' w Hwf H Herr')
      as (_ & _ & s1 & hi & lo & _ & Hdec & ->).
    apply hexDecode_range in Hdec.
    inversion Hdec as [| ? ? Hx Hrest]; subst.
    inversion Hrest as [| ? ? Hy _]; subst.
    apply word_range; assumption.
Qed.

#[local] Instance same_slack_preorder : RelationClasses.PreOrder same_slack.
Proof.
  split.
  - intros p. reflexivity.
  - intros p q r H1 H2. unfold same_slack in *. congruence.
Qed.

Create HintDb slack_db.

Ltac slack_update :=
  intros; unfold same_slack, fail, setBytes, setAddress; simpl;
  repeat match goal with
         | |- context [match ?c with _ => _ end] => destruct c eqn:?
         end; simpl; auto.

Ltac slack_walk :=
  repeat monadic_step ltac:(auto with slack_db nocore)
    (preserves_ret same_slack) (preserves_gets same_slack)
    (preserves_panic same_slack) (preserves_bind same_slack);
  try (apply preserves_modify; slack_update).

Lemma slack_readFieldInto (n : Z) (dst : fslice) :
  preserves same_slack (readFieldInto n dst).
Proof.
  intros p r p' H. readFieldInto_cases H; reflexivity.
Qed.

Lemma slack_index (s : fslice) (i : nat) : preserves same_slack (index s i).
Proof.
  intros p r p' H. unfold index in H.
  destruct (i <? size s)%nat; inversion H; subst. reflexivity.
Qed.

Lemma slack_readField (n : Z) : preserves same_slack (readField n).
Proof. apply slack_readFieldInto. Qed.

#[local] Hint Resolve slack_readFieldInto slack_index slack_readField
  : slack_db.

Lemma slack_readByteField : preserves same_slack readByteField.
Proof. unfold readByteField. slack_walk. Qed.

Lemma slack_readWordField : preserves same_slack readWordField.
Proof. unfold readWordField. slack_walk. Qed.

#[local] Hint Resolve slack_readByteField slack_readWordField : slack_db.

Lemma slack_checkRecLen (rectyp reclen : Z) :
  preserves same_slack (checkRecLen rectyp reclen).
Proof. unfold checkRecLen. slack_walk. Qed.

Lemma roomy_same_slack (p p' : Parser) :
  same_slack p p' -> roomy (b p) = true -> roomy (b p') = true.
Proof. unfold same_slack, roomy. intros ->. auto. Qed.

(** Take a hypothesis [m p = Panic msg] apart along the binds of [m]. *)
Ltac inv_panic H :=
  lazymatch type of H with
  | bind _ _ _ = Panic _ =>
      let a := fresh "a" in
      let q := fresh "q" in
      let H1 := fresh "Hm" in
      let H2 := fresh "Hk" in
      apply bind_Panic in H as [H | (a & q & H1 & H2)];
      [inv_panic H | inv_monad H1; inv_panic H2]
  | gets _ _ = Panic _ => discriminate H
  | ret _ _ = Panic _ => discriminate H
  | modify _ _ = Panic _ => discriminate H
  | fail _ _ = Panic _ => discriminate H
  | (match ?x with _ => _ end) _ = Panic _ => destruct x eqn:?; inv_panic H
  | _ => idtac
  end.

(** After a field of [n] bytes was read, its window has [n] entries. *)
Ltac field_size n :=
  match goal with
  | Hr : readFieldInto _ _ _ = Ok ?r ?q, He : err ?q = None |- _ =>
      let Herr := fresh "Herr" in
      let bs := fresh "bs" in
      let Hlen := fresh "Hlen" in
      pose proof (readFieldInto_after_error _ _ _ _ _ Hr He) as Herr;
      destruct (readFieldInto_success n _ _ _ _
                  ltac:(unfold byte_range; lia) Herr Hr He)
        as (_ & bs & _ & Hlen & _ & _ & -> & _);
      repeat match goal with
             | Hp : index _ _ _ = _ |- _ =>
                 unfold index in Hp; cbn [size] in Hp
             end;
      destruct bs as [| ? [| ? ?]]; simpl in Hlen; try lia
  end.

Lemma readByteField_safe (p : Parser) (msg : string) :
  roomy (b p) = true -> readByteField p <> Panic msg.
Proof.
  intros Hroom H. unfold readByteField, readField in H. inv_panic H.
  - revert H. apply readFieldInto_safe; [exact Hroom | simpl; lia].
  - field_size 1. simpl in *. discriminate.
Qed.

Lemma readWordField_safe (p : Parser) (msg : string) :
  roomy (b p) = true -> readWordField p <> Panic msg.
Proof.
  intros Hroom H. unfold readWordField, readField in H. inv_panic H.
  - revert H. apply readFieldInto_safe; [exact Hroom | simpl; lia].
  - field_size 2. simpl in *. discriminate.
  - field_size 2. simpl in *. discriminate.
Qed.

Lemma endRecord_safe (p : Parser) (msg : string) :
  roomy (b p) = true -> endRecord p <> Panic msg.
Proof.
  intros Hroom H. unfold endRecord in H. inv_panic H.
  revert H. apply readFieldInto_safe; [exact Hroom | simpl; lia].
Qed.

Lemma checkRecLen_Panic (rectyp reclen : Z) (p : Parser) (msg : string) :
  checkRecLen rectyp reclen p = Panic msg ->
  msg = index_out_of_range /\ 5 < rectyp /\ err p = None.
Proof.
  intros H. unfold checkRecLen in H. inv_panic H.
  match goal with
  | Hn : nth_error reclens _ = None |- _ =>
      apply nth_error_None in Hn; simpl in Hn
  end.
  match goal with
  | Hp : (0 <? rectyp) = true |- _ => apply Z.ltb_lt in Hp
  end.
  match goal with
  | Hp : panic _ _ = Panic _ |- _ => unfold panic in Hp; inversion Hp
  end.
  split; [reflexivity |]. split; [lia | auto].
Qed.

Lemma readFieldInto_window (n : Z) (dst : fslice) (p p' : Parser)
    (r : fslice) :
  readFieldInto n dst p = Ok r p' ->
  r = nilSlice \/ base r = base dst /\ (size r <= size dst)%nat.
Proof.
  intros H. readFieldInto_cases H; auto.
  right. simpl. split; [reflexivity |].
  match goal with
  | Hfit : (size dst <? _)%nat = false |- _ => apply Nat.ltb_ge in Hfit
  end.
  assumption.
Qed.

Lemma readField_safe (n : Z) (p : Parser) (msg : string) :
  roomy (b p) = true -> readField n p <> Panic msg.
Proof.
  intros Hroom. apply readFieldInto_safe; [exact Hroom |].
  pose proof (Z.mod_pos_bound (n * 2) 256 ltac:(lia)). simpl. lia.
Qed.

Lemma parseData_safe (reclen offset : Z) (p : Parser) (msg : string) :
  roomy (b p) = true -> 0 <= offset < 65536 ->
  parseData reclen offset p <> Panic msg.
Proof.
  intros Hroom Hoff H. unfold parseData in H.
  inv_panic H; [revert H; apply readField_safe; exact Hroom | ..].
  all: match goal with
       | Hr : readField _ _ = Ok ?r _ |- _ =>
           apply readFieldInto_window in Hr as [-> | [Hbase Hsize]]
       end.
  all: destruct (useSBA q), (useLBA q);
    cbn [setAddress setBytes set_data data Bytes useLBA negb nilSlice size
         base] in *;
    try discriminate.
  all: match goal with
       | Hx : (0 <? _) = true |- _ => apply Z.ltb_lt in Hx
       end.
  all: match goal with
       | Hp : _ = Panic _ |- _ =>
           unfold slice_from, slice_to, fcap in Hp; cbn [size base] in Hp
       end.
  all: try lia.
  all: match goal with
       | Hp : (if ?c then _ else _) _ = Panic _ |- _ =>
           assert (Hc : c = true)
             by (apply andb_true_intro; split; apply Z.leb_le; lia);
           rewrite Hc in Hp; discriminate Hp
       end.
Qed.

Lemma slack_endRecord : preserves same_slack endRecord.
Proof. unfold endRecord. slack_walk. Qed.

Lemma slack_slice_from (s : fslice) (k : Z) :
  preserves same_slack (slice_from s k).
Proof. unfold slice_from. slack_walk. Qed.

Lemma slack_slice_to (s : fslice) (k : Z) :
  preserves same_slack (slice_to s k).
Proof. unfold slice_to. slack_walk. Qed.

#[local] Hint Resolve slack_checkRecLen slack_endRecord slack_slice_from
  slack_slice_to : slack_db.

Lemma slack_parseData (reclen offset : Z) :
  preserves same_slack (parseData reclen offset).
Proof. unfold parseData. slack_walk. Qed.

(** The end of the line seen from a state built with setters. *)
Ltac slack_of_setters :=
  cbn [b set_scanner set_field set_err set_lba set_useLBA set_sba set_useSBA
       set_cs set_ip set_hasCSIP set_eip set_hasEIP set_data set_wrap
       set_line set_sum set_ended setBytes setAddress] in *.

Ltac still_roomy :=
  repeat match goal with
         | Hr : readWordField _ = Ok _ _ |- _ =>
             apply slack_readWordField in Hr; unfold same_slack in Hr
         | Hr : readByteField _ = Ok _ _ |- _ =>
             apply slack_readByteField in Hr; unfold same_slack in Hr
         | Hr : checkRecLen _ _ _ = Ok _ _ |- _ =>
             apply slack_checkRecLen in Hr; unfold same_slack in Hr
         | Hr : parseData _ _ _ = Ok _ _ |- _ =>
             apply slack_parseData in Hr; unfold same_slack in Hr
         end;
  unfold roomy in *; slack_of_setters;
  repeat match goal with
         | Hs : slack _ = slack _ |- _ => rewrite Hs; clear Hs
         end;
  assumption.

Lemma parseInfo_safe (rectyp reclen offset : Z) (p : Parser) (msg : string) :
  roomy (b p) = true -> 0 <= offset < 65536 ->
  parseInfo rectyp reclen offset p <> Panic msg.
Proof.
  intros Hroom Hoff H. unfold parseInfo in H. inv_panic H.
  all: match goal with
       | Hp : parseData _ _ _ = Panic _ |- _ =>
           revert Hp; apply parseData_safe; [| exact Hoff]
       | Hp : readWordField _ = Panic _ |- _ =>
           revert Hp; apply readWordField_safe
       | Hp : endRecord _ = Panic _ |- _ =>
           revert Hp; apply endRecord_safe
       end.
  all: still_roomy.
Qed.

Lemma wf_steady (p p' : Parser) : steady p p' -> wf p -> wf p'.
Proof. unfold wf. intros (_ & _ & H & _) Hwf. congruence. Qed.

(** [parseFields] panics only in [checkRecLen], on a header that was read
    without error and carries a type above 5. *)
Lemma parseFields_Panic (p : Parser) (msg : string) :
  roomy (b p) = true -> wf p -> parseFields p = Panic msg ->
  msg = index_out_of_range /\
  exists header tail reclen oh ol rectyp,
    vis (b p) = header ++ tail /\
    hexDecode header = ([reclen; oh; ol; rectyp], None) /\ 5 < rectyp.
Proof.
  intros Hroom Hwf H. unfold parseFields in H.
  apply bind_Panic in H as [H | (reclen & q1 & H1 & H)];
    [exfalso; revert H; apply readByteField_safe; exact Hroom |].
  pose proof (wf_steady _ _ (steady_readByteField _ _ _ H1) Hwf) as Hwf1.
  pose proof (roomy_same_slack _ _ (slack_readByteField _ _ _ H1) Hroom)
    as Hroom1.
  apply bind_Panic in H as [H | (offset & q2 & H2 & H)];
    [exfalso; revert H; apply readWordField_safe; exact Hroom1 |].
  pose proof (wf_steady _ _ (steady_readWordField _ _ _ H2) Hwf1) as Hwf2.
  pose proof (roomy_same_slack _ _ (slack_readWordField _ _ _ H2) Hroom1)
    as Hroom2.
  apply bind_Panic in H as [H | (rectyp & q3 & H3 & H)];
    [exfalso; revert H; apply readByteField_safe; exact Hroom2 |].
  pose proof (roomy_same_slack _ _ (slack_readByteField _ _ _ H3) Hroom2)
    as Hroom3.
  apply bind_Panic in H as [H | (u & q4 & H4 & H)].
  - apply checkRecLen_Panic in H as (-> & Hty & Herr3).
    split; [reflexivity |].
    destruct (readByteField_success _ _ _ Hwf2 H3 Herr3)
      as (Herr2 & _ & sT & HvT & HT).
    destruct (readWordField_success _ _ _ Hwf1 H2 Herr2)
      as (Herr1 & _ & sO & oh & ol & HvO & HO & _).
    destruct (readByteField_success _ _ _ Hwf H1 Herr1)
      as (_ & _ & sL & HvL & HL).
    exists (sL ++ sO ++ sT), (vis (b q3)), reclen, oh, ol, rectyp.
    split; [rewrite HvL, HvO, HvT, <- !app_assoc; reflexivity |].
    split; [| exact Hty].
    rewrite (hexDecode_app sL [reclen] _ HL).
    rewrite (hexDecode_app sO [oh; ol] _ HO), HT. reflexivity.
  - exfalso.
    pose proof (roomy_same_slack _ _ (slack_checkRecLen _ _ _ _ _ H4) Hroom3)
      as Hroom4.
    pose proof (readWordField_range _ _ _ Hwf1 H2) as Hoff.
    apply bind_Panic in H as [H | (g & q5 & H5 & H)];
      [revert H; apply parseInfo_safe; assumption |].
    inv_panic H.
Qed.

Lemma scanLine_safe (p : Parser) (msg : string) : scanLine p <> Panic msg.
Proof.
  unfold scanLine. intros H.
  repeat match type of H with
         | match ?x with _ => _ end = _ => destruct x
         end; discriminate H.
Qed.

(** One pass through [Parse] takes at most one line, and keeps the
    scratch array. *)
Lemma Parse_body_pending (p p' : Parser) (c : ctl) :
  wf p -> Parse_body p = Ok c p' ->
  wf p' /\
  (pending (scanner p') = pending (scanner p) \/
   exists t, pending (scanner p) = t :: pending (scanner p')).
Proof.
  intros Hwf H. unfold Parse_body in H. inv_monad H; auto.
  all: match goal with
       | Hs : scanLine _ = Ok ?a _ |- _ =>
           pose proof (scanLine_field _ _ _ Hs) as Hfld;
           destruct a;
           [apply scanLine_true in Hs as (t & rest & Hp & He & Hq)
           | apply scanLine_false in Hs
               as [(Hp & Hp' & _) | (t & rest & Hp & He & Hq)]]
       end; try discriminate.
  all: try match goal with
         | Hf : parseFields _ = Ok _ _ |- _ =>
             apply steady_parseFields in Hf as (Hs & _ & Hl & _)
         end.
  all: subst; unfold wf in *; simpl in *.
  all: try (split; [congruence |]).
  all: try (left; congruence).
  all: try (right; exists t; congruence).
  right. exists t. rewrite Hs, Hp. reflexivity.
Qed.

Lemma Parse_body_Panic (p : Parser) (msg : string) :
  wf p -> forallb roomy (pending (scanner p)) = true ->
  Parse_body p = Panic msg ->
  msg = index_out_of_range /\
  exists ln rest, pending (scanner p) = ln :: rest /\ unknown_type ln.
Proof.
  intros Hwf Hall H. unfold Parse_body in H. inv_panic H.
  all: try match goal with
         | Hp : scanLine _ = Panic _ |- _ =>
             exfalso; revert Hp; apply scanLine_safe
         end.
  - match goal with
    | Hs : scanLine _ = Ok ?a _, Hb : negb ?a = false |- _ =>
        destruct a; [clear Hb | discriminate Hb];
        pose proof (scanLine_field _ _ _ Hs) as Hfld;
        apply scanLine_true in Hs as (t & rest & Hp & He & Hq)
    end.
    subst. cbn [token scanner set_line set_scanner] in *.
    rewrite Hp in Hall. simpl in Hall.
    apply andb_prop in Hall as [Ht _].
    match goal with
    | Hf : parseFields _ = Panic _ |- _ =>
        apply parseFields_Panic in Hf
          as (-> & header & tail & reclen & oh & ol & rectyp & Hv & Hd & Hty)
    end.
    + split; [reflexivity |]. exists t, rest. split; [exact Hp |].
      exists header, tail, reclen, oh, ol, rectyp.
      match goal with
      | Hc : negb (Ascii.eqb ?c ":"%char) = false, Hl : vis t = ?c :: _ |- _ =>
          apply negb_false_iff, Ascii.eqb_eq in Hc; subst c; rewrite Hl
      end.
      cbn [b set_sum set_b vis] in Hv. rewrite Hv. auto.
    + exact Ht.
    + exact Hwf.
Qed.

Lemma Parse_loop_Panic (msg : string) (fuel : nat) :
  forall p,
    wf p -> forallb roomy (pending (scanner p)) = true ->
    Parse_loop fuel p = Panic msg ->
    msg = index_out_of_range /\
    exists ln, In ln (pending (scanner p)) /\ unknown_type ln.
Proof.
  induction fuel as [| fuel IH]; intros p Hwf Hall H; [discriminate H |].
  simpl in H.
  destruct (Parse_body p) as [[r |] q | msg' |] eqn:Hb; try discriminate H.
  - destruct (Parse_body_pending p q NextRec Hwf Hb) as [Hwf' _].
    apply Parse_body_NextRec in Hb as (t & Hp & _).
    rewrite Hp in Hall. simpl in Hall. apply andb_prop in Hall as [_ Hall].
    destruct (IH q Hwf' Hall H) as [Hmsg (ln & Hin & Hty)].
    split; [exact Hmsg |]. exists ln. rewrite Hp. split; [right |]; assumption.
  - inversion H; subst msg'.
    destruct (Parse_body_Panic p msg Hwf Hall Hb)
      as [Hmsg (ln & rest & Hp & Hty)].
    split; [exact Hmsg |]. exists ln. rewrite Hp. split; [left |]; auto.
Qed.

Lemma roomy_suffix (p p' : Parser) :
  pending (scanner p') = pending (scanner p) \/
  (exists t, pending (scanner p) = t :: pending (scanner p')) ->
  forallb roomy (pending (scanner p)) = true ->
  forallb roomy (pending (scanner p')) = true.
Proof.
  intros [-> | [t ->]] H; [exact H |].
  simpl in H. apply andb_prop in H as [_ H]. exact H.
Qed.

(** X12.  As long as every line is followed in the scanner's buffer by a
    byte that is not a hexadecimal digit and by room for the longest
    field, the only panic of [Parse] is the one of [checkRecLen] on a
    record type above 5: no slice or index of [readFieldInto],
    [readByteField], [readWordField] or [parseInfo] goes out of range.
    A call that returns leaves a parser for which this holds again. *)
Theorem panics_only_on_unknown_types (p : Parser) :
  wf p -> forallb roomy (pending (scanner p)) = true ->
  (forall msg,
      Parse p = Panic msg ->
      msg = index_out_of_range /\
      exists ln, In ln (pending (scanner p)) /\ unknown_type ln) /\
  (forall r p',
      Parse p = Ok r p' ->
      wf p' /\ forallb roomy (pending (scanner p')) = true).
Proof.
  intros Hwf Hall. split.
  - intros msg H. unfold Parse in H.
    eapply Parse_loop_Panic; eassumption.
  - intros r p' H. unfold Parse in H.
    apply (Parse_loop_invariant
             (fun q => wf q /\ forallb roomy (pending (scanner q)) = true))
      with (2 := conj Hwf Hall) in H; [exact H |].
    intros q c q' [Hq1 Hq2] Hb.
    destruct (Parse_body_pending q q' c Hq1 Hb) as [Hwf' Hpend].
    split; [exact Hwf' |]. eapply roomy_suffix; eassumption.
Qed.

Lemma panics_only_on_unknown_types_witness :
  (index_out_of_range = index_out_of_range /\
   exists ln,
     In ln (pending (scanner (fromString (":0000000AF6" ++ nl)))) /\
     unknown_type ln) /\
  (wf (afterParse exampleInput) /\
   forallb roomy (pending (scanner (afterParse exampleInput))) = true).
Proof.
  split.
  - apply (panics_only_on_unknown_types (fromString (":0000000AF6" ++ nl))).
    + reflexivity.
    + vm_compute. reflexivity.
    + vm_compute. reflexivity.
  - apply (panics_only_on_unknown_types (fromString exampleInput)
             ltac:(reflexivity) ltac:(vm_compute; reflexivity))
      with (r := true).
    vm_compute. reflexivity.
Defined.

(** Inputs that leave 255 bytes of the scanner's first buffer unused give
    such lines. *)
Lemma roomy_of_slack (ln : bslice) (c : ascii) (rest : list ascii) :
  slack ln = c :: rest -> fromHexChar c = None ->
  (255 <= List.length (slack ln))%nat -> roomy ln = true.
Proof.
  intros Hs Hc Hlen. unfold roomy.
  apply Nat.leb_le in Hlen. rewrite Hlen, Hs, Hc. reflexivity.
Qed.

Lemma roomy_dropCR (ln following : list ascii) (c : ascii)
    (rest : list ascii) :
  following = c :: rest -> fromHexChar c = None ->
  (255 <= List.length following)%nat -> roomy (dropCR ln following) = true.
Proof.
  intros Hf Hc Hlen. unfold dropCR.
  destruct (rev ln) as [| x before]; [eapply roomy_of_slack; eassumption |].
  destruct (Ascii.eqb x CR).
  - apply (roomy_of_slack _ CR following); [reflexivity | reflexivity |].
    simpl. lia.
  - eapply roomy_of_slack; eassumption.
Qed.

Lemma ScanLines_roomy (pad : list ascii) (c : ascii) (rest : list ascii) :
  pad = c :: rest -> fromHexChar c = None ->
  (255 <= List.length pad)%nat ->
  forall input acc, forallb roomy (ScanLines acc input pad) = true.
Proof.
  intros Hp Hc Hlen input.
  induction input as [| x input IH]; intros acc.
  - simpl. destruct acc; [reflexivity |].
    cbn [forallb]. rewrite (roomy_dropCR _ pad c rest Hp Hc Hlen).
    reflexivity.
  - cbn [ScanLines]. destruct (Ascii.eqb x LF) eqn:Hx; [| apply IH].
    cbn [forallb]. rewrite IH, Bool.andb_true_r.
    apply Ascii.eqb_eq in Hx. subst x.
    apply (roomy_dropCR _ _ LF (input ++ pad)); [reflexivity | reflexivity |].
    simpl. rewrite length_app. lia.
Qed.

Lemma fromString_roomy (s : string) :
  (List.length (list_ascii_of_string s) <= 3841)%nat ->
  wf (fromString s) /\
  forallb roomy (pending (scanner (fromString s))) = true.
Proof.
  intros Hlen. split; [reflexivity |].
  unfold fromString, NewParser. cbn [scanner pending].
  remember (4096 - List.length (list_ascii_of_string s))%nat as k eqn:Hk.
  destruct k as [| k]; [lia |].
  apply (ScanLines_roomy _ NUL (repeat NUL k)); [reflexivity | reflexivity |].
  rewrite repeat_length. lia.
Qed.

(** ** The range of the bases and of the start addresses *)

Lemma segment_base_range (w : Z) :
  0 <= w < 65536 ->
  0 <= Z.shiftl w 4 mod 2 ^ 32 <= 0xFFFF0 /\
  (Z.shiftl w 4 mod 2 ^ 32) mod 16 = 0.
Proof.
  intros Hw. rewrite (shiftl_word w 4 Hw) by lia. change (2 ^ 4) with 16.
  split; [lia | apply Z.mod_mul; lia].
Qed.

Lemma linear_base_range (w : Z) :
  0 <= w < 65536 ->
  0 <= Z.shiftl w 16 mod 2 ^ 32 <= 0xFFFF0000 /\
  (Z.shiftl w 16 mod 2 ^ 32) mod 65536 = 0.
Proof.
  intros Hw. rewrite (shiftl_word w 16 Hw) by lia.
  change (2 ^ 16) with 65536.
  split; [lia | apply Z.mod_mul; lia].
Qed.

Lemma eip_range (w w' : Z) :
  0 <= w < 65536 -> 0 <= w' < 65536 ->
  0 <= Z.lor (Z.shiftl w 16 mod 2 ^ 32) w' < 2 ^ 32.
Proof.
  intros Hw Hw'. rewrite (shiftl_word w 16 Hw) by lia.
  rewrite <- Z.shiftl_mul_pow2 by lia.
  rewrite (lor_shiftl_add w w' 16) by (change (2 ^ 16) with 65536; lia).
  change (2 ^ 16) with 65536. change (2 ^ 32) with 4294967296. lia.
Qed.

Lemma lor_aligned (x offset : Z) :
  0 <= x -> x mod 65536 = 0 -> 0 <= offset < 65536 ->
  Z.lor x offset = x + offset.
Proof.
  intros Hb Hmod Hoff.
  pose proof (Z.div_mod x 65536 ltac:(lia)) as Hdiv.
  rewrite Hmod, Z.add_0_r in Hdiv.
  assert (Hx : x = Z.shiftl (x / 65536) 16).
  { rewrite Z.shiftl_mul_pow2 by lia. change (2 ^ 16) with 65536. lia. }
  rewrite Hx at 1.
  rewrite (lor_shiftl_add (x / 65536) offset 16)
    by (change (2 ^ 16) with 65536; lia).
  change (2 ^ 16) with 65536. lia.
Qed.

Ltac projections_of_setters :=
  cbn [scanner field err lba useLBA sba useSBA cs ip hasCSIP eip hasEIP
       data wrap b line sum ended
       set_scanner set_field set_err set_lba set_useLBA set_sba set_useSBA
       set_cs set_ip set_hasCSIP set_eip set_hasEIP set_data set_wrap set_b
       set_line set_sum set_ended setBytes setAddress] in *.

Lemma range_same_registers (p p' : Parser) :
  same_registers p p' -> registers_in_range p -> registers_in_range p'.
Proof.
  intros H. unfold registers_in_range.
  apply same_registers_fields in H
    as ((_ & _ & H3 & H4) & (H5 & H6 & _) & (H8 & _) & _).
  rewrite H3, H4, H5, H6, H8. auto.
Qed.

Lemma range_parseInfo (rectyp reclen offset : Z) (p p' : Parser) (r : bool) :
  wf p -> registers_in_range p ->
  parseInfo rectyp reclen offset p = Ok r p' -> registers_in_range p'.
Proof.
  intros Hwf HI H. unfold parseInfo in H.
  with_strategy opaque [Z.shiftl Z.lor Z.modulo] (inv_monad H);
    try assumption.
  all: match goal with
       | Hc : endRecord _ = Ok _ _ |- _ =>
           apply regs_endRecord in Hc;
           apply (range_same_registers _ _ Hc); clear Hc
       end.
  all: repeat match goal with
         | Hc : readWordField ?Q = Ok _ _ |- _ =>
             let Hw := fresh "Hwf" in
             let Hr := fresh "Hrange" in
             let Hw' := fresh "Hwf" in
             assert (Hw : wf Q)
               by (unfold wf in *; projections_of_setters; assumption);
             pose proof (readWordField_range _ _ _ Hw Hc) as Hr;
             pose proof (wf_steady _ _ (steady_readWordField _ _ _ Hc) Hw)
               as Hw';
             apply regs_readWordField, same_registers_fields in Hc
         | Hc : parseData _ _ _ = Ok _ _ |- _ =>
             apply regs_parseData, same_registers_fields in Hc
         end.
  all: change (Z.pow_pos 2 32) with (2 ^ 32) in *.
  all: try match goal with
         | Hr : 0 <= ?w < 65536, Hr' : 0 <= ?w' < 65536 |- _ =>
             tryif constr_eq w w' then fail else
               pose proof (eip_range w w' Hr Hr');
               pose proof (eip_range w' w Hr' Hr)
         end.
  all: repeat match goal with
         | Hr : 0 <= ?w < 65536 |- _ =>
             pose proof (segment_base_range w Hr);
             pose proof (linear_base_range w Hr);
             revert Hr
         end; intros.
  all: unfold registers_in_range in *; projections_of_setters.
  all: repeat match goal with
         | Hc : _ /\ _ |- _ => destruct Hc
         end.
  all: repeat match goal with
         | Hc : ?f ?q = _ |- context [?f ?q] =>
             lazymatch type of q with Parser => rewrite Hc end
         end.
  all: repeat split; first [assumption | reflexivity | lia].
Qed.

Lemma range_parseFields (p p' : Parser) (c : ctl) :
  wf p -> registers_in_range p -> parseFields p = Ok c p' ->
  registers_in_range p'.
Proof.
  intros Hwf HI H. unfold parseFields in H.
  apply bind_Ok in H as (reclen & q1 & H1 & H).
  apply bind_Ok in H as (offset & q2 & H2 & H).
  apply bind_Ok in H as (rectyp & q3 & H3 & H).
  apply bind_Ok in H as (u & q4 & H4 & H).
  apply bind_Ok in H as (gotData & q5 & H5 & H).
  assert (Hwf4 : wf q4).
  { apply (wf_steady _ _ (steady_checkRecLen _ _ _ _ _ H4)).
    apply (wf_steady _ _ (steady_readByteField _ _ _ H3)).
    apply (wf_steady _ _ (steady_readWordField _ _ _ H2)).
    apply (wf_steady _ _ (steady_readByteField _ _ _ H1)). exact Hwf. }
  apply regs_readByteField in H1. apply regs_readWordField in H2.
  apply regs_readByteField in H3. apply regs_checkRecLen in H4.
  assert (HI5 : registers_in_range q5).
  { eapply range_parseInfo; [exact Hwf4 | | eassumption].
    repeat (eapply range_same_registers; [eassumption |]). assumption. }
  inv_monad H; assumption.
Qed.

Lemma range_Parse_body (p p' : Parser) (c : ctl) :
  wf p -> registers_in_range p -> Parse_body p = Ok c p' ->
  registers_in_range p'.
Proof.
  intros Hwf HI H. unfold Parse_body in H. inv_monad H; try assumption.
  all: match goal with
       | Hs : scanLine _ = Ok _ _ |- _ =>
           pose proof (scanLine_field _ _ _ Hs) as Hfld;
           apply regs_scanLine in Hs;
           pose proof (range_same_registers _ _ Hs HI) as HI'
       end; try assumption.
  match goal with
  | Hf : parseFields _ = Ok _ _ |- _ =>
      eapply range_parseFields; [| | exact Hf]
  end.
  - unfold wf in *. projections_of_setters. congruence.
  - exact HI'.
Qed.

(** X13.  Between calls of [Parse] the segment base is a 16-bit word
    shifted by 4 and the linear base a 16-bit word shifted by 16, CS, IP
    and EIP fit their types; so the address [parseInfo] gives a data
    record never wraps around 32 bits, and in linear-base mode the [|] of
    the source is an addition. *)
Theorem registers_stay_in_range (p : Parser) (offset : Z) :
  reachable p -> 0 <= offset < 65536 ->
  registers_in_range p /\
  dataAddress p offset
  = (if useSBA p then sba p + offset
     else if useLBA p then lba p + offset else offset) /\
  0 <= dataAddress p offset < 2 ^ 32.
Proof.
  intros Hr Hoff.
  assert (HI : wf p /\ registers_in_range p).
  { apply (reachable_invariant (fun q => wf q /\ registers_in_range q));
      [| | assumption].
    - intros lines e. split; [reflexivity |].
      unfold registers_in_range, NewParser. cbn [sba lba cs ip eip].
      change (2 ^ 32) with 4294967296.
      repeat split; first [lia | reflexivity].
    - intros q c q' [H1 H2] Hb. split.
      + apply (Parse_body_pending q q' c H1 Hb).
      + eapply range_Parse_body; eassumption. }
  destruct HI as [_ HI]. split; [exact HI |].
  destruct HI as ((Hs & _) & (Hl & Hlmod) & _).
  assert (Heq : dataAddress p offset
                = (if useSBA p then sba p + offset
                   else if useLBA p then lba p + offset else offset)).
  { unfold dataAddress. destruct (useSBA p).
    - apply Z.mod_small. change (2 ^ 32) with 4294967296. lia.
    - destruct (useLBA p); [| reflexivity].
      apply lor_aligned; [lia | exact Hlmod | exact Hoff]. }
  split; [exact Heq |]. rewrite Heq.
  change (2 ^ 32) with 4294967296.
  destruct (useSBA p); [lia |]. destruct (useLBA p); lia.
Qed.

Lemma registers_stay_in_range_witness :
  registers_in_range afterSegmentData /\
  dataAddress afterSegmentData 0x10
  = (if useSBA afterSegmentData then sba afterSegmentData + 0x10
     else if useLBA afterSegmentData then lba afterSegmentData + 0x10
          else 0x10) /\
  0 <= dataAddress afterSegmentData 0x10 < 2 ^ 32.
Proof.
  apply (registers_stay_in_range afterSegmentData 0x10).
  - apply reachable_afterParse.
  - lia.
Defined.

(** ** Records that hand out no data *)

(** X14.  A valid record of type 1 to 5 is absorbed: its effect is
    applied, no error is recorded, no record is left pending, and the
    same call of [Parse] goes on with the next line ([goto NextRec]). *)
Theorem info_record_is_absorbed (p : Parser) (ln : bslice)
    (rest : list bslice) (reclen oh ol rectyp : Z) (payload : list Z)
    (cc : Z) :
  ready p ln rest ->
  record_text (vis ln) reclen oh ol rectyp payload cc [] ->
  record_shape reclen rectyp payload -> rectyp <> 0 ->
  byteSum (record_bytes reclen oh ol rectyp payload cc) mod 256 = 0 ->
  exists p',
    Parse p = Parse p' /\
    record_effect rectyp (word oh ol) payload p p' /\
    Err p' = None /\ wrap p' = None /\
    pending (scanner p') = rest /\ line p' = line p + 1 /\
    ended p' = (rectyp =? 1).
Proof.
  intros Hready Htext Hshape Hty Hsum.
  destruct (Parse_body_known p ln rest reclen oh ol rectyp payload cc
              [] Hready Htext Hshape)
    as (p' & Hbody & Herr' & Hpend & Hline & Hw & _ & He & Heff).
  assert (Hv : verdict (line p + 1)
                 (record_bytes reclen oh ol rectyp payload cc) [] = None).
  { unfold verdict. rewrite Hsum. reflexivity. }
  rewrite Hv in Herr'.
  exists p'. split.
  - rewrite Parse_unfold, Hbody.
    apply Z.eqb_neq in Hty. rewrite Hty. reflexivity.
  - unfold Err. auto 10.
Qed.

Lemma info_record_is_absorbed_witness :
  exists p',
    Parse beforeStartAddress = Parse p' /\
    record_effect 3 (word 0 0) [0x12; 0x34; 0x56; 0x78] beforeStartAddress p' /\
    Err p' = None /\ wrap p' = None /\
    pending (scanner p') = [lineOf ":00000001FF" ""] /\
    line p' = line beforeStartAddress + 1 /\
    ended p' = (3 =? 1).
Proof.
  apply (info_record_is_absorbed beforeStartAddress
           (lineOf ":0400000312345678E5" "") [lineOf ":00000001FF" ""]
           4 0 0 3 [0x12; 0x34; 0x56; 0x78] 0xE5).
  - unfold ready, wf. simpl. auto.
  - exists (list_ascii_of_string "0400000312345678E5").
    split; [reflexivity | vm_compute; reflexivity].
  - unfold record_shape. simpl. split; [reflexivity |]. split; [lia |].
    right. split; [lia | reflexivity].
  - lia.
  - reflexivity.
Defined.





(** ** The lines a call takes *)

Lemma Parse_body_takes (p p' : Parser) (c : ctl) :
  Parse_body p = Ok c p' ->
  (pending (scanner p') = pending (scanner p) /\
   delivered (scanner p') = delivered (scanner p)) \/
  (exists t,
      pending (scanner p) = t :: pending (scanner p') /\
      delivered (scanner p') = delivered (scanner p) + 1 /\
      err p = None /\ wrap p = None).
Proof.
  intros H. unfold Parse_body in H. inv_monad H; auto.
  all: match goal with
       | Hs : scanLine _ = Ok ?a _ |- _ =>
           destruct a;
           [apply scanLine_true in Hs as (t & rest & Hp & He & Hq)
           | apply scanLine_false in Hs
               as [(Hp & Hp' & _ & Hd & _) | (t & rest & Hp & He & Hq)]]
       end; try discriminate.
  all: try match goal with
         | Hf : parseFields _ = Ok _ _ |- _ =>
             apply steady_parseFields in Hf as (Hs & _)
         end.
  all: subst; simpl in *.
  all: try (left; split; congruence).
  all: right; exists t; try rewrite Hs; simpl; auto.
Qed.

Lemma Parse_loop_takes (fuel : nat) :
  forall p r p',
    Parse_loop fuel p = Ok r p' ->
    exists used,
      pending (scanner p) = used ++ pending (scanner p') /\
      delivered (scanner p')
      = delivered (scanner p) + Z.of_nat (List.length used) /\
      (err p <> None \/ wrap p <> None -> used = []).
Proof.
  induction fuel as [| fuel IH]; intros p r p' H; [discriminate H |].
  simpl in H.
  destruct (Parse_body p) as [[r0 |] q | msg |] eqn:Hb; try discriminate H.
  - inversion H; subst r0 q. clear H.
    apply Parse_body_takes in Hb
      as [[Hp Hd] | (t & Hp & Hd & Herr & Hwrap)].
    + exists []. rewrite Hp, Hd. simpl. split; [reflexivity |].
      split; [lia | auto].
    + exists [t]. rewrite Hp, Hd. simpl. split; [reflexivity |].
      split; [lia |]. intros [Hc | Hc]; contradiction.
  - apply IH in H as (used & Hp' & Hd' & _).
    apply Parse_body_NextRec in Hb as (t & Hp & Hd & _ & Herr & Hwrap & _).
    exists (t :: used). rewrite Hp, Hp', Hd', Hd.
    split; [reflexivity |].
    split; [cbn [List.length]; lia |].
    intros [Hc | Hc]; contradiction.
Qed.

(** X16.  A call of [Parse] always comes to an end, each jump back to
    [NextRec] having taken a line; when it returns it has taken a prefix
    of the lines that were left, one [Scan] per line, and none at all if
    an error or a pending record was there. *)
Theorem Parse_takes_a_prefix (p : Parser) :
  Parse p <> OutOfFuel /\
  forall r p',
    Parse p = Ok r p' ->
    exists used,
      pending (scanner p) = used ++ pending (scanner p') /\
      delivered (scanner p')
      = delivered (scanner p) + Z.of_nat (List.length used) /\
      (Err p <> None \/ wrap p <> None -> used = []).
Proof.
  split; [apply Parse_terminates |].
  intros r p' H. unfold Parse in H. eapply Parse_loop_takes. exact H.
Qed.

Lemma Parse_takes_a_prefix_witness :
  exists used,
    pending (scanner (fromString exampleInput))
    = used ++ pending (scanner (afterParse exampleInput)) /\
    delivered (scanner (afterParse exampleInput))
    = delivered (scanner (fromString exampleInput))
      + Z.of_nat (List.length used) /\
    (Err (fromString exampleInput) <> None
     \/ wrap (fromString exampleInput) <> None -> used = []).
Proof.
  apply (proj2 (Parse_takes_a_prefix (fromString exampleInput)) true).
  vm_compute. reflexivity.
Defined.

(** ** The bytes of a record that was handed out *)

#[local] Instance same_records_preorder :
  RelationClasses.PreOrder same_records.
Proof.
  split.
  - intros p. split; reflexivity.
  - intros p q r [H1 H2] [H3 H4]. unfold same_records. split; congruence.
Qed.

Create HintDb records_db.

Ltac records_update :=
  intros; unfold same_records, fail; simpl;
  repeat match goal with
         | |- context [match ?c with _ => _ end] => destruct c eqn:?
         end; simpl; auto.

Ltac records_walk :=
  repeat monadic_step ltac:(auto with records_db nocore)
    (preserves_ret same_records) (preserves_gets same_records)
    (preserves_panic same_records) (preserves_bind same_records);
  try (apply preserves_modify; records_update).

Lemma records_readFieldInto (n : Z) (dst : fslice) :
  preserves same_records (readFieldInto n dst).
Proof.
  intros p r p' H. readFieldInto_cases H; split; reflexivity.
Qed.

Lemma records_index (s : fslice) (i : nat) :
  preserves same_records (index s i).
Proof.
  intros p r p' H. unfold index in H.
  destruct (i <? size s)%nat; inversion H; subst. reflexivity.
Qed.

Lemma records_readField (n : Z) : preserves same_records (readField n).
Proof. apply records_readFieldInto. Qed.

#[local] Hint Resolve records_readFieldInto records_index records_readField
  : records_db.

Lemma records_readByteField : preserves same_records readByteField.
Proof. unfold readByteField. records_walk. Qed.

Lemma records_readWordField : preserves same_records readWordField.
Proof. unfold readWordField. records_walk. Qed.

#[local] Hint Resolve records_readByteField records_readWordField
  : records_db.

Lemma records_checkRecLen (rectyp reclen : Z) :
  preserves same_records (checkRecLen rectyp reclen).
Proof. unfold checkRecLen. records_walk. Qed.

Lemma records_endRecord : preserves same_records endRecord.
Proof. unfold endRecord. records_walk. Qed.

Lemma records_scanLine : preserves same_records scanLine.
Proof.
  intros p r q H. unfold scanLine in H.
  repeat match type of H with
         | match ?x with _ => _ end = _ => destruct x eqn:?
         end;
    inversion H; subst; split; reflexivity.
Qed.

(** The window [parseData] leaves in [p.data] starts at [field[0]]. *)
Lemma parseData_base (reclen offset : Z) (p p' : Parser) (u : unit) :
  parseData reclen offset p = Ok u p' -> base (Bytes (data p')) = 0%nat.
Proof.
  intros H. unfold parseData in H.
  apply bind_Ok in H as (bytes & q & H1 & H).
  apply readFieldInto_window in H1.
  assert (Hb : base bytes = 0%nat) by (destruct H1 as [-> | [-> _]]; reflexivity).
  inv_monad H.
  all: repeat match goal with
         | Hs : slice_from _ _ _ = Ok _ _ |- _ =>
             unfold slice_from in Hs; inv_monad Hs
         | Hs : slice_to _ _ _ = Ok _ _ |- _ =>
             unfold slice_to in Hs; inv_monad Hs
         end.
  all: destruct (useSBA q), (useLBA q); simpl; try exact Hb.
Qed.

Lemma parseInfo_records (rectyp reclen offset : Z) (p p' : Parser)
    (g : bool) :
  parseInfo rectyp reclen offset p = Ok g p' ->
  (g = false -> same_records p p') /\
  (g = true -> err p' = None -> base (Bytes (data p')) = 0%nat).
Proof.
  intros H. unfold parseInfo in H.
  with_strategy opaque [Z.shiftl Z.lor Z.modulo] (inv_monad H).
  all: (split; [intros Hg | intros Hg Herr']); try discriminate Hg;
    try congruence.
  all: repeat match goal with
         | Hc : readWordField _ = Ok _ _ |- _ =>
             apply records_readWordField in Hc
         | Hc : endRecord _ = Ok _ _ |- _ => apply records_endRecord in Hc
         | Hc : parseData _ _ _ = Ok _ _ |- _ => apply parseData_base in Hc
         end.
  all: unfold same_records in *; projections_of_setters.
  all: repeat match goal with
         | Hc : _ /\ _ |- _ => destruct Hc
         end.
  all: try (split; congruence).
  all: congruence.
Qed.

Lemma parseFields_records (p p' : Parser) (c : ctl) :
  parseFields p = Ok c p' ->
  (c = NextRec -> same_records p p') /\
  (c = Return true -> base (Bytes (data p')) = 0%nat).
Proof.
  intros H. unfold parseFields in H.
  apply bind_Ok in H as (reclen & q1 & H1 & H).
  apply bind_Ok in H as (offset & q2 & H2 & H).
  apply bind_Ok in H as (rectyp & q3 & H3 & H).
  apply bind_Ok in H as (u & q4 & H4 & H).
  apply bind_Ok in H as (gotData & q5 & H5 & H).
  apply records_readByteField in H1. apply records_readWordField in H2.
  apply records_readByteField in H3. apply records_checkRecLen in H4.
  apply parseInfo_records in H5 as [Hfalse Htrue].
  assert (H14 : same_records p q4).
  { etransitivity; [exact H1 |]. etransitivity; [exact H2 |].
    etransitivity; [exact H3 |]. exact H4. }
  destruct gotData; inv_monad H; split; intros Hc; try discriminate Hc.
  all: try match goal with
         | Hn : negb _ = _ |- _ => discriminate Hn
         end.
  all: first [ apply Htrue; reflexivity
             | etransitivity; [exact H14 |]; apply Hfalse; reflexivity ].
Qed.

Lemma Parse_body_records (p p' : Parser) (c : ctl) :
  wrap p = None -> Parse_body p = Ok c p' ->
  (c = NextRec -> wrap p' = None) /\
  (c = Return true -> base (Bytes (data p')) = 0%nat).
Proof.
  intros Hwrap H. unfold Parse_body in H. inv_monad H; try congruence.
  all: split; intros Hc; try discriminate Hc.
  all: match goal with
       | Hs : scanLine _ = Ok _ _ |- _ =>
           apply records_scanLine in Hs as [Hd Hw]
       end.
  all: try congruence.
  all: match goal with
       | Hf : parseFields _ = Ok _ _ |- _ =>
           apply parseFields_records in Hf as [Hnext Hret]
       end.
  - destruct (Hnext Hc) as [_ Hw']. simpl in Hw'. congruence.
  - apply Hret. exact Hc.
Qed.

Lemma Parse_loop_base (fuel : nat) :
  forall p p',
    wrap p = None -> Parse_loop fuel p = Ok true p' ->
    base (Bytes (data p')) = 0%nat.
Proof.
  induction fuel as [| fuel IH]; intros p p' Hwrap H; [discriminate H |].
  simpl in H.
  destruct (Parse_body p) as [[r |] q | msg |] eqn:Hb; try discriminate H.
  - inversion H; subst r q.
    apply (proj2 (Parse_body_records p p' _ Hwrap Hb)). reflexivity.
  - apply (IH q p'); [| exact H].
    apply (proj1 (Parse_body_records p q _ Hwrap Hb)). reflexivity.
Qed.

(** X17.  The bytes of a record are a window on the parser's scratch
    array, and the next data record is read into the same place ("the
    underlying data may be overwritten by subsequent calls to Parse"):
    when two records in a row come from two lines, the window handed out
    first shows, after the second call, the first bytes of the second
    record. *)
Theorem earlier_record_is_overwritten (p0 p1 p2 : Parser) :
  wrap p0 = None -> Parse p0 = Ok true p1 ->
  wrap p1 = None -> Parse p1 = Ok true p2 ->
  (size (Bytes (data p1)) <= size (Bytes (data p2)))%nat ->
  view (field p2) (Bytes (data p1))
  = firstn (size (Bytes (data p1))) (snd (Data p2)).
Proof.
  intros Hw0 H1 Hw1 H2 Hsize. unfold Parse in H1, H2.
  apply Parse_loop_base in H1; [| exact Hw0].
  apply Parse_loop_base in H2; [| exact Hw1].
  unfold Data. cbn [snd].
  destruct (Bytes (data p1)) as [b1 n1], (Bytes (data p2)) as [b2 n2].
  simpl in *. subst b1 b2. apply view_prefix. exact Hsize.
Qed.

Lemma earlier_record_is_overwritten_witness :
  view (field (afterPulls 2 exampleInput))
    (Bytes (data (afterPulls 1 exampleInput)))
  = firstn (size (Bytes (data (afterPulls 1 exampleInput))))
      (snd (Data (afterPulls 2 exampleInput))).
Proof.
  apply (earlier_record_is_overwritten beforeExample
           (afterPulls 1 exampleInput) (afterPulls 2 exampleInput)).
  - reflexivity.
  - vm_compute. reflexivity.
  - vm_compute. reflexivity.
  - vm_compute. reflexivity.
  - vm_compute. lia.
Defined.

(** ** What is never taken back *)

#[local] Instance flags_kept_preorder : RelationClasses.PreOrder flags_kept.
Proof.
  split.
  - intros p. unfold flags_kept. repeat split; auto. lia.
  - intros p q r (H1 & H2 & H3 & H4) (H5 & H6 & H7 & H8).
    unfold flags_kept. repeat split; auto. lia.
Qed.

Create HintDb flags_db.

Ltac flags_update :=
  intros; unfold flags_kept, fail, setBytes, setAddress; simpl;
  repeat match goal with
         | |- context [match ?c with _ => _ end] => destruct c eqn:?
         end; simpl;
  repeat split; auto; lia.

Ltac flags_walk :=
  repeat monadic_step ltac:(auto with flags_db nocore)
    (preserves_ret flags_kept) (preserves_gets flags_kept)
    (preserves_panic flags_kept) (preserves_bind flags_kept);
  try (apply preserves_modify; flags_update).

Lemma flags_readFieldInto (n : Z) (dst : fslice) :
  preserves flags_kept (readFieldInto n dst).
Proof.
  intros p r p' H.
  readFieldInto_cases H; unfold flags_kept; simpl; repeat split; auto; lia.
Qed.

Lemma flags_index (s : fslice) (i : nat) : preserves flags_kept (index s i).
Proof.
  intros p r p' H. unfold index in H.
  destruct (i <? size s)%nat; inversion H; subst. reflexivity.
Qed.

Lemma flags_readField (n : Z) : preserves flags_kept (readField n).
Proof. apply flags_readFieldInto. Qed.

#[local] Hint Resolve flags_readFieldInto flags_index flags_readField
  : flags_db.

Lemma flags_readByteField : preserves flags_kept readByteField.
Proof. unfold readByteField. flags_walk. Qed.

Lemma flags_readWordField : preserves flags_kept readWordField.
Proof. unfold readWordField. flags_walk. Qed.

#[local] Hint Resolve flags_readByteField flags_readWordField : flags_db.

Lemma flags_checkRecLen (rectyp reclen : Z) :
  preserves flags_kept (checkRecLen rectyp reclen).
Proof. unfold checkRecLen. flags_walk. Qed.

Lemma flags_endRecord : preserves flags_kept endRecord.
Proof. unfold endRecord. flags_walk. Qed.

Lemma flags_slice_from (s : fslice) (k : Z) :
  preserves flags_kept (slice_from s k).
Proof. unfold slice_from. flags_walk. Qed.

Lemma flags_slice_to (s : fslice) (k : Z) :
  preserves flags_kept (slice_to s k).
Proof. unfold slice_to. flags_walk. Qed.

#[local] Hint Resolve flags_checkRecLen flags_endRecord flags_slice_from
  flags_slice_to : flags_db.

Lemma flags_parseData (reclen offset : Z) :
  preserves flags_kept (parseData reclen offset).
Proof. unfold parseData. flags_walk. Qed.

#[local] Hint Resolve flags_parseData : flags_db.

Lemma flags_parseInfo (rectyp reclen offset : Z) :
  preserves flags_kept (parseInfo rectyp reclen offset).
Proof. unfold parseInfo. flags_walk. Qed.

Lemma flags_scanLine : preserves flags_kept scanLine.
Proof.
  intros p r q H. unfold scanLine in H.
  repeat match type of H with
         | match ?x with _ => _ end = _ => destruct x eqn:?
         end;
    inversion H; subst; unfold flags_kept; simpl; repeat split; auto; lia.
Qed.

#[local] Hint Resolve flags_parseInfo flags_scanLine : flags_db.

Lemma flags_parseFields : preserves flags_kept parseFields.
Proof. unfold parseFields. flags_walk. Qed.

#[local] Hint Resolve flags_parseFields : flags_db.




(** ** What a record that was handed out says about its line *)

#[local] Instance no_clear_preorder : RelationClasses.PreOrder no_clear.
Proof.
  split.
  - intros p H. exact H.
  - intros p q r H1 H2 H. apply H1, H2, H.
Qed.

Create HintDb clear_db.

Ltac clear_update :=
  intros; unfold no_clear, fail, setBytes, setAddress; simpl;
  repeat match goal with
         | |- context [match ?c with _ => _ end] => destruct c eqn:?
         end; simpl; auto; discriminate.

Ltac clear_walk :=
  repeat monadic_step ltac:(auto with clear_db nocore)
    (preserves_ret no_clear) (preserves_gets no_clear)
    (preserves_panic no_clear) (preserves_bind no_clear);
  try (apply preserves_modify; clear_update).

Lemma clear_readFieldInto (n : Z) (dst : fslice) :
  preserves no_clear (readFieldInto n dst).
Proof. intros p r p' H. exact (readFieldInto_after_error _ _ _ _ _ H). Qed.

Lemma clear_index (s : fslice) (i : nat) : preserves no_clear (index s i).
Proof.
  intros p r p' H. unfold index in H.
  destruct (i <? size s)%nat; inversion H; subst. reflexivity.
Qed.

Lemma clear_readField (n : Z) : preserves no_clear (readField n).
Proof. apply clear_readFieldInto. Qed.

#[local] Hint Resolve clear_readFieldInto clear_index clear_readField
  : clear_db.

Lemma clear_readByteField : preserves no_clear readByteField.
Proof. unfold readByteField. clear_walk. Qed.

Lemma clear_readWordField : preserves no_clear readWordField.
Proof. unfold readWordField. clear_walk. Qed.

#[local] Hint Resolve clear_readByteField clear_readWordField : clear_db.

Lemma clear_checkRecLen (rectyp reclen : Z) :
  preserves no_clear (checkRecLen rectyp reclen).
Proof. unfold checkRecLen. clear_walk. Qed.

Lemma clear_endRecord : preserves no_clear endRecord.
Proof. unfold endRecord. clear_walk. Qed.

Lemma clear_slice_from (s : fslice) (k : Z) :
  preserves no_clear (slice_from s k).
Proof. unfold slice_from. clear_walk. Qed.

Lemma clear_slice_to (s : fslice) (k : Z) :
  preserves no_clear (slice_to s k).
Proof. unfold slice_to. clear_walk. Qed.

#[local] Hint Resolve clear_checkRecLen clear_endRecord clear_slice_from
  clear_slice_to : clear_db.

Lemma clear_parseData (reclen offset : Z) :
  preserves no_clear (parseData reclen offset).
Proof. unfold parseData. clear_walk. Qed.

#[local] Hint Resolve clear_parseData : clear_db.

Lemma clear_parseInfo (rectyp reclen offset : Z) :
  preserves no_clear (parseInfo rectyp reclen offset).
Proof. unfold parseInfo. clear_walk. Qed.

Lemma checkRecLen_passed (rectyp reclen : Z) (p p' : Parser) (u : unit) :
  checkRecLen rectyp reclen p = Ok u p' -> err p' = None ->
  p' = p /\
  (rectyp <= 0 \/ nth_error reclens (Z.to_nat rectyp) = Some reclen).
Proof.
  intros H Herr. unfold checkRecLen in H. inv_monad H;
    try (simpl in Herr; congruence); split; try reflexivity.
  all: try match goal with
         | Hn : negb (_ =? ?x) = false |- _ =>
             apply negb_false_iff, Z.eqb_eq in Hn; subst x
         end.
  all: try match goal with
         | Hn : (0 <? _) = false |- _ => apply Z.ltb_ge in Hn
         end.
  all: first [right; assumption | right; reflexivity | left; assumption].
Qed.

Lemma readField_payload (n : Z) (q q' : Parser) (r : fslice) :
  wf q -> byte_range n -> readField n q = Ok r q' -> err q' = None ->
  wf q' /\
  exists sP payload,
    vis (b q) = sP ++ vis (b q') /\ hexDecode sP = (payload, None) /\
    Z.of_nat (List.length payload) = n /\ n < 128.
Proof.
  intros Hwf Hn H Herr'. unfold readField in H.
  pose proof (readFieldInto_after_error _ _ _ _ _ H Herr') as Herr.
  destruct (readFieldInto_success n _ q q' r Hn Herr H Herr')
    as (Hlt & bs & Hdec & Hlen & Hvis & _ & -> & ->).
  split; [solve_wf |].
  exists (firstn (Z.to_nat (2 * n)) (vis (b q))), bs.
  cbn [consumed b set_sum set_b set_field vis].
  split; [symmetry; apply firstn_skipn | auto].
Qed.

Lemma endRecord_success (q p' : Parser) (u : unit) :
  wf q -> endRecord q = Ok u p' -> err p' = None ->
  exists cc, hexDecode (vis (b q)) = ([cc], None).
Proof.
  intros Hwf H Herr'.
  destruct (endRecord_closed _ _ _ H Herr') as [_ Hend].
  unfold endRecord in H. apply bind_Ok in H as (r & q1 & H1 & H).
  assert (p' = q1)
    by (inv_monad H; first [reflexivity | simpl in Herr'; discriminate]).
  subst q1.
  pose proof (readFieldInto_after_error _ _ _ _ _ H1 Herr') as Herr.
  destruct (readFieldInto_success 1 _ q p' r
              ltac:(unfold byte_range; lia) Herr H1 Herr')
    as (_ & bs & Hdec & Hlen & Hvis & _ & _ & Hp').
  destruct bs as [| cc [| y bs]]; simpl in Hlen; try lia.
  exists cc. rewrite <- Hdec. f_equal.
  rewrite Hp' in Hend.
  cbn [consumed b set_sum set_b set_field vis] in Hend.
  rewrite <- (firstn_skipn (Z.to_nat (2 * 1)) (vis (b q))) at 1.
  rewrite Hend. apply app_nil_r.
Qed.

Lemma parseData_reads_payload (reclen offset : Z) (q q' : Parser) (u : unit) :
  wf q -> byte_range reclen ->
  parseData reclen offset q = Ok u q' -> err q' = None ->
  wf q' /\
  exists sP payload,
    vis (b q) = sP ++ vis (b q') /\ hexDecode sP = (payload, None) /\
    Z.of_nat (List.length payload) = reclen /\ reclen < 128.
Proof.
  intros Hwf Hn H Herr'. unfold parseData in H.
  apply bind_Ok in H as (bytes & q1 & H1 & H).
  assert (Hsame : b q' = b q1 /\ err q' = err q1 /\ field q' = field q1).
  { inv_monad H.
    all: repeat match goal with
           | Hs : slice_from _ _ _ = Ok _ _ |- _ =>
               unfold slice_from in Hs; inv_monad Hs
           | Hs : slice_to _ _ _ = Ok _ _ |- _ =>
               unfold slice_to in Hs; inv_monad Hs
           end.
    all: destruct (useSBA q1), (useLBA q1); simpl; auto. }
  destruct Hsame as (Hb & He & Hf).
  rewrite He in Herr'.
  destruct (readField_payload reclen q q1 bytes Hwf Hn H1 Herr')
    as (Hwf1 & sP & payload & Hvis & Hdec & Hlen & Hlt).
  split; [unfold wf in *; congruence |].
  exists sP, payload. rewrite Hb. auto.
Qed.

(** Follow the absence of an error back through the calls made. *)
Ltac errors_back :=
  repeat match goal with
         | Hc : endRecord _ = Ok _ ?Q', He : err ?Q' = None |- _ =>
             pose proof (clear_endRecord _ _ _ Hc He);
             projections_of_setters; revert Hc
         | Hc : readWordField _ = Ok _ ?Q', He : err ?Q' = None |- _ =>
             pose proof (clear_readWordField _ _ _ Hc He);
             projections_of_setters; revert Hc
         | Hc : parseData _ _ _ = Ok _ ?Q', He : err ?Q' = None |- _ =>
             pose proof (clear_parseData _ _ _ _ _ Hc He);
             projections_of_setters; revert Hc
         end;
  intros.

(** Then collect, forwards, what each call has taken from the line. *)
Ltac fields_read Hn :=
  repeat match goal with
         | Hc : readWordField ?Q = Ok _ ?Q', He : err ?Q' = None |- _ =>
             let Hw := fresh "Hwf" in
             assert (Hw : wf Q)
               by (unfold wf in *; projections_of_setters; assumption);
             destruct (readWordField_success _ _ _ Hw Hc He)
               as (_ & ? & ? & ? & ? & ? & ? & _);
             clear Hc
         | Hc : parseData _ _ ?Q = Ok _ ?Q', He : err ?Q' = None |- _ =>
             let Hw := fresh "Hwf" in
             assert (Hw : wf Q)
               by (unfold wf in *; projections_of_setters; assumption);
             destruct (parseData_reads_payload _ _ _ _ _ Hw Hn Hc He)
               as (? & ? & ? & ? & ? & ? & ?);
             clear Hc
         | Hc : endRecord ?Q = Ok _ ?Q', He : err ?Q' = None |- _ =>
             let Hw := fresh "Hwf" in
             assert (Hw : wf Q)
               by (unfold wf in *; projections_of_setters; assumption);
             destruct (endRecord_success _ _ _ Hw Hc He) as [? ?];
             clear Hc
         end.

Lemma parseInfo_reads_payload (rectyp reclen offset : Z) (q p' : Parser)
    (g : bool) :
  wf q -> byte_range reclen ->
  rectyp = 0 \/
  0 < rectyp /\ nth_error reclens (Z.to_nat rectyp) = Some reclen ->
  parseInfo rectyp reclen offset q = Ok g p' -> err p' = None ->
  exists payload cc,
    hexDecode (vis (b q)) = (payload ++ [cc], None) /\
    reclen = Z.of_nat (List.length payload) /\ reclen < 128.
Proof.
  intros Hwf Hn Hty H Herr'.
  pose proof (clear_parseInfo _ _ _ _ _ _ H Herr') as Herr.
  assert (Hcases : rectyp = 0 \/
                   (rectyp = 1 /\ reclen = 0) \/ (rectyp = 2 /\ reclen = 2) \/
                   (rectyp = 3 /\ reclen = 4) \/ (rectyp = 4 /\ reclen = 2) \/
                   (rectyp = 5 /\ reclen = 4)).
  { destruct Hty as [-> | [Hpos Hnth]]; [auto |]. right.
    assert (Hlt : (Z.to_nat rectyp < List.length reclens)%nat)
      by (apply nth_error_Some; congruence).
    simpl in Hlt.
    assert (Hr : rectyp = 1 \/ rectyp = 2 \/ rectyp = 3 \/ rectyp = 4
                 \/ rectyp = 5) by lia.
    destruct Hr as [-> | [-> | [-> | [-> | ->]]]];
      simpl in Hnth; inversion Hnth; auto 10. }
  unfold parseInfo in H.
  destruct Hcases as [-> | [[-> ->] | [[-> ->] | [[-> ->] | [[-> ->] | [-> ->]]]]]].
  all: with_strategy opaque [Z.shiftl Z.lor Z.modulo] (inv_monad H);
    try congruence.
  all: errors_back.
  all: fields_read Hn.
  all: projections_of_setters.
  all: repeat match goal with
         | Hv : vis (b ?A) = ?x ++ vis (b ?B),
           Hd : hexDecode ?x = (?bs, None),
           Hr : hexDecode (vis (b ?B)) = (?bs', None) |- _ =>
             let Hnew := fresh "Hdec" in
             assert (Hnew : hexDecode (vis (b A)) = (bs ++ bs', None))
               by (rewrite Hv, (hexDecode_app x bs _ Hd), Hr; reflexivity);
             clear Hv
         end.
  all: match goal with
       | Hfin : hexDecode (vis (b ?Q)) = (?A ++ ?B ++ [?c], None)
         |- exists _ _, hexDecode (vis (b ?Q)) = _ /\ _ =>
           exists (A ++ B), c; rewrite <- app_assoc
       | Hfin : hexDecode (vis (b ?Q)) = (?A ++ [?c], None)
         |- exists _ _, hexDecode (vis (b ?Q)) = _ /\ _ =>
           exists A, c
       | Hfin : hexDecode (vis (b ?Q)) = ([?c], None)
         |- exists _ _, hexDecode (vis (b ?Q)) = _ /\ _ =>
           exists [], c
       end.
  all: split; [assumption |]; split; [| lia].
  all: first [symmetry; assumption | reflexivity].
Qed.

Lemma parseFields_reads_a_record (p p' : Parser) (c : ctl) :
  wf p -> parseFields p = Ok c p' -> err p' = None ->
  exists reclen oh ol rectyp payload cc,
    hexDecode (vis (b p))
    = (record_bytes reclen oh ol rectyp payload cc, None) /\
    record_shape reclen rectyp payload.
Proof.
  intros Hwf H Herr'. unfold parseFields in H.
  apply bind_Ok in H as (reclen & q1 & H1 & H).
  apply bind_Ok in H as (offset & q2 & H2 & H).
  apply bind_Ok in H as (rectyp & q3 & H3 & H).
  apply bind_Ok in H as (u & q4 & H4 & H).
  apply bind_Ok in H as (g & q5 & H5 & H).
  assert (p' = q5) by (inv_monad H; reflexivity). subst q5. clear H.
  pose proof (clear_parseInfo _ _ _ _ _ _ H5 Herr') as Herr4.
  destruct (checkRecLen_passed _ _ _ _ _ H4 Herr4) as [-> Hlen].
  destruct (readByteField_success _ _ _ Hwf H1
              (clear_readWordField _ _ _ H2
                 (clear_readByteField _ _ _ H3 Herr4)))
    as (_ & Hwf1 & sL & HvL & HL).
  destruct (readWordField_success _ _ _ Hwf1 H2
              (clear_readByteField _ _ _ H3 Herr4))
    as (_ & Hwf2 & sO & oh & ol & HvO & HO & ->).
  destruct (readByteField_success _ _ _ Hwf2 H3 Herr4)
    as (_ & Hwf3 & sT & HvT & HT).
  assert (Hrl : byte_range reclen).
  { apply hexDecode_range in HL. inversion HL. assumption. }
  assert (Hrt : byte_range rectyp).
  { apply hexDecode_range in HT. inversion HT. assumption. }
  assert (Hty : rectyp = 0 \/
                0 < rectyp /\
                nth_error reclens (Z.to_nat rectyp) = Some reclen).
  { unfold byte_range in Hrt. destruct Hlen as [Hle | Hnth]; [left; lia |].
    destruct (Z.eq_dec rectyp 0) as [-> | Hne]; [left; reflexivity |].
    right. split; [lia | exact Hnth]. }
  destruct (parseInfo_reads_payload _ _ _ _ _ _ Hwf3 Hrl Hty H5 Herr')
    as (payload & cc & Hdec & Hpl & Hlt).
  exists reclen, oh, ol, rectyp, payload, cc. split.
  - rewrite HvL, (hexDecode_app sL [reclen] _ HL).
    rewrite HvO, (hexDecode_app sO [oh; ol] _ HO).
    rewrite HvT, (hexDecode_app sT [rectyp] _ HT), Hdec. reflexivity.
  - unfold record_shape. auto.
Qed.

Lemma modes_parseInfo_true (rectyp reclen offset : Z) (p p' : Parser) :
  parseInfo rectyp reclen offset p = Ok true p' -> same_modes p p'.
Proof.
  intros H. unfold parseInfo in H.
  with_strategy opaque [Z.shiftl Z.lor Z.modulo] (inv_monad H).
  - reflexivity.
  - match goal with
    | Hd : parseData _ _ _ = Ok _ _, He : endRecord _ = Ok _ _ |- _ =>
        apply modes_parseData in Hd; apply modes_endRecord in He;
        etransitivity; eassumption
    end.
Qed.

Lemma parseFields_true (p p' : Parser) :
  parseFields p = Ok (Return true) p' -> err p' = None /\ same_modes p p'.
Proof.
  intros H. unfold parseFields in H.
  apply bind_Ok in H as (reclen & q1 & H1 & H).
  apply bind_Ok in H as (offset & q2 & H2 & H).
  apply bind_Ok in H as (rectyp & q3 & H3 & H).
  apply bind_Ok in H as (u & q4 & H4 & H).
  apply bind_Ok in H as (g & q5 & H5 & H).
  apply modes_readByteField in H1. apply modes_readWordField in H2.
  apply modes_readByteField in H3. apply modes_checkRecLen in H4.
  destruct g; inv_monad H;
    try match goal with
        | Hn : negb _ = _ |- _ => discriminate Hn
        end.
  split; [assumption |].
  apply modes_parseInfo_true in H5.
  etransitivity; [exact H1 |]. etransitivity; [exact H2 |].
  etransitivity; [exact H3 |]. etransitivity; [exact H4 |]. exact H5.
Qed.

Lemma verdict_none (ln : Z) (bytes : list Z) (trailing : list ascii) :
  verdict ln bytes trailing = None -> byteSum bytes mod 256 = 0.
Proof.
  unfold verdict. destruct (byteSum bytes mod 256 =? 0) eqn:Hs; simpl.
  - intros _. apply Z.eqb_eq. exact Hs.
  - discriminate.
Qed.

(** One pass that hands out a record has read it from the next line. *)
Lemma Parse_body_hands_out (p p' : Parser) :
  wf p -> wrap p = None -> Parse_body p = Ok (Return true) p' ->
  exists ln reclen oh ol payload cc,
    pending (scanner p) = ln :: pending (scanner p') /\
    record_text (vis ln) reclen oh ol 0 payload cc [] /\
    record_shape reclen 0 payload /\
    byteSum (record_bytes reclen oh ol 0 payload cc) mod 256 = 0 /\
    record_effect 0 (word oh ol) payload p p' /\ same_modes p p'.
Proof.
  intros Hwf Hwrap H. pose proof H as Hrun.
  unfold Parse_body in H. inv_monad H; try congruence.
  match goal with
  | Hs : scanLine _ = Ok ?a _, Hb : negb ?a = false |- _ =>
      destruct a; [clear Hb | discriminate Hb];
      pose proof (modes_scanLine _ _ _ Hs) as Hmodes;
      apply scanLine_true in Hs as (t & rest & Hp & He & Hq)
  end.
  subst. cbn [token scanner set_line set_scanner] in *.
  match goal with
  | Hc : negb (Ascii.eqb ?c ":"%char) = false |- _ =>
      apply negb_false_iff, Ascii.eqb_eq in Hc; subst c
  end.
  match goal with
  | Hf : parseFields ?Q = Ok _ _ |- _ =>
      destruct (parseFields_true _ _ Hf) as [Herr' Hm];
      destruct (parseFields_reads_a_record Q p' _ ltac:(solve_wf) Hf Herr')
        as (reclen & oh & ol & rectyp & payload & cc & Hdec & Hshape)
  end.
  cbn [b set_sum set_b vis] in Hdec.
  match goal with
  | Hl : vis t = ":"%char :: ?l |- _ =>
      assert (Htext : record_text (vis t) reclen oh ol rectyp payload cc [])
        by (exists l; rewrite app_nil_r; auto)
  end.
  match goal with
  | Hpend0 : pending (scanner ?P) = t :: rest |- _ =>
      assert (Hready : ready P t rest) by (unfold ready; auto);
      destruct (Parse_body_known P t rest reclen oh ol rectyp payload cc []
                  Hready Htext Hshape)
        as (p'' & Hbody & Hverdict & Hpend & _ & _ & _ & _ & Heff)
  end.
  rewrite Hrun in Hbody.
  destruct (rectyp =? 0) eqn:Hty; [| discriminate Hbody].
  apply Z.eqb_eq in Hty. subst rectyp.
  inversion Hbody as [[Hv Hp'']]. subst p''.
  exists t, reclen, oh, ol, payload, cc.
  split; [rewrite Hp, Hpend; reflexivity |].
  split; [exact Htext |]. split; [exact Hshape |].
  split; [apply (verdict_none _ _ _ (eq_trans (eq_sym Hverdict) Herr')) |].
  split; [exact Heff |].
  etransitivity; [exact Hmodes |]. exact Hm.
Qed.

Lemma Parse_loop_hands_out (fuel : nat) :
  forall p p',
    wf p -> wrap p = None -> Parse_loop fuel p = Ok true p' ->
    exists used q ln reclen oh ol payload cc,
      pending (scanner p) = used ++ ln :: pending (scanner p') /\
      record_text (vis ln) reclen oh ol 0 payload cc [] /\
      record_shape reclen 0 payload /\
      byteSum (record_bytes reclen oh ol 0 payload cc) mod 256 = 0 /\
      record_effect 0 (word oh ol) payload q p' /\ same_modes q p'.
Proof.
  induction fuel as [| fuel IH]; intros p p' Hwf Hwrap H; [discriminate H |].
  simpl in H.
  destruct (Parse_body p) as [[r |] q | msg |] eqn:Hb; try discriminate H.
  - inversion H; subst r q. clear H.
    destruct (Parse_body_hands_out p p' Hwf Hwrap Hb)
      as (ln & reclen & oh & ol & payload & cc & Hp & Hrest).
    exists [], p, ln, reclen, oh, ol, payload, cc.
    split; [exact Hp | exact Hrest].
  - destruct (Parse_body_pending p q NextRec Hwf Hb) as [Hwf' _].
    pose proof (proj1 (Parse_body_records p q _ Hwrap Hb) eq_refl) as Hwrap'.
    apply Parse_body_NextRec in Hb as (t & Hp & _).
    destruct (IH q p' Hwf' Hwrap' H)
      as (used & q0 & ln & reclen & oh & ol & payload & cc & Hp' & Hrest).
    exists (t :: used), q0, ln, reclen, oh, ol, payload, cc.
    split; [rewrite Hp, Hp'; reflexivity | exact Hrest].
Qed.

(** X19.  Whatever [Parse] hands out from a line is on that line: when a
    call that had no record pending returns true, one of the lines it
    took is the record mark followed by the hexadecimal digits of a data
    record (length, offset, type 0, as many data bytes as the length
    says, checksum) and nothing else, the bytes sum to 0 mod 256, the
    lines after it are the ones left, the address of [Data] is the one
    the base mode in force gives the offset, and its bytes are the data
    bytes of the record, or their first [extra] when the record crosses
    offset 0xFFFF outside linear-base mode. *)
Theorem handed_out_record_is_on_a_line (p p' : Parser) :
  wf p -> wrap p = None -> Parse p = Ok true p' ->
  exists used ln reclen oh ol payload cc,
    pending (scanner p) = used ++ ln :: pending (scanner p') /\
    record_text (vis ln) reclen oh ol 0 payload cc [] /\
    reclen = Z.of_nat (List.length payload) /\
    byteSum (record_bytes reclen oh ol 0 payload cc) mod 256 = 0 /\
    fst (Data p') = dataAddress p' (word oh ol) /\
    snd (Data p')
    = if negb (useLBA p') && (0 <? overflow (word oh ol) payload)
      then firstn (Z.to_nat (overflow (word oh ol) payload)) payload
      else payload.
Proof.
  intros Hwf Hwrap H. unfold Parse in H.
  destruct (Parse_loop_hands_out _ p p' Hwf Hwrap H)
    as (used & q & ln & reclen & oh & ol & payload & cc & Hp & Htext
        & Hshape & Hsum & Heff & Hm).
  exists used, ln, reclen, oh, ol, payload, cc.
  split; [exact Hp |]. split; [exact Htext |].
  split; [exact (proj1 Hshape) |]. split; [exact Hsum |].
  destruct Hm as (Hs & Hl & Hsb & Hlb).
  unfold record_effect in Heff. destruct Heff as [Haddr Hbytes].
  split.
  - unfold Data. cbn [fst]. rewrite Haddr. unfold dataAddress.
    rewrite Hs, Hl, Hsb, Hlb. reflexivity.
  - rewrite Hl.
    destruct (negb (useLBA q) && (0 <? overflow (word oh ol) payload));
      apply Hbytes.
Qed.

Lemma handed_out_record_is_on_a_line_witness :
  exists used ln reclen oh ol payload cc,
    pending (scanner (fromString exampleInput))
    = used ++ ln :: pending (scanner (afterParse exampleInput)) /\
    record_text (vis ln) reclen oh ol 0 payload cc [] /\
    reclen = Z.of_nat (List.length payload) /\
    byteSum (record_bytes reclen oh ol 0 payload cc) mod 256 = 0 /\
    fst (Data (afterParse exampleInput))
    = dataAddress (afterParse exampleInput) (word oh ol) /\
    snd (Data (afterParse exampleInput))
    = if negb (useLBA (afterParse exampleInput))
         && (0 <? overflow (word oh ol) payload)
      then firstn (Z.to_nat (overflow (word oh ol) payload)) payload
      else payload.
Proof.
  apply (handed_out_record_is_on_a_line (fromString exampleInput)
           (afterParse exampleInput)).
  - reflexivity.
  - reflexivity.
  - vm_compute. reflexivity.
Defined.

(** ** The errors a parser reports *)

#[local] Instance errors_known_preorder :
  RelationClasses.PreOrder errors_known.
Proof.
  split.
  - intros p H. exact H.
  - intros p q r H1 H2 H. apply H2, H1, H.
Qed.

Create HintDb known_db.

Ltac one_of_the_messages :=
  simpl; repeat first [left; reflexivity | right].

Ltac known_update :=
  intros; unfold errors_known, fail, makeError, setBytes, setAddress; simpl;
  repeat match goal with
         | |- context [match ?c with _ => _ end] => destruct c eqn:?
         end; simpl;
  first [intros Hknown; exact Hknown | intros _; one_of_the_messages].

Ltac known_walk :=
  repeat monadic_step ltac:(auto with known_db nocore)
    (preserves_ret errors_known) (preserves_gets errors_known)
    (preserves_panic errors_known) (preserves_bind errors_known);
  try (apply preserves_modify; known_update).

Lemma known_readFieldInto (n : Z) (dst : fslice) :
  byte_range n -> preserves errors_known (readFieldInto n dst).
Proof.
  intros Hn p r p' H Hk.
  destruct (err p) as [e |] eqn:Herr.
  - unfold readFieldInto in H. rewrite Herr in H. inversion H; subst.
    rewrite Herr. exact Hk.
  - destruct (readFieldInto_error_kind n dst p p' r Hn Herr H) as [-> | ->];
      [exact I | one_of_the_messages].
Qed.

Lemma known_index (s : fslice) (i : nat) :
  preserves errors_known (index s i).
Proof.
  intros p r p' H. unfold index in H.
  destruct (i <? size s)%nat; inversion H; subst. reflexivity.
Qed.

Lemma known_readField (n : Z) :
  byte_range n -> preserves errors_known (readField n).
Proof. apply known_readFieldInto. Qed.

Lemma byte_range_1 : byte_range 1.
Proof. unfold byte_range. lia. Qed.

Lemma byte_range_2 : byte_range 2.
Proof. unfold byte_range. lia. Qed.

#[local] Hint Resolve known_readFieldInto known_index known_readField
  byte_range_1 byte_range_2 : known_db.

Lemma known_readByteField : preserves errors_known readByteField.
Proof. unfold readByteField. known_walk. Qed.

Lemma known_readWordField : preserves errors_known readWordField.
Proof. unfold readWordField. known_walk. Qed.

#[local] Hint Resolve known_readByteField known_readWordField : known_db.

Lemma known_checkRecLen (rectyp reclen : Z) :
  preserves errors_known (checkRecLen rectyp reclen).
Proof. unfold checkRecLen. known_walk. Qed.

Lemma known_endRecord : preserves errors_known endRecord.
Proof. unfold endRecord. known_walk. Qed.

Lemma known_slice_from (s : fslice) (k : Z) :
  preserves errors_known (slice_from s k).
Proof. unfold slice_from. known_walk. Qed.

Lemma known_slice_to (s : fslice) (k : Z) :
  preserves errors_known (slice_to s k).
Proof. unfold slice_to. known_walk. Qed.

#[local] Hint Resolve known_checkRecLen known_endRecord known_slice_from
  known_slice_to : known_db.

Lemma known_parseData (reclen offset : Z) :
  byte_range reclen -> preserves errors_known (parseData reclen offset).
Proof. intros Hn. unfold parseData. known_walk. Qed.

#[local] Hint Resolve known_parseData : known_db.

Lemma known_parseInfo (rectyp reclen offset : Z) :
  byte_range reclen ->
  preserves errors_known (parseInfo rectyp reclen offset).
Proof. intros Hn. unfold parseInfo. known_walk. Qed.

Lemma readByteField_range (p p' : Parser) (v : Z) :
  wf p -> readByteField p = Ok v p' -> byte_range v.
Proof.
  intros Hwf H. destruct (err p') eqn:Herr'.
  - unfold readByteField in H. apply bind_Ok in H as (bytes & q & H1 & H).
    unfold bind, gets in H. destruct (err q) eqn:Hq.
    + inversion H. unfold byte_range. lia.
    + unfold index, ret in H.
      destruct (0 <? size bytes)%nat; [| discriminate H].
      inversion H; subst. congruence.
  - destruct (readByteField_success p p' v Hwf H Herr')
      as (_ & _ & s1 & _ & Hdec).
    apply hexDecode_range in Hdec. inversion Hdec. assumption.
Qed.

Lemma known_parseFields (p p' : Parser) (c : ctl) :
  wf p -> parseFields p = Ok c p' -> errors_known p p'.
Proof.
  intros Hwf H. unfold parseFields in H.
  apply bind_Ok in H as (reclen & q1 & H1 & H).
  apply bind_Ok in H as (offset & q2 & H2 & H).
  apply bind_Ok in H as (rectyp & q3 & H3 & H).
  apply bind_Ok in H as (u & q4 & H4 & H).
  apply bind_Ok in H as (g & q5 & H5 & H).
  assert (p' = q5) by (inv_monad H; reflexivity). subst q5.
  pose proof (readByteField_range _ _ _ Hwf H1) as Hn.
  apply known_readByteField in H1. apply known_readWordField in H2.
  apply known_readByteField in H3. apply known_checkRecLen in H4.
  apply (known_parseInfo _ _ _ Hn) in H5.
  etransitivity; [exact H1 |]. etransitivity; [exact H2 |].
  etransitivity; [exact H3 |]. etransitivity; [exact H4 |]. exact H5.
Qed.

Lemma known_scanLine : preserves errors_known scanLine.
Proof.
  intros p r q H Hk. unfold scanLine, Scan in H.
  destruct (pending (scanner p)); simpl in H.
  - destruct (ioerr (scanner p)); simpl in H.
    + inversion H; subst. exact I.
    + destruct (ended p); simpl in H; inversion H; subst; simpl;
        [exact I | one_of_the_messages].
  - destruct (ended p); inversion H; subst; simpl;
      [one_of_the_messages | exact Hk].
Qed.

Lemma known_Parse_body (p p' : Parser) (c : ctl) :
  wf p -> Parse_body p = Ok c p' -> errors_known p p'.
Proof.
  intros Hwf H. unfold Parse_body in H. inv_monad H;
    try (intros Hk; exact Hk).
  all: match goal with
       | Hs : scanLine _ = Ok _ _ |- _ =>
           pose proof (scanLine_field _ _ _ Hs) as Hfld;
           apply known_scanLine in Hs; try exact Hs
       end.
  - intros _. one_of_the_messages.
  - match goal with
    | Hs : errors_known _ _, Hf : parseFields _ = Ok _ _ |- _ =>
        apply known_parseFields in Hf;
          [| unfold wf in *; projections_of_setters; congruence];
        etransitivity; [exact Hs |]; exact Hf
    end.
Qed.

(** X20.  The errors [Err] can return: the error of the reader, or a
    [ParseError] whose message is one of the seven of the package.  The
    errors of [hex.Decode] never get out of [readFieldInto]. *)
Theorem errors_are_known (p : Parser) (e : error) :
  reachable p -> Err p = Some e ->
  (exists msg, e = ScannerError msg) \/
  (exists n msg, e = ParseError n msg /\ In msg messages).
Proof.
  intros Hr He.
  assert (HI : wf p /\ known_error (err p)).
  { apply (reachable_invariant (fun q => wf q /\ known_error (err q)));
      [| | assumption].
    - intros lines e0. split; [reflexivity | exact I].
    - intros q c q' [H1 H2] Hb. split.
      + apply (Parse_body_pending q q' c H1 Hb).
      + apply (known_Parse_body q q' c H1 Hb H2). }
  destruct HI as [_ Hk]. unfold Err in He. rewrite He in Hk.
  destruct e as [n msg | c | | msg]; simpl in Hk; try contradiction.
  - right. exists n, msg. auto.
  - left. exists msg. reflexivity.
Qed.

Lemma errors_are_known_witness :
  (exists msg, ParseError 1 "invalid checksum" = ScannerError msg) \/
  (exists n msg,
      ParseError 1 "invalid checksum" = ParseError n msg /\
      In msg messages).
Proof.
  apply (errors_are_known afterBadChecksum).
  - apply reachable_afterParse.
  - vm_compute. reflexivity.
Defined.

(** ** The lines a parser accepts *)

Lemma Parse_body_takes_records (p p' : Parser) (c : ctl) :
  wf p -> Parse_body p = Ok c p' -> err p' = None ->
  pending (scanner p') = pending (scanner p) \/
  exists ln,
    pending (scanner p) = ln :: pending (scanner p') /\
    (vis ln = [] \/ complete_record ln).
Proof.
  intros Hwf H Herr'. pose proof H as Hrun.
  unfold Parse_body in H. inv_monad H; auto.
  all: match goal with
       | Hs : scanLine _ = Ok ?a _ |- _ =>
           destruct a;
           [apply scanLine_true in Hs as (t & rest & Hp & He & Hq)
           | apply scanLine_false in Hs
               as [(Hp & Hp' & _) | (t & rest & Hp & He & Hq)]]
       end; try discriminate.
  all: subst; cbn [token scanner set_line set_scanner] in *.
  all: try (simpl in Herr'; discriminate Herr').
  all: try (left; congruence).
  - right. exists t. simpl. rewrite Hp. auto.
  - right. exists t.
    match goal with
    | Hc : negb (Ascii.eqb ?c ":"%char) = false |- _ =>
        apply negb_false_iff, Ascii.eqb_eq in Hc; subst c
    end.
    match goal with
    | Hf : parseFields ?Q = Ok _ _ |- _ =>
        destruct (parseFields_reads_a_record Q p' _ ltac:(solve_wf) Hf Herr')
          as (reclen & oh & ol & rectyp & payload & cc & Hdec & Hshape);
        apply steady_parseFields in Hf as (Hsc & _)
    end.
    cbn [b set_sum set_b vis] in Hdec.
    match goal with
    | Hl : vis t = ":"%char :: ?l |- _ =>
        assert (Htext : record_text (vis t) reclen oh ol rectyp payload cc [])
          by (exists l; rewrite app_nil_r; auto)
    end.
    match goal with
    | Hpend0 : pending (scanner ?P) = t :: rest |- _ =>
        assert (Hready : ready P t rest) by (unfold ready; auto);
        destruct (Parse_body_known P t rest reclen oh ol rectyp payload cc []
                    Hready Htext Hshape)
          as (p'' & Hbody & Hverdict & Hpend & _)
    end.
    rewrite Hrun in Hbody.
    assert (p'' = p') by (inversion Hbody; reflexivity). subst p''.
    split; [rewrite Hp, Hpend; reflexivity |].
    right. exists reclen, oh, ol, rectyp, payload, cc.
    split; [exact Htext |]. split; [exact Hshape |].
    apply (verdict_none _ _ _ (eq_trans (eq_sym Hverdict) Herr')).
Qed.

Lemma Parse_loop_takes_records (fuel : nat) :
  forall p r p',
    wf p -> Parse_loop fuel p = Ok r p' -> err p' = None ->
    exists used,
      pending (scanner p) = used ++ pending (scanner p') /\
      Forall (fun ln => vis ln = [] \/ complete_record ln) used.
Proof.
  induction fuel as [| fuel IH]; intros p r p' Hwf H Herr'.
  - discriminate H.
  - simpl in H.
    destruct (Parse_body p) as [[r0 |] q | msg |] eqn:Hb; try discriminate H.
    + inversion H; subst.
      destruct (Parse_body_takes_records p p' _ Hwf Hb Herr')
        as [Hsame | (ln & Hp & Hok)].
      * exists []. split; [symmetry; exact Hsame | constructor].
      * exists [ln]. split; [exact Hp |].
        constructor; [exact Hok | constructor].
    + destruct (Parse_body_pending p q _ Hwf Hb) as [Hwfq _].
      destruct (IH q r p' Hwfq H Herr') as (used & Hq & Hok).
      destruct (err q) as [e |] eqn:Hqerr.
      { destruct fuel; [discriminate H |].
        simpl in H. unfold Parse_body, bind, gets in H.
        rewrite Hqerr in H. inversion H; subst. congruence. }
      destruct (Parse_body_takes_records p q _ Hwf Hb Hqerr)
        as [Hsame | (ln & Hp & Hln)].
      * exists used. split; [congruence | exact Hok].
      * exists (ln :: used). split; [rewrite Hp, Hq; reflexivity |].
        constructor; assumption.
Qed.

(** X21.  A call of [Parse] that leaves no error has only taken lines
    that are blank or that are one whole record and nothing else: the
    record mark, the hexadecimal digits of the length, the offset, a type
    from 0 to 5, as many data bytes as the length says (the length
    [reclens] asks for when the type is not 0) and a checksum that makes
    all the bytes sum to 0 mod 256. *)
Theorem accepted_lines_are_records (p p' : Parser) (r : bool) :
  wf p -> Parse p = Ok r p' -> Err p' = None ->
  exists used,
    pending (scanner p) = used ++ pending (scanner p') /\
    Forall (fun ln => vis ln = [] \/ complete_record ln) used.
Proof.
  intros Hwf H Herr'. unfold Parse in H.
  eapply Parse_loop_takes_records; eassumption.
Qed.

Lemma accepted_lines_are_records_witness :
  exists used,
    pending (scanner (fromString exampleInput))
    = used ++ pending (scanner (afterParse exampleInput)) /\
    Forall (fun ln => vis ln = [] \/ complete_record ln) used.
Proof.
  apply (accepted_lines_are_records (fromString exampleInput)
           (afterParse exampleInput) true).
  - reflexivity.
  - vm_compute. reflexivity.
  - vm_compute. reflexivity.
Defined.

(** ** A record cut short where the buffer ends *)

Lemma readFieldInto_beyond_capacity (n : Z) (dst : fslice) (p : Parser) :
  err p = None -> (bcap (b p) < Z.to_nat ((n * 2) mod 256))%nat ->
  readFieldInto n dst p = Panic slice_out_of_range.
Proof.
  intros Herr Hcap. unfold readFieldInto. rewrite Herr.
  apply Nat.ltb_lt in Hcap. rewrite Hcap. reflexivity.
Qed.

(** X22.  The room asked for above is needed.  When a line stops right
    after its record mark, or one digit later, and the scanner's buffer
    ends with it (less than two bytes between the record mark and the
    end of the buffer), [readFieldInto] slices [p.b[:2]] beyond the
    capacity of [p.b] and [Parse] panics instead of reporting "record
    too short". *)
Theorem short_buffer_panics (p : Parser) (ln : bslice) (rest : list bslice)
    (body : list ascii) :
  ready p ln rest -> vis ln = ":"%char :: body ->
  (List.length body + List.length (slack ln) < 2)%nat ->
  Parse p = Panic slice_out_of_range.
Proof.
  intros (Herr & Hwrap & Hended & Hwf & Hp) Hvis Hshort.
  rewrite Parse_unfold. unfold Parse_body. stepped. rewrite Herr. cbv iota.
  stepped. rewrite Hwrap. cbv iota.
  called (scanLine_ready p ln rest Hended Hp). cbn [negb].
  stepped. cbn [token scanner set_line set_scanner]. rewrite Hvis.
  cbn [Ascii.eqb Bool.eqb negb andb]. do 2 stepped.
  unfold parseFields, readByteField, readField.
  repeat rewrite bind_assoc.
  match goal with
  | |- context [bind (readFieldInto 1 ?dst) ?k ?q] =>
      rewrite (bind_stop _ _ _ k q _
                 (readFieldInto_beyond_capacity 1 dst q Herr
                    ltac:(unfold bcap; simpl; lia)))
  end.
  reflexivity.
Qed.

Lemma short_buffer_panics_witness :
  Parse (NewParser [lineOf ":" ""] None) = Panic slice_out_of_range.
Proof.
  apply (short_buffer_panics (NewParser [lineOf ":" ""] None)
           (lineOf ":" "") [] []).
  - unfold ready, wf. simpl. auto.
  - reflexivity.
  - simpl. lia.
Defined.

(** ** What an error says about the line *)

Lemma readFieldInto_outcome (n : Z) (dst : fslice) (p p' : Parser)
    (r : fslice) :
  byte_range n -> err p = None -> readFieldInto n dst p = Ok r p' ->
  line p' = line p /\
  (err p' = None \/
   err p' = Some (ParseError (line p') "record too short")).
Proof.
  intros Hn Herr H.
  pose proof (steady_readFieldInto _ _ _ _ _ H) as (_ & Hl & _).
  split; [exact Hl |]. rewrite Hl.
  exact (readFieldInto_error_kind n dst p p' r Hn Herr H).
Qed.

Lemma readFieldInto_sticky (n : Z) (dst : fslice) (p p' : Parser)
    (r : fslice) (e : error) :
  err p = Some e -> readFieldInto n dst p = Ok r p' -> p' = p.
Proof.
  intros Herr H. unfold readFieldInto in H. rewrite Herr in H.
  inversion H. reflexivity.
Qed.

Lemma readByteField_sticky (p p' : Parser) (v : Z) (e : error) :
  err p = Some e -> readByteField p = Ok v p' -> p' = p.
Proof.
  intros Herr H. unfold readByteField, readField in H.
  apply bind_Ok in H as (r & q & H1 & H).
  apply (readFieldInto_sticky _ _ _ _ _ _ Herr) in H1. subst q.
  unfold bind, gets in H. rewrite Herr in H. inversion H. reflexivity.
Qed.

Lemma readWordField_sticky (p p' : Parser) (v : Z) (e : error) :
  err p = Some e -> readWordField p = Ok v p' -> p' = p.
Proof.
  intros Herr H. unfold readWordField, readField in H.
  apply bind_Ok in H as (r & q & H1 & H).
  apply (readFieldInto_sticky _ _ _ _ _ _ Herr) in H1. subst q.
  unfold bind, gets in H. rewrite Herr in H. inversion H. reflexivity.
Qed.

Lemma checkRecLen_sticky (rectyp reclen : Z) (p p' : Parser) (u : unit)
    (e : error) :
  err p = Some e -> checkRecLen rectyp reclen p = Ok u p' -> p' = p.
Proof.
  intros Herr H. unfold checkRecLen, bind, gets in H. rewrite Herr in H.
  inversion H. reflexivity.
Qed.

Lemma parseInfo_sticky (rectyp reclen offset : Z) (p p' : Parser) (g : bool)
    (e : error) :
  err p = Some e -> parseInfo rectyp reclen offset p = Ok g p' -> p' = p.
Proof.
  intros Herr H. unfold parseInfo, bind, gets in H. rewrite Herr in H.
  inversion H. reflexivity.
Qed.

Lemma endRecord_sticky (p p' : Parser) (u : unit) (e : error) :
  err p = Some e -> endRecord p = Ok u p' -> p' = p.
Proof.
  intros Herr H. unfold endRecord in H.
  apply bind_Ok in H as (r & q & H1 & H).
  apply (readFieldInto_sticky _ _ _ _ _ _ Herr) in H1. subst q.
  unfold bind, gets in H. rewrite Herr in H. inversion H. reflexivity.
Qed.

(** A header field: it is read, or the record is too short. *)
Lemma readByteField_outcome (p p' : Parser) (v : Z) :
  wf p -> err p = None -> readByteField p = Ok v p' ->
  line p' = line p /\ wf p' /\
  ((err p' = None /\
    exists s1, vis (b p) = s1 ++ vis (b p') /\ hexDecode s1 = ([v], None)) \/
   err p' = Some (ParseError (line p') "record too short")).
Proof.
  intros Hwf Herr H.
  pose proof (steady_readByteField _ _ _ H) as Hst.
  pose proof (wf_steady _ _ Hst Hwf) as Hwf'.
  destruct Hst as (_ & Hl & _).
  split; [exact Hl |]. split; [exact Hwf' |].
  destruct (err p') as [e |] eqn:Herr'.
  - right. unfold readByteField, readField in H.
    apply bind_Ok in H as (r & q & H1 & H).
    destruct (readFieldInto_outcome 1 _ p q r byte_range_1 Herr H1)
      as [Hlq [Hq | Hq]]; unfold bind, gets in H; rewrite Hq in H.
    + unfold index in H. destruct (0 <? size r)%nat; [| discriminate H].
      inversion H; subst. congruence.
    + inversion H; subst. congruence.
  - left. split; [reflexivity |].
    destruct (readByteField_success p p' v Hwf H Herr')
      as (_ & _ & s1 & Hv & Hd).
    exists s1. auto.
Qed.

Lemma readWordField_outcome (p p' : Parser) (w : Z) :
  wf p -> err p = None -> readWordField p = Ok w p' ->
  line p' = line p /\ wf p' /\
  ((err p' = None /\
    exists s1 hi lo,
      vis (b p) = s1 ++ vis (b p') /\ hexDecode s1 = ([hi; lo], None) /\
      w = word hi lo) \/
   err p' = Some (ParseError (line p') "record too short")).
Proof.
  intros Hwf Herr H.
  pose proof (steady_readWordField _ _ _ H) as Hst.
  pose proof (wf_steady _ _ Hst Hwf) as Hwf'.
  destruct Hst as (_ & Hl & _).
  split; [exact Hl |]. split; [exact Hwf' |].
  destruct (err p') as [e |] eqn:Herr'.
  - right. unfold readWordField, readField in H.
    apply bind_Ok in H as (r & q & H1 & H).
    destruct (readFieldInto_outcome 2 _ p q r byte_range_2 Herr H1)
      as [Hlq [Hq | Hq]]; unfold bind, gets in H; rewrite Hq in H.
    + unfold index, ret in H.
      destruct (0 <? size r)%nat; [| discriminate H].
      destruct (1 <? size r)%nat; [| discriminate H].
      inversion H; subst. congruence.
    + inversion H; subst. congruence.
  - left. split; [reflexivity |].
    destruct (readWordField_success p p' w Hwf H Herr')
      as (_ & _ & s1 & hi & lo & Hv & Hd & Hw).
    exists s1, hi, lo. auto.
Qed.

Lemma parseData_outcome (reclen offset : Z) (q q' : Parser) (u : unit) :
  wf q -> err q = None -> byte_range reclen ->
  parseData reclen offset q = Ok u q' ->
  line q' = line q /\ wf q' /\
  ((err q' = None /\
    exists sP payload,
      vis (b q) = sP ++ vis (b q') /\ hexDecode sP = (payload, None) /\
      Z.of_nat (List.length payload) = reclen /\ reclen < 128) \/
   err q' = Some (ParseError (line q') "record too short")).
Proof.
  intros Hwf Herr Hn H.
  pose proof (steady_parseData _ _ _ _ _ H) as Hst.
  pose proof (wf_steady _ _ Hst Hwf) as Hwf'.
  destruct Hst as (_ & Hl & _).
  split; [exact Hl |]. split; [exact Hwf' |].
  destruct (err q') as [e |] eqn:Herr'.
  - right. unfold parseData in H.
    apply bind_Ok in H as (bytes & q1 & H1 & H).
    assert (Hsame : err q' = err q1 /\ line q' = line q1).
    { inv_monad H.
      all: repeat match goal with
             | Hs : slice_from _ _ _ = Ok _ _ |- _ =>
                 unfold slice_from in Hs; inv_monad Hs
             | Hs : slice_to _ _ _ = Ok _ _ |- _ =>
                 unfold slice_to in Hs; inv_monad Hs
             end.
      all: destruct (useSBA q1), (useLBA q1); simpl; auto. }
    destruct Hsame as [He Hl1].
    destruct (readFieldInto_outcome reclen _ q q1 bytes Hn Herr H1)
      as [_ [Hq | Hq]]; congruence.
  - left. split; [reflexivity |].
    destruct (parseData_reads_payload _ _ _ _ _ Hwf Hn H Herr')
      as (_ & sP & payload & Hrest).
    exists sP, payload. exact Hrest.
Qed.

Lemma endRecord_outcome (q p' : Parser) (u : unit) :
  wf q -> err q = None -> endRecord q = Ok u p' ->
  err p' = Some (ParseError (line q) "record too short") \/
  exists sC trailing cc,
    vis (b q) = sC ++ trailing /\ hexDecode sC = ([cc], None).
Proof.
  intros Hwf Herr H. unfold endRecord in H.
  apply bind_Ok in H as (r & q1 & H1 & H).
  destruct (readFieldInto_outcome 1 _ q q1 r byte_range_1 Herr H1)
    as [Hl [Hq | Hq]].
  - right.
    destruct (readFieldInto_success 1 _ q q1 r byte_range_1 Herr H1 Hq)
      as (_ & bs & Hdec & Hlen & _).
    destruct bs as [| cc [| y bs]]; simpl in Hlen; try lia.
    exists (firstn (Z.to_nat (2 * 1)) (vis (b q))),
      (skipn (Z.to_nat (2 * 1)) (vis (b q))), cc.
    split; [symmetry; apply firstn_skipn | exact Hdec].
  - left. unfold bind, gets in H. rewrite Hq in H. inversion H; subst.
    rewrite Hq, Hl. reflexivity.
Qed.

Lemma checkRecLen_outcome (rectyp reclen : Z) (p p' : Parser) (u : unit) :
  err p = None -> checkRecLen rectyp reclen p = Ok u p' ->
  (p' = p /\
   (rectyp <= 0 \/ nth_error reclens (Z.to_nat rectyp) = Some reclen)) \/
  (err p' = Some (ParseError (line p) "invalid record length") /\
   0 < rectyp /\
   exists expected,
     nth_error reclens (Z.to_nat rectyp) = Some expected /\
     reclen <> expected).
Proof.
  intros Herr H.
  destruct (err p') as [e |] eqn:Herr'.
  - right. unfold checkRecLen in H. inv_monad H; try congruence.
    match goal with
    | Hp : (0 <? _) = true, Hn : negb (_ =? ?x) = true |- _ =>
        apply Z.ltb_lt in Hp; apply negb_true_iff, Z.eqb_neq in Hn;
        simpl in Herr'; rewrite <- Herr';
        split; [reflexivity |]; split; [exact Hp |];
        exists x; split; [reflexivity | exact Hn]
    end.
  - left. exact (checkRecLen_passed _ _ _ _ _ H Herr').
Qed.

Ltac setters_in_goal :=
  cbn [scanner field err lba useLBA sba useSBA cs ip hasCSIP eip hasEIP
       data wrap b line sum ended
       set_scanner set_field set_err set_lba set_useLBA set_sba set_useSBA
       set_cs set_ip set_hasCSIP set_eip set_hasEIP set_data set_wrap set_b
       set_line set_sum set_ended setBytes setAddress].

Ltac no_error_at Q He :=
  assert (He : err Q = None) by (setters_in_goal; assumption).

Ltac error_at Q He :=
  match goal with
  | Hs : err _ = Some ?e0 |- _ =>
      assert (He : err Q = Some e0) by (setters_in_goal; exact Hs)
  end.

Ltac wf_at Q Hw :=
  assert (Hw : wf Q) by (unfold wf in *; setters_in_goal; assumption).

(** Follow the calls of [parseInfo] in order: each one reads its field,
    or finds the record too short, or comes after an error and does
    nothing. *)
Ltac follow Hn :=
  repeat
    match goal with
    | Hc : readWordField ?Q = Ok _ ?Q' |- _ =>
        let He := fresh "Hne" in
        let Hw := fresh "Hwf" in
        first
          [ no_error_at Q He; wf_at Q Hw;
            destruct (readWordField_outcome _ _ _ Hw He Hc)
              as (? & ? & [[? (? & ? & ? & ? & ? & _)] | ?]);
            clear Hc
          | error_at Q He;
            apply (readWordField_sticky _ _ _ _ He) in Hc; subst Q' ]
    | Hc : parseData _ _ ?Q = Ok _ ?Q' |- _ =>
        let He := fresh "Hne" in
        let Hw := fresh "Hwf" in
        no_error_at Q He; wf_at Q Hw;
        destruct (parseData_outcome _ _ _ _ _ Hw He Hn Hc)
          as (? & ? & [[? (? & ? & ? & ? & ? & ?)] | ?]);
        clear Hc
    | Hc : endRecord ?Q = Ok _ ?Q' |- _ =>
        let He := fresh "Hne" in
        let Hw := fresh "Hwf" in
        first
          [ no_error_at Q He; wf_at Q Hw;
            destruct (endRecord_outcome _ _ _ Hw He Hc)
              as [? | (? & ? & ? & ? & ?)];
            clear Hc
          | error_at Q He;
            apply (endRecord_sticky _ _ _ _ He) in Hc; subst Q' ]
    end.

Lemma parseInfo_provenance (rectyp reclen offset : Z) (q p' : Parser)
    (g : bool) (e : error) :
  wf q -> err q = None -> byte_range reclen ->
  rectyp = 0 \/
  0 < rectyp /\ nth_error reclens (Z.to_nat rectyp) = Some reclen ->
  parseInfo rectyp reclen offset q = Ok g p' -> err p' = Some e ->
  e = ParseError (line q) "record too short" \/
  exists sP trailing payload cc,
    vis (b q) = sP ++ trailing /\ hexDecode sP = (payload ++ [cc], None) /\
    reclen = Z.of_nat (List.length payload) /\ reclen < 128.
Proof.
  intros Hwf Herr Hn Hty H Herr'.
  assert (Hcases : rectyp = 0 \/
                   (rectyp = 1 /\ reclen = 0) \/ (rectyp = 2 /\ reclen = 2) \/
                   (rectyp = 3 /\ reclen = 4) \/ (rectyp = 4 /\ reclen = 2) \/
                   (rectyp = 5 /\ reclen = 4)).
  { destruct Hty as [-> | [Hpos Hnth]]; [auto |]. right.
    assert (Hlt : (Z.to_nat rectyp < List.length reclens)%nat)
      by (apply nth_error_Some; congruence).
    simpl in Hlt.
    assert (Hr : rectyp = 1 \/ rectyp = 2 \/ rectyp = 3 \/ rectyp = 4
                 \/ rectyp = 5) by lia.
    destruct Hr as [-> | [-> | [-> | [-> | ->]]]];
      simpl in Hnth; inversion Hnth; auto 10. }
  unfold parseInfo in H.
  destruct Hcases as [-> | [[-> ->] | [[-> ->] | [[-> ->] | [[-> ->] | [-> ->]]]]]].
  all: with_strategy opaque [Z.shiftl Z.lor Z.modulo] (inv_monad H);
    try congruence.
  all: follow Hn.
  all: projections_of_setters.
  all: try (left; congruence).
  all: right.
  all: repeat match goal with
         | Hv : vis (b ?A) = ?x ++ vis (b ?B),
           Hd : hexDecode ?x = (?bs, None),
           Hv' : vis (b ?B) = ?y ++ ?t,
           Hd' : hexDecode ?y = (?bs', None) |- _ =>
             let Hnv := fresh "Hvis" in
             let Hnd := fresh "Hdec" in
             assert (Hnv : vis (b A) = (x ++ y) ++ t)
               by (rewrite Hv, Hv', app_assoc; reflexivity);
             assert (Hnd : hexDecode (x ++ y) = (bs ++ bs', None))
               by (rewrite (hexDecode_app x bs _ Hd), Hd'; reflexivity);
             clear Hv Hv'
         end.
  all: match goal with
       | Hv : vis (b ?Q) = ?X ++ ?t, Hd : hexDecode ?X = (?BS, None)
         |- exists _ _ _ _, vis (b ?Q) = _ /\ _ =>
           exists X, t; simpl app in Hd;
           match type of Hd with
           | _ = ([?c], None) => exists [], c
           | _ = ([?a1; ?a2; ?c], None) => exists [a1; a2], c
           | _ = ([?a1; ?a2; ?a3; ?a4; ?c], None) =>
               exists [a1; a2; a3; a4], c
           | _ = (?P ++ [?c], None) => exists P, c
           end;
           split; [exact Hv |]; split; [exact Hd |]
       end.
  all: split; [first [symmetry; assumption | reflexivity] | lia].
Qed.


(** What the error of a record says about the rest of its line. *)
Lemma parseFields_provenance (p p' : Parser) (c : ctl) (e : error) :
  wf p -> err p = None -> parseFields p = Ok c p' -> err p' = Some e ->
  e = ParseError (line p) "record too short" \/
  (e = ParseError (line p) "invalid record length" /\
   exists header tail reclen oh ol rectyp expected,
     vis (b p) = header ++ tail /\
     hexDecode header = ([reclen; oh; ol; rectyp], None) /\
     0 < rectyp /\
     nth_error reclens (Z.to_nat rectyp) = Some expected /\
     reclen <> expected) \/
  (exists body trailing reclen oh ol rectyp payload cc,
      vis (b p) = body ++ trailing /\
      hexDecode body = (record_bytes reclen oh ol rectyp payload cc, None) /\
      record_shape reclen rectyp payload).
Proof.
  intros Hwf Herr H Herr'. unfold parseFields in H.
  apply bind_Ok in H as (reclen & q1 & H1 & H).
  apply bind_Ok in H as (offset & q2 & H2 & H).
  apply bind_Ok in H as (rectyp & q3 & H3 & H).
  apply bind_Ok in H as (u & q4 & H4 & H).
  apply bind_Ok in H as (g & q5 & H5 & H).
  assert (p' = q5) by (inv_monad H; reflexivity). subst q5. clear H.
  destruct (readByteField_outcome p q1 reclen Hwf Herr H1)
    as (Hl1 & Hwf1 & [[He1 (sL & HvL & HL)] | He1]).
  2: { left.
       apply (readWordField_sticky _ _ _ _ He1) in H2. subst q2.
       apply (readByteField_sticky _ _ _ _ He1) in H3. subst q3.
       apply (checkRecLen_sticky _ _ _ _ _ _ He1) in H4. subst q4.
       apply (parseInfo_sticky _ _ _ _ _ _ _ He1) in H5. subst p'.
       congruence. }
  destruct (readWordField_outcome q1 q2 offset Hwf1 He1 H2)
    as (Hl2 & Hwf2 & [[He2 (sO & oh & ol & HvO & HO & ->)] | He2]).
  2: { left.
       apply (readByteField_sticky _ _ _ _ He2) in H3. subst q3.
       apply (checkRecLen_sticky _ _ _ _ _ _ He2) in H4. subst q4.
       apply (parseInfo_sticky _ _ _ _ _ _ _ He2) in H5. subst p'.
       congruence. }
  destruct (readByteField_outcome q2 q3 rectyp Hwf2 He2 H3)
    as (Hl3 & Hwf3 & [[He3 (sT & HvT & HT)] | He3]).
  2: { left.
       apply (checkRecLen_sticky _ _ _ _ _ _ He3) in H4. subst q4.
       apply (parseInfo_sticky _ _ _ _ _ _ _ He3) in H5. subst p'.
       congruence. }
  assert (Hheader : hexDecode (sL ++ sO ++ sT)
                    = ([reclen; oh; ol; rectyp], None)).
  { rewrite (hexDecode_app sL [reclen] _ HL).
    rewrite (hexDecode_app sO [oh; ol] _ HO), HT. reflexivity. }
  assert (Hvis : vis (b p) = (sL ++ sO ++ sT) ++ vis (b q3))
    by (rewrite HvL, HvO, HvT, <- !app_assoc; reflexivity).
  assert (Hrl : byte_range reclen).
  { apply hexDecode_range in HL. inversion HL. assumption. }
  assert (Hrt : byte_range rectyp).
  { apply hexDecode_range in HT. inversion HT. assumption. }
  destruct (checkRecLen_outcome _ _ _ _ _ He3 H4)
    as [[-> Hlen] | (He4 & Hpos & expected & Hnth & Hne)].
  2: { right. left.
       apply (parseInfo_sticky _ _ _ _ _ _ _ He4) in H5. subst p'.
       split; [congruence |].
       exists (sL ++ sO ++ sT), (vis (b q3)), reclen, oh, ol, rectyp,
         expected.
       auto. }
  assert (Hty : rectyp = 0 \/
                0 < rectyp /\
                nth_error reclens (Z.to_nat rectyp) = Some reclen).
  { unfold byte_range in Hrt. destruct Hlen as [Hle | Hnth]; [left; lia |].
    destruct (Z.eq_dec rectyp 0) as [-> | Hne]; [left; reflexivity |].
    right. split; [lia | exact Hnth]. }
  destruct (parseInfo_provenance _ _ _ _ _ _ _ Hwf3 He3 Hrl Hty H5 Herr')
    as [-> | (sP & trailing & payload & cc & HvP & HP & Hpl & Hlt)].
  - left. congruence.
  - right. right.
    exists ((sL ++ sO ++ sT) ++ sP), trailing, reclen, oh, ol, rectyp,
      payload, cc.
    split; [rewrite Hvis, HvP, <- !app_assoc; reflexivity |].
    split; [| unfold record_shape; auto].
    rewrite (hexDecode_app _ _ _ Hheader), HP. reflexivity.
Qed.

Lemma Parse_body_ready (p : Parser) (ln : bslice) (rest : list bslice)
    (body : list ascii) :
  ready p ln rest -> vis ln = ":"%char :: body ->
  Parse_body p
  = parseFields
      (set_sum 0
         (set_b (mkBslice body (slack ln))
            (set_line (line p + 1)
               (set_scanner
                  (mkScanner rest ln (delivered (scanner p) + 1)
                     (ioerr (scanner p))) p)))).
Proof.
  intros (Herr & Hwrap & Hended & Hwf & Hp) Hvis.
  unfold Parse_body. stepped. rewrite Herr. cbv iota.
  stepped. rewrite Hwrap. cbv iota.
  called (scanLine_ready p ln rest Hended Hp). cbn [negb].
  stepped. cbn [token scanner set_line set_scanner]. rewrite Hvis.
  cbn [Ascii.eqb Bool.eqb negb andb]. do 2 stepped. reflexivity.
Qed.

(** X23.  What the error left by a line that starts with a record mark
    says about the line.  The call returns false, the error carries the
    number of the line, and: "invalid record length" means that the
    four header bytes are there and that the type is one of 1 to 5 with
    another length than [reclens] asks for; "invalid checksum" and
    "trailing data" mean that all the fields of the record are there, as
    many data bytes as the length byte says, and are the verdict on their
    sum and on what follows them; every other defect (a field cut short,
    a character that is not a hexadecimal digit, a length of 128 or
    more) is reported as "record too short". *)
Theorem error_says_what_is_wrong (p p' : Parser) (ln : bslice)
    (rest : list bslice) (body : list ascii) (c : ctl) (e : error) :
  ready p ln rest -> vis ln = ":"%char :: body ->
  Parse_body p = Ok c p' -> Err p' = Some e ->
  Parse p = Ok false p' /\
  (e = ParseError (line p + 1) "record too short" \/
   (e = ParseError (line p + 1) "invalid record length" /\
    exists header tail reclen oh ol rectyp expected,
      body = header ++ tail /\
      hexDecode header = ([reclen; oh; ol; rectyp], None) /\
      0 < rectyp /\
      nth_error reclens (Z.to_nat rectyp) = Some expected /\
      reclen <> expected) \/
   (exists reclen oh ol rectyp payload cc trailing,
       record_text (vis ln) reclen oh ol rectyp payload cc trailing /\
       record_shape reclen rectyp payload /\
       Some e
       = verdict (line p + 1) (record_bytes reclen oh ol rectyp payload cc)
           trailing)).
Proof.
  intros Hready Hvis Hrun Herr'. unfold Err in Herr'.
  pose proof Hrun as Hf. rewrite (Parse_body_ready p ln rest body Hready Hvis) in Hf.
  destruct Hready as (Herr & Hwrap & Hended & Hwf & Hp).
  split.
  - rewrite Parse_unfold, Hrun. destruct c as [[|] |].
    + apply parseFields_true in Hf as [Hnone _]. congruence.
    + reflexivity.
    + apply (Parse_with_error p' e Herr').
  - match type of Hf with
    | parseFields ?Q = _ =>
        destruct (parseFields_provenance Q p' c e ltac:(solve_wf) Herr Hf
                    Herr')
          as [He | [[He Hinfo] | Hinfo]]
    end.
    + left. exact He.
    + right. left. split; [exact He | exact Hinfo].
    + right. right.
      destruct Hinfo as (body' & trailing & reclen & oh & ol & rectyp
                         & payload & cc & Hv & Hdec & Hshape).
      cbn [b set_sum set_b vis] in Hv.
      assert (Htext : record_text (vis ln) reclen oh ol rectyp payload cc
                        trailing)
        by (exists body'; rewrite Hvis, Hv; auto).
      destruct (Parse_body_known p ln rest reclen oh ol rectyp payload cc
                  trailing (conj Herr (conj Hwrap (conj Hended (conj Hwf Hp))))
                  Htext Hshape)
        as (p'' & Hbody & Hverdict & _).
      rewrite Hrun in Hbody.
      assert (p'' = p') by (inversion Hbody; reflexivity). subst p''.
      exists reclen, oh, ol, rectyp, payload, cc, trailing.
      split; [exact Htext |]. split; [exact Hshape |]. congruence.
Qed.

Lemma error_says_what_is_wrong_witness :
  Parse beforeCutShort = Ok false (afterParse cutShortInput) /\
  (ParseError 1 "record too short"
   = ParseError (line beforeCutShort + 1) "record too short" \/
   (ParseError 1 "record too short"
    = ParseError (line beforeCutShort + 1) "invalid record length" /\
    exists header tail reclen oh ol rectyp expected,
      list_ascii_of_string "0B0010006164647265737320676170"
      = header ++ tail /\
      hexDecode header = ([reclen; oh; ol; rectyp], None) /\
      0 < rectyp /\
      nth_error reclens (Z.to_nat rectyp) = Some expected /\
      reclen <> expected) \/
   (exists reclen oh ol rectyp payload cc trailing,
       record_text (vis cutShortLine) reclen oh ol rectyp payload cc
         trailing /\
       record_shape reclen rectyp payload /\
       Some (ParseError 1 "record too short")
       = verdict (line beforeCutShort + 1)
           (record_bytes reclen oh ol rectyp payload cc) trailing)).
Proof.
  apply (error_says_what_is_wrong beforeCutShort (afterParse cutShortInput)
           cutShortLine [] _ (Return false)).
  - unfold ready, wf. repeat split; vm_compute; reflexivity.
  - vm_compute. reflexivity.
  - vm_compute. reflexivity.
  - vm_compute. reflexivity.
Defined.

(** ** Records cut short *)

Lemma hexDecode_app_inv (s1 s2 : list ascii) (bs1 bs : list Z) :
  hexDecode s1 = (bs1, None) -> hexDecode (s1 ++ s2) = (bs, None) ->
  exists bs2, hexDecode s2 = (bs2, None) /\ bs = bs1 ++ bs2.
Proof.
  intros H1 H. rewrite (hexDecode_app s1 bs1 s2 H1) in H.
  destruct (hexDecode s2) as [bs2 e]. inversion H; subst.
  exists bs2. auto.
Qed.

Lemma hexDecode_nil (s : list ascii) :
  hexDecode s = ([], None) -> s = [].
Proof.
  intros H. apply hexDecode_ok_length in H. simpl in H.
  destruct s; [reflexivity | discriminate H].
Qed.

(** Two records that start with the same length byte, one a prefix of
    the other, are the same. *)
Lemma record_bytes_prefix (reclen oh ol rectyp : Z) (payload : list Z)
    (cc reclen' oh' ol' rectyp' : Z) (payload' : list Z) (cc' : Z)
    (more : list Z) :
  record_bytes reclen oh ol rectyp payload cc
  = record_bytes reclen' oh' ol' rectyp' payload' cc' ++ more ->
  reclen = Z.of_nat (List.length payload) ->
  reclen' = Z.of_nat (List.length payload') ->
  more = [].
Proof.
  unfold record_bytes. intros H Hl Hl'.
  inversion H as [[Hr Ho1 Ho2 Ht Hrest]].
  apply (f_equal (@List.length Z)) in Hrest.
  rewrite <- app_assoc in Hrest. rewrite !length_app in Hrest.
  simpl in Hrest.
  destruct more; [reflexivity | simpl in Hrest; lia].
Qed.

(** X24.  A valid record with characters missing at its end, on a line
    followed by room in the buffer, is reported as "record too short" at
    its line, wherever the cut falls: in the header, in the data or
    before the checksum. *)
Theorem truncated_record_is_too_short (p : Parser) (ln : bslice)
    (rest : list bslice) (body missing : list ascii)
    (reclen oh ol rectyp : Z) (payload : list Z) (cc : Z) :
  ready p ln rest -> roomy ln = true -> vis ln = ":"%char :: body ->
  hexDecode (body ++ missing)
  = (record_bytes reclen oh ol rectyp payload cc, None) ->
  record_shape reclen rectyp payload -> missing <> [] ->
  exists p',
    Parse p = Ok false p' /\
    Err p' = Some (ParseError (line p + 1) "record too short").
Proof.
  intros Hready Hroom Hvis Hfull Hshape Hmiss.
  pose proof (Parse_body_ready p ln rest body Hready Hvis) as Hbody.
  destruct Hready as (Herr & Hwrap & Hended & Hwf & Hp).
  destruct Hshape as (Hlen & Hlt & Hty).
  assert (Htype : rectyp <= 5).
  { destruct Hty as [-> | [_ Hnth]]; [lia |].
    assert (Hn : (Z.to_nat rectyp < List.length reclens)%nat)
      by (apply nth_error_Some; congruence).
    simpl in Hn. lia. }
  match type of Hbody with
  | _ = parseFields ?Q0 => set (Q := Q0) in *
  end.
  assert (HwfQ : wf Q) by (subst Q; solve_wf).
  assert (HerrQ : err Q = None) by exact Herr.
  assert (HvQ : vis (b Q) = body) by reflexivity.
  assert (HlQ : line Q = line p + 1) by reflexivity.
  assert (HrQ : roomy (b Q) = true) by exact Hroom.
  clearbody Q.
  destruct (parseFields Q) as [c p' | msg |] eqn:Hf.
  - (* the call returns *)
    destruct (err p') as [e |] eqn:Herr'.
    + exists p'.
      destruct (parseFields_provenance Q p' c e HwfQ HerrQ Hf Herr')
        as [He | [[He Hinfo] | Hinfo]].
      * split; [| unfold Err; congruence].
        rewrite Parse_unfold, Hbody. destruct c as [[|] |].
        -- apply parseFields_true in Hf as [Hnone _]. congruence.
        -- reflexivity.
        -- apply (Parse_with_error p' e Herr').
      * exfalso.
        destruct Hinfo as (header & tail & reclen' & oh' & ol' & rectyp'
                           & expected & Hv & Hd & Hpos & Hnth & Hne).
        rewrite <- HvQ, Hv, <- app_assoc in Hfull.
        destruct (hexDecode_app_inv _ _ _ _ Hd Hfull) as (bs2 & _ & Heq).
        unfold record_bytes in Heq. inversion Heq; subst.
        destruct Hty as [-> | [_ Hnth']]; [lia | congruence].
      * exfalso.
        destruct Hinfo as (body' & trailing & reclen' & oh' & ol' & rectyp'
                           & payload' & cc' & Hv & Hd & Hshape').
        rewrite <- HvQ, Hv, <- app_assoc in Hfull.
        destruct (hexDecode_app_inv _ _ _ _ Hd Hfull) as (bs2 & Hd2 & Heq).
        apply record_bytes_prefix in Heq;
          [| exact Hlen | exact (proj1 Hshape')].
        subst bs2. apply hexDecode_nil in Hd2.
        apply app_eq_nil in Hd2 as [_ Hd2]. contradiction.
    + exfalso.
      destruct (parseFields_reads_a_record Q p' c HwfQ Hf Herr')
        as (reclen' & oh' & ol' & rectyp' & payload' & cc' & Hd & Hshape').
      rewrite HvQ in Hd.
      destruct (hexDecode_app_inv _ _ _ _ Hd Hfull) as (bs2 & Hd2 & Heq).
      apply record_bytes_prefix in Heq;
        [| exact Hlen | exact (proj1 Hshape')].
      subst bs2. apply hexDecode_nil in Hd2. contradiction.
  - (* no panic: the type is known *)
    exfalso.
    apply parseFields_Panic in Hf
      as (_ & header & tail & reclen' & oh' & ol' & rectyp' & Hv & Hd & Hbig);
      [| exact HrQ | exact HwfQ].
    rewrite <- HvQ, Hv, <- app_assoc in Hfull.
    destruct (hexDecode_app_inv _ _ _ _ Hd Hfull) as (bs2 & _ & Heq).
    unfold record_bytes in Heq. inversion Heq; subst. lia.
  - exfalso. exact (fuelless_parseFields Q Hf).
Qed.

Lemma truncated_record_is_too_short_witness :
  exists p',
    Parse beforeCutShort = Ok false p' /\
    Err p' = Some (ParseError (line beforeCutShort + 1) "record too short").
Proof.
  apply (truncated_record_is_too_short beforeCutShort cutShortLine []
           (list_ascii_of_string "0B0010006164647265737320676170")
           (list_ascii_of_string "A7") 0x0B 0 0x10 0 dataPayload 0xA7).
  - unfold ready, wf. repeat split; vm_compute; reflexivity.
  - vm_compute. reflexivity.
  - vm_compute. reflexivity.
  - vm_compute. reflexivity.
  - unfold record_shape. simpl. split; [reflexivity |]. split; [lia | auto].
  - discriminate.
Defined.
